(** * Options strategies: pricing engine and strategy aggregator

    A shallow embedding of [src/api/strategies.py]: the Black-Scholes
    pricing engine ([BlackScholes]), the strategy aggregator
    ([OptionsStrategy]) and the catalog of factory functions, together with
    the risk/reward computation of [src/api/main.py], followed by the
    properties established about them.

    Conventions of the embedding.
    - Python and numpy floats are idealised as real numbers ([R]); rounding,
      infinities and NaN are outside the model.  Python integers are [Z].
      Where the outcome itself depends on rounding, in the break-even scan
      of [analyze], the code is embedded a second time on IEEE 754 binary64
      numbers (module [Binary64]), and the properties of the break-evens
      are stated there.
    - Option kinds and positions are the strings the source compares
      against ('call', 'put', 'long', 'short').
    - A Python exception is a [Raise] in the [result] monad.  The only
      exceptions the modelled code can raise are [ZeroDivisionError]
      (the float division [S/K]) and [ValueError] ([np.max] of an empty
      array); numpy's element-wise operations never raise.
    - Methods take [self] as their first argument and mutators return the
      updated object. *)

From Stdlib Require Import Reals Lra Lia List ZArith String Bool Permutation Sorted.
From Stdlib Require Import DecimalString.
From Stdlib Require Floats.
Import ListNotations.
Open Scope R_scope.

(* ================================================================== *)
(** * Calculus toolbox *)
(* ================================================================== *)

Section Calculus.

Lemma derivable_pt_lim_value (f : R -> R) (x l l' : R) :
  l = l' -> derivable_pt_lim f x l -> derivable_pt_lim f x l'.
Proof. intros <-. exact (fun H => H). Qed.

Lemma deriv_nonneg_incr (f f' : R -> R) :
  (forall c, derivable_pt_lim f c (f' c)) ->
  (forall c, 0 <= f' c) ->
  forall a b, a <= b -> f a <= f b.
Proof.
  intros Hd Hpos a b [Hab | ->]; [| lra].
  destruct (MVT_cor2 f f' a b Hab (fun c _ => Hd c)) as [c [Hc _]].
  specialize (Hpos c). nra.
Qed.

Lemma deriv_pos_incr (f f' : R -> R) :
  (forall c, derivable_pt_lim f c (f' c)) ->
  (forall c, 0 < f' c) ->
  forall a b, a < b -> f a < f b.
Proof.
  intros Hd Hpos a b Hab.
  destruct (MVT_cor2 f f' a b Hab (fun c _ => Hd c)) as [c [Hc _]].
  specialize (Hpos c). nra.
Qed.

Lemma deriv_null_const (f : R -> R) :
  (forall c, derivable_pt_lim f c 0) ->
  forall a b, f a = f b.
Proof.
  intros Hd a b.
  assert (Hle : forall u v, u <= v -> f u = f v).
  { intros u v [Huv | ->]; [| reflexivity].
    destruct (MVT_cor2 f (fun _ => 0) u v Huv (fun c _ => Hd c)) as [c [Hc _]].
    lra. }
  destruct (Rle_dec a b) as [H | H]; [apply Hle; exact H |].
  symmetry; apply Hle; lra.
Qed.

(** A derivative only depends on the function near the point. *)
Lemma derivable_pt_lim_local (f g : R -> R) (x l d : R) :
  0 < d ->
  (forall y, Rabs (y - x) < d -> f y = g y) ->
  derivable_pt_lim g x l -> derivable_pt_lim f x l.
Proof.
  intros Hd Heq Hg eps Heps.
  destruct (Hg eps Heps) as [delta Hdelta].
  assert (Hm : 0 < Rmin delta d) by (apply Rmin_pos; [apply cond_pos | exact Hd]).
  exists (mkposreal _ Hm). simpl. intros h Hh Hlt.
  rewrite (Heq (x + h)), (Heq x).
  - apply Hdelta; [exact Hh |].
    eapply Rlt_le_trans; [exact Hlt | apply Rmin_l].
  - replace (x - x) with 0 by ring. rewrite Rabs_R0. exact Hd.
  - replace (x + h - x) with h by ring.
    eapply Rlt_le_trans; [exact Hlt | apply Rmin_r].
Qed.

Lemma derivable_pt_lim_same (f g : R -> R) (x l : R) :
  (forall y, f y = g y) -> derivable_pt_lim g x l -> derivable_pt_lim f x l.
Proof.
  intros H. apply (derivable_pt_lim_local f g x l 1); [lra | intros y _; apply H].
Qed.

Lemma continuity_of_deriv (f f' : R -> R) :
  (forall x, derivable_pt_lim f x (f' x)) -> continuity f.
Proof.
  intros H x. apply derivable_continuous_pt. exists (f' x). apply H.
Qed.

Lemma Rabs_le_between (a b : R) : Rabs a <= b -> - b <= a <= b.
Proof.
  intro H. pose proof (Rle_abs a). pose proof (Rle_abs (- a)) as H'.
  rewrite Rabs_Ropp in H'. lra.
Qed.

End Calculus.

(* ================================================================== *)
(** * Integrals of continuous functions *)
(* ================================================================== *)

Section ContinuousIntegral.
Variable f : R -> R.
Hypothesis f_cont : continuity f.

Definition cont_integrable (a b : R) : Riemann_integrable f a b :=
  match Rle_dec a b with
  | left Hab => continuity_implies_RiemannInt Hab (fun x _ => f_cont x)
  | right Hba =>
      RiemannInt_P1
        (continuity_implies_RiemannInt (Rlt_le _ _ (Rnot_le_lt _ _ Hba))
           (fun x _ => f_cont x))
  end.

Definition integral (a b : R) : R := RiemannInt (cont_integrable a b).

Lemma integral_eq (a b : R) (pr : Riemann_integrable f a b) :
  RiemannInt pr = integral a b.
Proof. apply RiemannInt_P5. Qed.

Lemma integral_chasles (a b c : R) : integral a b + integral b c = integral a c.
Proof. apply RiemannInt_P26. Qed.

Lemma integral_deriv (a x : R) : derivable_pt_lim (integral a) x (f x).
Proof.
  assert (Hab : x - 1 <= x + 1) by lra.
  pose (C0 := fun (y : R) (_ : x - 1 <= y <= x + 1) => f_cont y).
  apply (derivable_pt_lim_local _
           (fun y => integral a (x - 1) + primitive Hab (FTC_P1 Hab C0) y) _ _ 1).
  - lra.
  - intros y Hy.
    assert (Hy' : x - 1 <= y <= x + 1).
    { apply Rabs_def2 in Hy. lra. }
    unfold primitive.
    destruct (Rle_dec (x - 1) y) as [H1 | H1]; [| lra].
    destruct (Rle_dec y (x + 1)) as [H2 | H2]; [| lra].
    rewrite integral_eq. symmetry. apply integral_chasles.
  - apply (derivable_pt_lim_value _ _ (0 + f x)); [ring |].
    apply (derivable_pt_lim_plus (fct_cte (integral a (x - 1)))).
    + apply derivable_pt_lim_const.
    + apply RiemannInt_P28. lra.
Qed.

Lemma integral_refl (a : R) : integral a a = 0.
Proof. apply RiemannInt_P9. Qed.

(** The fundamental theorem of calculus. *)
Lemma integral_antiderivative (B : R -> R) (a b : R) :
  (forall x, derivable_pt_lim B x (f x)) -> integral a b = B b - B a.
Proof.
  intro HB.
  assert (H : forall c, derivable_pt_lim (fun y => integral a y - B y) c 0).
  { intro c. apply (derivable_pt_lim_value _ _ (f c - f c)); [ring |].
    apply (derivable_pt_lim_minus (integral a) B); [apply integral_deriv | apply HB]. }
  pose proof (deriv_null_const _ H b a) as E. cbv beta in E.
  rewrite integral_refl in E. lra.
Qed.

Lemma integral_le_const (a b m : R) :
  a <= b -> (forall x, a <= x <= b -> f x <= m) -> integral a b <= m * (b - a).
Proof.
  intros Hab Hm. rewrite <- (RiemannInt_P15 (RiemannInt_P14 a b m)).
  apply RiemannInt_P19; [exact Hab |]. intros x Hx. apply Hm. lra.
Qed.

Lemma integral_ge_const (a b m : R) :
  a <= b -> (forall x, a <= x <= b -> m <= f x) -> m * (b - a) <= integral a b.
Proof.
  intros Hab Hm. rewrite <- (RiemannInt_P15 (RiemannInt_P14 a b m)).
  apply RiemannInt_P19; [exact Hab |]. intros x Hx. apply Hm. lra.
Qed.
End ContinuousIntegral.

(* ================================================================== *)
(** * The standard normal distribution ([scipy.stats.norm]) *)
(* ================================================================== *)

(** The Gaussian bell [exp(-t^2/2)], the density before normalisation. *)
Definition gauss (t : R) : R := exp (- (t * t) / 2).

Lemma gauss_pos t : 0 < gauss t.
Proof. apply exp_pos. Qed.

Lemma gauss_even t : gauss (- t) = gauss t.
Proof. unfold gauss. f_equal. lra. Qed.

Lemma gauss_deriv t : derivable_pt_lim gauss t (- t * gauss t).
Proof.
  unfold gauss.
  apply (derivable_pt_lim_value (comp exp (fun u => - (u * u) / 2)) t
           (exp (- (t * t) / 2) * (- t))); [ring |].
  apply derivable_pt_lim_comp; [| apply derivable_pt_lim_exp].
  apply (derivable_pt_lim_value _ _ (/ 2 * (- (1 * t + t * 1)))); [field |].
  apply (derivable_pt_lim_local _ (mult_real_fct (/ 2) (- (id * id))%F) _ _ 1);
    [lra | intros y _; unfold mult_real_fct, opp_fct, mult_fct, id; field |].
  apply derivable_pt_lim_scal, derivable_pt_lim_opp, derivable_pt_lim_mult;
    apply derivable_pt_lim_id.
Qed.

Lemma gauss_continuity : continuity gauss.
Proof.
  apply derivable_continuous. intro t.
  exists (- t * gauss t). apply gauss_deriv.
Qed.

(** Signed area under the bell between [0] and [x]. *)
Definition gauss_area (x : R) : R := integral gauss gauss_continuity 0 x.

(** Modelled from the spec: [norm.pdf] is [scipy.stats.norm.pdf], a library
    function outside the repository; the spec calls it the standard normal
    PDF, [exp(-x^2/2) / sqrt(2*pi)]. *)
Definition norm_pdf (x : R) : R := exp (- x ^ 2 / 2) / sqrt (2 * PI).

(** Modelled from the spec: [norm.cdf] is [scipy.stats.norm.cdf], which the
    spec calls the standard normal CDF: one half plus the integral of the
    density from [0] to [x]. *)
Definition norm_cdf (x : R) : R := / 2 + gauss_area x / sqrt (2 * PI).

(* ================================================================== *)
(** * Python values and exceptions *)
(* ================================================================== *)

Inductive exn : Type :=
| ZeroDivisionError
| ValueError.

Inductive result (A : Type) : Type :=
| Ok (a : A)
| Raise (e : exn).

Arguments Ok {A} a.
Arguments Raise {A} e.

Definition bind {A B : Type} (m : result A) (k : A -> result B) : result B :=
  match m with
  | Ok a => k a
  | Raise e => Raise e
  end.

Notation "x <- m ;; k" := (bind m (fun x => k))
  (at level 61, m at next level, right associativity).

(** A [for] loop whose body may raise, threading the loop state. *)
Fixpoint for_each {A B : Type} (body : B -> A -> result B) (l : list A) (acc : B)
  : result B :=
  match l with
  | [] => Ok acc
  | x :: l' => acc' <- body acc x ;; for_each body l' acc'
  end.

(** The operation signals an error to its caller. *)
Definition raises {A : Type} (m : result A) : Prop := exists e, m = Raise e.

Definition Rleb (x y : R) : bool := if Rle_dec x y then true else false.
Definition Rltb (x y : R) : bool := if Rlt_dec x y then true else false.

(** [a / b] on Python floats. *)
Definition float_div (a b : R) : result R :=
  if Req_dec_T b 0 then Raise ZeroDivisionError else Ok (a / b).

Definition Rsum (l : list R) : R := fold_right Rplus 0 l.

(* ================================================================== *)
(** * Data structures *)
(* ================================================================== *)

Record MarketParams : Type := mkMarketParams {
  risk_free_rate : R;
  volatility : R;
  dividend_yield : R;
  days_to_expiration : Z
}.

(** The dataclass defaults. *)
Definition MarketParams_default : MarketParams :=
  mkMarketParams 0.05 0.25 0.0 30.

Module OptionLeg.
Record t : Type := mk {
  option_type : string;   (* 'call' or 'put' *)
  position : string;      (* 'long' or 'short' *)
  strike : R;
  premium : R
}.
End OptionLeg.

Module StockLeg.
Record t : Type := mk {
  position : string;      (* 'long' or 'short' *)
  price : R;
  quantity : Z
}.
End StockLeg.

(* ================================================================== *)
(** * Black-Scholes pricing engine *)
(* ================================================================== *)

Module BlackScholes.

(** The expression every method recomputes for [d1]; [S/K] is a division of
    Python floats, the other operations are numpy's. *)
Definition d1_term (S K T r sigma q : R) : result R :=
  m <- float_div S K ;;
  Ok ((ln m + (r - q + 0.5 * sigma ^ 2) * T) / (sigma * sqrt T)).

Definition call_price (S K T r sigma q : R) : result R :=
  if Rleb T 0 || Rleb sigma 0 then Ok (Rmax (S - K) 0)
  else
    d1 <- d1_term S K T r sigma q ;;
    let d2 := d1 - sigma * sqrt T in
    let call := S * exp (- q * T) * norm_cdf d1 - K * exp (- r * T) * norm_cdf d2 in
    Ok (Rmax call 0).

Definition put_price (S K T r sigma q : R) : result R :=
  if Rleb T 0 || Rleb sigma 0 then Ok (Rmax (K - S) 0)
  else
    d1 <- d1_term S K T r sigma q ;;
    let d2 := d1 - sigma * sqrt T in
    let put := K * exp (- r * T) * norm_cdf (- d2) - S * exp (- q * T) * norm_cdf (- d1) in
    Ok (Rmax put 0).

Definition delta (S K T r sigma : R) (option_type : string) (q : R) : result R :=
  if Rleb T 0 then
    Ok (if Rltb K S && String.eqb option_type "call" then 1.0 else 0.0)
  else
    d1 <- d1_term S K T r sigma q ;;
    if String.eqb option_type "call" then Ok (exp (- q * T) * norm_cdf d1)
    else Ok (- exp (- q * T) * norm_cdf (- d1)).

Definition gamma (S K T r sigma q : R) : result R :=
  if Rleb T 0 then Ok 0.0
  else
    d1 <- d1_term S K T r sigma q ;;
    Ok (exp (- q * T) * norm_pdf d1 / (S * sigma * sqrt T)).

Definition theta (S K T r sigma : R) (option_type : string) (q : R) : result R :=
  if Rleb T 0 then Ok 0.0
  else
    d1 <- d1_term S K T r sigma q ;;
    let d2 := d1 - sigma * sqrt T in
    let term1 := - (S * norm_pdf d1 * sigma * exp (- q * T)) / (2 * sqrt T) in
    if String.eqb option_type "call" then
      let term2 := r * K * exp (- r * T) * norm_cdf d2 in
      let term3 := - q * S * exp (- q * T) * norm_cdf d1 in
      Ok ((term1 - term2 + term3) / 365)
    else
      let term2 := r * K * exp (- r * T) * norm_cdf (- d2) in
      let term3 := q * S * exp (- q * T) * norm_cdf (- d1) in
      Ok ((term1 + term2 - term3) / 365).

Definition vega (S K T r sigma q : R) : result R :=
  if Rleb T 0 then Ok 0.0
  else
    d1 <- d1_term S K T r sigma q ;;
    Ok (S * exp (- q * T) * norm_pdf d1 * sqrt T / 100).

Definition rho (S K T r sigma : R) (option_type : string) (q : R) : result R :=
  if Rleb T 0 then Ok 0.0
  else
    d1 <- d1_term S K T r sigma q ;;
    let d2 := d1 - sigma * sqrt T in
    if String.eqb option_type "call" then
      Ok (K * T * exp (- r * T) * norm_cdf d2 / 100)
    else
      Ok (- K * T * exp (- r * T) * norm_cdf (- d2) / 100).

End BlackScholes.

(* ================================================================== *)
(** * numpy arrays *)
(* ================================================================== *)

(** Element-wise [a + b] of two arrays of one shape. *)
Definition np_add (a b : list R) : list R :=
  map (fun p => fst p + snd p) (combine a b).

(** [np.zeros_like(a)]. *)
Definition np_zeros_like (a : list R) : list R := map (fun _ => 0.0) a.

(** [np.linspace(start, stop, num)] with the default [endpoint=True]:
    [arange(num) * step + start] with [step = (stop - start) / (num - 1)],
    and for [num > 1] the last sample is then overwritten with [stop]. *)
Definition np_linspace (start stop : R) (num : nat) : list R :=
  let step := (stop - start) / INR (num - 1) in
  let y := map (fun i => INR i * step + start) (seq 0 num) in
  if (1 <? num)%nat then removelast y ++ [stop] else y.

(** [np.max(a)] and [np.min(a)]; both raise on an empty array. *)
Definition np_max (a : list R) : result R :=
  match a with
  | [] => Raise ValueError
  | x :: a' => Ok (fold_left Rmax a' x)
  end.

Definition np_min (a : list R) : result R :=
  match a with
  | [] => Raise ValueError
  | x :: a' => Ok (fold_left Rmin a' x)
  end.

(* ================================================================== *)
(** * The strategy aggregator *)
(* ================================================================== *)

Record OptionsStrategy : Type := mkOptionsStrategy {
  name : string;
  option_legs : list OptionLeg.t;
  stock_legs : list StockLeg.t;
  market_params : MarketParams
}.

(** The dictionary [greeks] returns, with its five fixed keys. *)
Module Greeks.
Record t : Type := mk {
  delta : R;
  gamma : R;
  theta : R;
  vega : R;
  rho : R
}.
End Greeks.

(** The dictionary [analyze] returns. *)
Module Analysis.
Record t : Type := mk {
  current_pnl : R;
  max_profit_at_expiration : R;
  max_loss_at_expiration : R;
  break_even_at_expiration : list R;
  greeks : Greeks.t
}.
End Analysis.

(** [OptionsStrategy(name, market_params)]. *)
Definition init (name : string) (market_params : option MarketParams)
  : OptionsStrategy :=
  mkOptionsStrategy name [] []
    (match market_params with Some mp => mp | None => MarketParams_default end).

Definition add_option_leg (self : OptionsStrategy)
    (option_type position : string) (strike premium : R) : OptionsStrategy :=
  mkOptionsStrategy (name self)
    (option_legs self ++ [OptionLeg.mk option_type position strike premium])
    (stock_legs self) (market_params self).

Definition add_stock_leg (self : OptionsStrategy)
    (position : string) (price : R) (quantity : Z) : OptionsStrategy :=
  mkOptionsStrategy (name self) (option_legs self)
    (stock_legs self ++ [StockLeg.mk position price quantity])
    (market_params self).

(** One iteration of the stock-leg loop of [payoff_at_expiration]. *)
Definition payoff_stock_step (S_T : list R) (payoff : list R) (leg : StockLeg.t)
  : list R :=
  if String.eqb (StockLeg.position leg) "long" then
    np_add payoff
      (map (fun s => (s - StockLeg.price leg) * IZR (StockLeg.quantity leg)) S_T)
  else
    np_add payoff
      (map (fun s => (StockLeg.price leg - s) * IZR (StockLeg.quantity leg)) S_T).

(** One iteration of the option-leg loop of [payoff_at_expiration]. *)
Definition payoff_option_step (S_T : list R) (payoff : list R) (leg : OptionLeg.t)
  : list R :=
  let intrinsic :=
    if String.eqb (OptionLeg.option_type leg) "call" then
      map (fun s => Rmax (s - OptionLeg.strike leg) 0) S_T
    else
      map (fun s => Rmax (OptionLeg.strike leg - s) 0) S_T in
  if String.eqb (OptionLeg.position leg) "long" then
    np_add payoff (map (fun v => (v - OptionLeg.premium leg) * 100) intrinsic)
  else
    np_add payoff (map (fun v => (OptionLeg.premium leg - v) * 100) intrinsic).

Definition payoff_at_expiration (self : OptionsStrategy) (S_T : list R) : list R :=
  let payoff := np_zeros_like S_T in
  let payoff := fold_left (payoff_stock_step S_T) (stock_legs self) payoff in
  fold_left (payoff_option_step S_T) (option_legs self) payoff.

Definition pnl_stock_step (S : R) (pnl : R) (leg : StockLeg.t) : R :=
  if String.eqb (StockLeg.position leg) "long" then
    pnl + (S - StockLeg.price leg) * IZR (StockLeg.quantity leg)
  else
    pnl + (StockLeg.price leg - S) * IZR (StockLeg.quantity leg).

Definition pnl_option_step (mp : MarketParams) (S T : R) (pnl : R)
    (leg : OptionLeg.t) : result R :=
  current_value <-
    (if String.eqb (OptionLeg.option_type leg) "call" then
       BlackScholes.call_price S (OptionLeg.strike leg) T
         (risk_free_rate mp) (volatility mp) (dividend_yield mp)
     else
       BlackScholes.put_price S (OptionLeg.strike leg) T
         (risk_free_rate mp) (volatility mp) (dividend_yield mp)) ;;
  if String.eqb (OptionLeg.position leg) "long" then
    Ok (pnl + (current_value - OptionLeg.premium leg) * 100)
  else
    Ok (pnl + (OptionLeg.premium leg - current_value) * 100).

Definition current_pnl (self : OptionsStrategy) (S : R) : result R :=
  let T := IZR (days_to_expiration (market_params self)) / 365 in
  let pnl := 0.0 in
  let pnl := fold_left (pnl_stock_step S) (stock_legs self) pnl in
  for_each (pnl_option_step (market_params self) S T) (option_legs self) pnl.

Definition greeks_stock_step (g : Greeks.t) (leg : StockLeg.t) : Greeks.t :=
  let multiplier := if String.eqb (StockLeg.position leg) "long" then 1%Z else (-1)%Z in
  Greeks.mk (Greeks.delta g + IZR (StockLeg.quantity leg * multiplier))
    (Greeks.gamma g) (Greeks.theta g) (Greeks.vega g) (Greeks.rho g).

Definition greeks_option_step (mp : MarketParams) (S T : R) (g : Greeks.t)
    (leg : OptionLeg.t) : result Greeks.t :=
  let multiplier := if String.eqb (OptionLeg.position leg) "long" then 1%Z else (-1)%Z in
  d <- BlackScholes.delta S (OptionLeg.strike leg) T (risk_free_rate mp)
         (volatility mp) (OptionLeg.option_type leg) (dividend_yield mp) ;;
  gm <- BlackScholes.gamma S (OptionLeg.strike leg) T (risk_free_rate mp)
          (volatility mp) (dividend_yield mp) ;;
  th <- BlackScholes.theta S (OptionLeg.strike leg) T (risk_free_rate mp)
          (volatility mp) (OptionLeg.option_type leg) (dividend_yield mp) ;;
  vg <- BlackScholes.vega S (OptionLeg.strike leg) T (risk_free_rate mp)
          (volatility mp) (dividend_yield mp) ;;
  rh <- BlackScholes.rho S (OptionLeg.strike leg) T (risk_free_rate mp)
          (volatility mp) (OptionLeg.option_type leg) (dividend_yield mp) ;;
  Ok (Greeks.mk (Greeks.delta g + IZR multiplier * d * 100)
        (Greeks.gamma g + IZR multiplier * gm * 100)
        (Greeks.theta g + IZR multiplier * th * 100)
        (Greeks.vega g + IZR multiplier * vg * 100)
        (Greeks.rho g + IZR multiplier * rh * 100)).

Definition greeks (self : OptionsStrategy) (S : R) : result Greeks.t :=
  let T := IZR (days_to_expiration (market_params self)) / 365 in
  let g := Greeks.mk 0.0 0.0 0.0 0.0 0.0 in
  let g := fold_left greeks_stock_step (stock_legs self) g in
  for_each (greeks_option_step (market_params self) S T) (option_legs self) g.

(** One iteration of the break-even loop of [analyze], in exact
    arithmetic; [Binary64.break_even_step] is the same iteration on
    floats. *)
Definition break_even_step (S_range payoffs : list R) (break_evens : list R)
    (i : nat) : list R :=
  if Rltb (nth i payoffs 0 * nth (i + 1) payoffs 0) 0 then
    let be := nth i S_range 0
              - nth i payoffs 0 * (nth (i + 1) S_range 0 - nth i S_range 0)
                / (nth (i + 1) payoffs 0 - nth i payoffs 0) in
    break_evens ++ [be]
  else break_evens.

Definition analyze (self : OptionsStrategy) (S : R) : result Analysis.t :=
  current_pnl <- current_pnl self S ;;
  greeks <- greeks self S ;;
  let S_range := np_linspace (S * 0.5) (S * 1.5) 500 in
  let payoffs := payoff_at_expiration self S_range in
  max_profit <- np_max payoffs ;;
  max_loss <- np_min payoffs ;;
  let break_evens :=
    fold_left (break_even_step S_range payoffs)
      (seq 0 (List.length payoffs - 1)) [] in
  Ok (Analysis.mk current_pnl max_profit max_loss break_evens greeks).

(* ================================================================== *)
(** * The strategy catalog *)
(* ================================================================== *)

(** [for _ in range(n): body]: the body runs [n] times, and not at all
    when [n <= 0]. *)
Definition for_range {A : Type} (n : Z) (body : A -> A) (acc : A) : A :=
  Nat.iter (Z.to_nat n) body acc.

(** The factory functions, each building its strategy leg by leg in the
    order of the source.  Python's default arguments ([ratio = 2],
    [market_params = None]) are passed explicitly; an integer formatted
    into a name is written in decimal, as an f-string does. *)

(** Covered Call - Long stock + Short call. *)
Definition covered_call (stock_price call_strike call_premium : R) (market_params : option MarketParams)
  : OptionsStrategy :=
  let strategy := init "Covered Call" market_params in
  let strategy := add_stock_leg strategy "long" stock_price 100 in
  let strategy := add_option_leg strategy "call" "short" call_strike call_premium in
  strategy.

(** Covered Put - Short stock + Short put. *)
Definition covered_put (stock_price put_strike put_premium : R) (market_params : option MarketParams)
  : OptionsStrategy :=
  let strategy := init "Covered Put" market_params in
  let strategy := add_stock_leg strategy "short" stock_price 100 in
  let strategy := add_option_leg strategy "put" "short" put_strike put_premium in
  strategy.

(** Protective Put - Long stock + Long put. *)
Definition protective_put (stock_price put_strike put_premium : R) (market_params : option MarketParams)
  : OptionsStrategy :=
  let strategy := init "Protective Put" market_params in
  let strategy := add_stock_leg strategy "long" stock_price 100 in
  let strategy := add_option_leg strategy "put" "long" put_strike put_premium in
  strategy.

(** Protective Call - Short stock + Long call. *)
Definition protective_call (stock_price call_strike call_premium : R) (market_params : option MarketParams)
  : OptionsStrategy :=
  let strategy := init "Protective Call" market_params in
  let strategy := add_stock_leg strategy "short" stock_price 100 in
  let strategy := add_option_leg strategy "call" "long" call_strike call_premium in
  strategy.

(** Bull Call Spread - Long lower call + Short upper call. *)
Definition bull_call_spread (lower_strike upper_strike lower_premium upper_premium : R) (market_params : option MarketParams)
  : OptionsStrategy :=
  let strategy := init "Bull Call Spread" market_params in
  let strategy := add_option_leg strategy "call" "long" lower_strike lower_premium in
  let strategy := add_option_leg strategy "call" "short" upper_strike upper_premium in
  strategy.

(** Bear Put Spread - Long upper put + Short lower put. *)
Definition bear_put_spread (lower_strike upper_strike lower_premium upper_premium : R) (market_params : option MarketParams)
  : OptionsStrategy :=
  let strategy := init "Bear Put Spread" market_params in
  let strategy := add_option_leg strategy "put" "long" upper_strike upper_premium in
  let strategy := add_option_leg strategy "put" "short" lower_strike lower_premium in
  strategy.

(** Bull Put Spread - Short upper put + Long lower put. *)
Definition bull_put_spread (lower_strike upper_strike lower_premium upper_premium : R) (market_params : option MarketParams)
  : OptionsStrategy :=
  let strategy := init "Bull Put Spread" market_params in
  let strategy := add_option_leg strategy "put" "short" upper_strike upper_premium in
  let strategy := add_option_leg strategy "put" "long" lower_strike lower_premium in
  strategy.

(** Bear Call Spread - Short lower call + Long upper call. *)
Definition bear_call_spread (lower_strike upper_strike lower_premium upper_premium : R) (market_params : option MarketParams)
  : OptionsStrategy :=
  let strategy := init "Bear Call Spread" market_params in
  let strategy := add_option_leg strategy "call" "short" lower_strike lower_premium in
  let strategy := add_option_leg strategy "call" "long" upper_strike upper_premium in
  strategy.

(** Long Straddle - Long call + Long put (same strike). *)
Definition long_straddle (strike call_premium put_premium : R) (market_params : option MarketParams)
  : OptionsStrategy :=
  let strategy := init "Long Straddle" market_params in
  let strategy := add_option_leg strategy "call" "long" strike call_premium in
  let strategy := add_option_leg strategy "put" "long" strike put_premium in
  strategy.

(** Short Straddle - Short call + Short put (same strike). *)
Definition short_straddle (strike call_premium put_premium : R) (market_params : option MarketParams)
  : OptionsStrategy :=
  let strategy := init "Short Straddle" market_params in
  let strategy := add_option_leg strategy "call" "short" strike call_premium in
  let strategy := add_option_leg strategy "put" "short" strike put_premium in
  strategy.

(** Long Strangle - Long OTM call + Long OTM put. *)
Definition long_strangle (call_strike put_strike call_premium put_premium : R) (market_params : option MarketParams)
  : OptionsStrategy :=
  let strategy := init "Long Strangle" market_params in
  let strategy := add_option_leg strategy "call" "long" call_strike call_premium in
  let strategy := add_option_leg strategy "put" "long" put_strike put_premium in
  strategy.

(** Short Strangle - Short OTM call + Short OTM put. *)
Definition short_strangle (call_strike put_strike call_premium put_premium : R) (market_params : option MarketParams)
  : OptionsStrategy :=
  let strategy := init "Short Strangle" market_params in
  let strategy := add_option_leg strategy "call" "short" call_strike call_premium in
  let strategy := add_option_leg strategy "put" "short" put_strike put_premium in
  strategy.

(** Long Call Butterfly. *)
Definition long_call_butterfly (lower_strike middle_strike upper_strike lower_premium middle_premium upper_premium : R) (market_params : option MarketParams)
  : OptionsStrategy :=
  let strategy := init "Long Call Butterfly" market_params in
  let strategy := add_option_leg strategy "call" "long" lower_strike lower_premium in
  let strategy := add_option_leg strategy "call" "short" middle_strike middle_premium in
  let strategy := add_option_leg strategy "call" "short" middle_strike middle_premium in
  let strategy := add_option_leg strategy "call" "long" upper_strike upper_premium in
  strategy.

(** Long Put Butterfly. *)
Definition long_put_butterfly (lower_strike middle_strike upper_strike lower_premium middle_premium upper_premium : R) (market_params : option MarketParams)
  : OptionsStrategy :=
  let strategy := init "Long Put Butterfly" market_params in
  let strategy := add_option_leg strategy "put" "long" lower_strike lower_premium in
  let strategy := add_option_leg strategy "put" "short" middle_strike middle_premium in
  let strategy := add_option_leg strategy "put" "short" middle_strike middle_premium in
  let strategy := add_option_leg strategy "put" "long" upper_strike upper_premium in
  strategy.

(** Short Call Butterfly. *)
Definition short_call_butterfly (lower_strike middle_strike upper_strike lower_premium middle_premium upper_premium : R) (market_params : option MarketParams)
  : OptionsStrategy :=
  let strategy := init "Short Call Butterfly" market_params in
  let strategy := add_option_leg strategy "call" "short" lower_strike lower_premium in
  let strategy := add_option_leg strategy "call" "long" middle_strike middle_premium in
  let strategy := add_option_leg strategy "call" "long" middle_strike middle_premium in
  let strategy := add_option_leg strategy "call" "short" upper_strike upper_premium in
  strategy.

(** Iron Butterfly. *)
Definition iron_butterfly (atm_strike lower_strike upper_strike atm_call_premium atm_put_premium lower_put_premium upper_call_premium : R) (market_params : option MarketParams)
  : OptionsStrategy :=
  let strategy := init "Iron Butterfly" market_params in
  let strategy := add_option_leg strategy "call" "short" atm_strike atm_call_premium in
  let strategy := add_option_leg strategy "put" "short" atm_strike atm_put_premium in
  let strategy := add_option_leg strategy "put" "long" lower_strike lower_put_premium in
  let strategy := add_option_leg strategy "call" "long" upper_strike upper_call_premium in
  strategy.

(** Iron Condor. *)
Definition iron_condor (put_lower put_upper call_lower call_upper put_lower_prem put_upper_prem call_lower_prem call_upper_prem : R) (market_params : option MarketParams)
  : OptionsStrategy :=
  let strategy := init "Iron Condor" market_params in
  let strategy := add_option_leg strategy "put" "long" put_lower put_lower_prem in
  let strategy := add_option_leg strategy "put" "short" put_upper put_upper_prem in
  let strategy := add_option_leg strategy "call" "short" call_lower call_lower_prem in
  let strategy := add_option_leg strategy "call" "long" call_upper call_upper_prem in
  strategy.

(** Long Call Condor. *)
Definition long_call_condor (s1 s2 s3 s4 p1 p2 p3 p4 : R) (market_params : option MarketParams)
  : OptionsStrategy :=
  let strategy := init "Long Call Condor" market_params in
  let strategy := add_option_leg strategy "call" "long" s1 p1 in
  let strategy := add_option_leg strategy "call" "short" s2 p2 in
  let strategy := add_option_leg strategy "call" "short" s3 p3 in
  let strategy := add_option_leg strategy "call" "long" s4 p4 in
  strategy.

(** Long Put Condor. *)
Definition long_put_condor (s1 s2 s3 s4 p1 p2 p3 p4 : R) (market_params : option MarketParams)
  : OptionsStrategy :=
  let strategy := init "Long Put Condor" market_params in
  let strategy := add_option_leg strategy "put" "long" s1 p1 in
  let strategy := add_option_leg strategy "put" "short" s2 p2 in
  let strategy := add_option_leg strategy "put" "short" s3 p3 in
  let strategy := add_option_leg strategy "put" "long" s4 p4 in
  strategy.

(** Call Ratio Spread - Long 1 lower + Short N upper. *)
Definition call_ratio_spread (lower_strike upper_strike lower_premium upper_premium : R) (ratio : Z) (market_params : option MarketParams)
  : OptionsStrategy :=
  let strategy := init ("Call Ratio Spread (1:" ++ NilZero.string_of_int (Z.to_int ratio) ++ ")")%string market_params in
  let strategy := add_option_leg strategy "call" "long" lower_strike lower_premium in
  let strategy := for_range ratio
      (fun strategy => add_option_leg strategy "call" "short" upper_strike upper_premium)
      strategy in
  strategy.

(** Put Ratio Spread - Long 1 upper + Short N lower. *)
Definition put_ratio_spread (lower_strike upper_strike lower_premium upper_premium : R) (ratio : Z) (market_params : option MarketParams)
  : OptionsStrategy :=
  let strategy := init ("Put Ratio Spread (1:" ++ NilZero.string_of_int (Z.to_int ratio) ++ ")")%string market_params in
  let strategy := add_option_leg strategy "put" "long" upper_strike upper_premium in
  let strategy := for_range ratio
      (fun strategy => add_option_leg strategy "put" "short" lower_strike lower_premium)
      strategy in
  strategy.

(** Call Ratio Backspread - Short 1 lower + Long N upper. *)
Definition call_ratio_backspread (lower_strike upper_strike lower_premium upper_premium : R) (ratio : Z) (market_params : option MarketParams)
  : OptionsStrategy :=
  let strategy := init ("Call Ratio Backspread (1:" ++ NilZero.string_of_int (Z.to_int ratio) ++ ")")%string market_params in
  let strategy := add_option_leg strategy "call" "short" lower_strike lower_premium in
  let strategy := for_range ratio
      (fun strategy => add_option_leg strategy "call" "long" upper_strike upper_premium)
      strategy in
  strategy.



(** Diagonal Call Spread. *)
Definition diagonal_call_spread (near_strike far_strike near_premium far_premium : R) (market_params : option MarketParams)
  : OptionsStrategy :=
  let strategy := init "Diagonal Call Spread" market_params in
  let strategy := add_option_leg strategy "call" "short" near_strike near_premium in
  let strategy := add_option_leg strategy "call" "long" far_strike far_premium in
  strategy.

(** Diagonal Put Spread. *)
Definition diagonal_put_spread (near_strike far_strike near_premium far_premium : R) (market_params : option MarketParams)
  : OptionsStrategy :=
  let strategy := init "Diagonal Put Spread" market_params in
  let strategy := add_option_leg strategy "put" "short" near_strike near_premium in
  let strategy := add_option_leg strategy "put" "long" far_strike far_premium in
  strategy.

(** Collar - Long stock + Long put + Short call. *)
Definition collar (stock_price put_strike call_strike put_premium call_premium : R) (market_params : option MarketParams)
  : OptionsStrategy :=
  let strategy := init "Collar" market_params in
  let strategy := add_stock_leg strategy "long" stock_price 100 in
  let strategy := add_option_leg strategy "put" "long" put_strike put_premium in
  let strategy := add_option_leg strategy "call" "short" call_strike call_premium in
  strategy.

(** Reverse Collar - Short stock + Short put + Long call. *)
Definition reverse_collar (stock_price put_strike call_strike put_premium call_premium : R) (market_params : option MarketParams)
  : OptionsStrategy :=
  let strategy := init "Reverse Collar" market_params in
  let strategy := add_stock_leg strategy "short" stock_price 100 in
  let strategy := add_option_leg strategy "put" "short" put_strike put_premium in
  let strategy := add_option_leg strategy "call" "long" call_strike call_premium in
  strategy.

(** Long Strip - 1 call + 2 puts (bearish straddle). *)
Definition long_strip (strike call_premium put_premium : R) (market_params : option MarketParams)
  : OptionsStrategy :=
  let strategy := init "Long Strip" market_params in
  let strategy := add_option_leg strategy "call" "long" strike call_premium in
  let strategy := add_option_leg strategy "put" "long" strike put_premium in
  let strategy := add_option_leg strategy "put" "long" strike put_premium in
  strategy.

(** Long Strap - 2 calls + 1 put (bullish straddle). *)
Definition long_strap (strike call_premium put_premium : R) (market_params : option MarketParams)
  : OptionsStrategy :=
  let strategy := init "Long Strap" market_params in
  let strategy := add_option_leg strategy "call" "long" strike call_premium in
  let strategy := add_option_leg strategy "call" "long" strike call_premium in
  let strategy := add_option_leg strategy "put" "long" strike put_premium in
  strategy.

(** Short Strip. *)
Definition short_strip (strike call_premium put_premium : R) (market_params : option MarketParams)
  : OptionsStrategy :=
  let strategy := init "Short Strip" market_params in
  let strategy := add_option_leg strategy "call" "short" strike call_premium in
  let strategy := add_option_leg strategy "put" "short" strike put_premium in
  let strategy := add_option_leg strategy "put" "short" strike put_premium in
  strategy.

(** Short Strap. *)
Definition short_strap (strike call_premium put_premium : R) (market_params : option MarketParams)
  : OptionsStrategy :=
  let strategy := init "Short Strap" market_params in
  let strategy := add_option_leg strategy "call" "short" strike call_premium in
  let strategy := add_option_leg strategy "call" "short" strike call_premium in
  let strategy := add_option_leg strategy "put" "short" strike put_premium in
  strategy.

(** Jade Lizard - Short put + Bear call spread. *)
Definition jade_lizard (put_strike call_lower call_upper put_prem call_lower_prem call_upper_prem : R) (market_params : option MarketParams)
  : OptionsStrategy :=
  let strategy := init "Jade Lizard" market_params in
  let strategy := add_option_leg strategy "put" "short" put_strike put_prem in
  let strategy := add_option_leg strategy "call" "short" call_lower call_lower_prem in
  let strategy := add_option_leg strategy "call" "long" call_upper call_upper_prem in
  strategy.

(** Seagull - Long stock + Long put + Bear call spread. *)
Definition seagull (stock_price put_strike call_lower call_upper put_prem call_lower_prem call_upper_prem : R) (market_params : option MarketParams)
  : OptionsStrategy :=
  let strategy := init "Seagull" market_params in
  let strategy := add_stock_leg strategy "long" stock_price 100 in
  let strategy := add_option_leg strategy "put" "long" put_strike put_prem in
  let strategy := add_option_leg strategy "call" "short" call_lower call_lower_prem in
  let strategy := add_option_leg strategy "call" "long" call_upper call_upper_prem in
  strategy.


(** Conversion - Long stock + Long put + Short call. *)
Definition conversion (stock_price strike call_prem put_prem : R) (market_params : option MarketParams)
  : OptionsStrategy :=
  let strategy := init "Conversion" market_params in
  let strategy := add_stock_leg strategy "long" stock_price 100 in
  let strategy := add_option_leg strategy "put" "long" strike put_prem in
  let strategy := add_option_leg strategy "call" "short" strike call_prem in
  strategy.

(** Reversal - Short stock + Short put + Long call. *)
Definition reversal (stock_price strike call_prem put_prem : R) (market_params : option MarketParams)
  : OptionsStrategy :=
  let strategy := init "Reversal" market_params in
  let strategy := add_stock_leg strategy "short" stock_price 100 in
  let strategy := add_option_leg strategy "put" "short" strike put_prem in
  let strategy := add_option_leg strategy "call" "long" strike call_prem in
  strategy.

(** Poor Man's Covered Call - Deep ITM LEAPS + Short OTM call. *)
Definition poor_mans_covered_call (deep_itm_strike otm_strike deep_itm_prem otm_prem : R) (market_params : option MarketParams)
  : OptionsStrategy :=
  let strategy := init "Poor Man's Covered Call" market_params in
  let strategy := add_option_leg strategy "call" "long" deep_itm_strike deep_itm_prem in
  let strategy := add_option_leg strategy "call" "short" otm_strike otm_prem in
  strategy.

(** Wheel Strategy - Put Phase (cash-secured put). *)
Definition wheel_put_phase (put_strike put_premium : R) (market_params : option MarketParams)
  : OptionsStrategy :=
  let strategy := init "Wheel Strategy (Put)" market_params in
  let strategy := add_option_leg strategy "put" "short" put_strike put_premium in
  strategy.

(** Wheel Strategy - Call Phase (covered call after assignment). *)
Definition wheel_call_phase (stock_price call_strike call_premium : R) (market_params : option MarketParams)
  : OptionsStrategy :=
  let strategy := init "Wheel Strategy (Call)" market_params in
  let strategy := add_stock_leg strategy "long" stock_price 100 in
  let strategy := add_option_leg strategy "call" "short" call_strike call_premium in
  strategy.

(** ZEBRA - Long 1 deep ITM call + Short 2 OTM calls. *)
Definition zebra_spread (deep_itm_strike otm_strike deep_itm_prem otm_prem : R) (market_params : option MarketParams)
  : OptionsStrategy :=
  let strategy := init "ZEBRA Spread" market_params in
  let strategy := add_option_leg strategy "call" "long" deep_itm_strike deep_itm_prem in
  let strategy := add_option_leg strategy "call" "short" otm_strike otm_prem in
  let strategy := add_option_leg strategy "call" "short" otm_strike otm_prem in
  strategy.

(** Call Ladder - Long 1 low + Short 1 mid + Short 1 high. *)
Definition call_ladder (s1 s2 s3 p1 p2 p3 : R) (market_params : option MarketParams)
  : OptionsStrategy :=
  let strategy := init "Call Ladder" market_params in
  let strategy := add_option_leg strategy "call" "long" s1 p1 in
  let strategy := add_option_leg strategy "call" "short" s2 p2 in
  let strategy := add_option_leg strategy "call" "short" s3 p3 in
  strategy.

(** Put Ladder - Long 1 high + Short 1 mid + Short 1 low. *)
Definition put_ladder (s1 s2 s3 p1 p2 p3 : R) (market_params : option MarketParams)
  : OptionsStrategy :=
  let strategy := init "Put Ladder" market_params in
  let strategy := add_option_leg strategy "put" "long" s3 p3 in
  let strategy := add_option_leg strategy "put" "short" s2 p2 in
  let strategy := add_option_leg strategy "put" "short" s1 p1 in
  strategy.

(** Synthetic Long Stock - Long call + Short put. *)
Definition synthetic_long (strike call_premium put_premium : R) (market_params : option MarketParams)
  : OptionsStrategy :=
  let strategy := init "Synthetic Long Stock" market_params in
  let strategy := add_option_leg strategy "call" "long" strike call_premium in
  let strategy := add_option_leg strategy "put" "short" strike put_premium in
  strategy.

(** Synthetic Short Stock - Short call + Long put. *)
Definition synthetic_short (strike call_premium put_premium : R) (market_params : option MarketParams)
  : OptionsStrategy :=
  let strategy := init "Synthetic Short Stock" market_params in
  let strategy := add_option_leg strategy "call" "short" strike call_premium in
  let strategy := add_option_leg strategy "put" "long" strike put_premium in
  strategy.

(* ================================================================== *)
(** * The analysis endpoint *)
(* ================================================================== *)

(** The risk/reward computation of [analyze_strategy] in [main.py], on the
    analysis that [analyze] returned. *)
Definition rr_ratio (analysis : Analysis.t) : result (option R) :=
  let rr_ratio := None in
  if Rltb (Analysis.max_loss_at_expiration analysis) 0
     && Rltb 0 (Analysis.max_profit_at_expiration analysis) then
    rr_ratio <- float_div (Analysis.max_profit_at_expiration analysis)
                  (Rabs (Analysis.max_loss_at_expiration analysis)) ;;
    Ok (Some rr_ratio)
  else Ok rr_ratio.

(** The value a computation returned; 0 stands for a raised exception. *)
Definition returned (m : result R) : R :=
  match m with
  | Ok v => v
  | Raise _ => 0
  end.

(* ================================================================== *)
(** * The area under the Gaussian bell *)
(* ================================================================== *)

Lemma gauss_area_0 : gauss_area 0 = 0.
Proof. apply integral_refl. Qed.

Lemma gauss_area_deriv x : derivable_pt_lim gauss_area x (gauss x).
Proof. apply integral_deriv. Qed.

Lemma gauss_area_incr a b : a <= b -> gauss_area a <= gauss_area b.
Proof.
  apply (deriv_nonneg_incr gauss_area gauss gauss_area_deriv).
  intro c. left. apply gauss_pos.
Qed.

Lemma gauss_area_strict a b : a < b -> gauss_area a < gauss_area b.
Proof.
  apply (deriv_pos_incr gauss_area gauss gauss_area_deriv gauss_pos).
Qed.

Lemma gauss_area_odd x : gauss_area (- x) = - gauss_area x.
Proof.
  assert (H : forall c, derivable_pt_lim
              (fun y => gauss_area y + gauss_area (- y)) c 0).
  { intro c.
    apply (derivable_pt_lim_value _ _ (gauss c + gauss (- c) * (-1)));
      [rewrite gauss_even; ring |].
    apply (derivable_pt_lim_plus gauss_area (comp gauss_area (- id)%F)).
    - apply gauss_area_deriv.
    - apply derivable_pt_lim_comp.
      + apply derivable_pt_lim_opp, derivable_pt_lim_id.
      + apply gauss_area_deriv. }
  pose proof (deriv_null_const _ H x 0) as E. cbv beta in E.
  replace (- 0) with 0 in E by ring. rewrite gauss_area_0 in E. lra.
Qed.

(** The area is bounded: the bell lies below [exp(1/2 - t)]. *)
Lemma gauss_area_bound x : gauss_area x <= exp (/ 2).
Proof.
  destruct (Rle_dec x 0) as [Hx | Hx].
  - apply Rle_trans with (gauss_area 0); [apply gauss_area_incr; exact Hx |].
    rewrite gauss_area_0. left. apply exp_pos.
  - assert (H : forall c, derivable_pt_lim
                (fun y => - exp (/ 2 - y) - gauss_area y) c
                (exp (/ 2 - c) - gauss c)).
    { intro c.
      apply (derivable_pt_lim_minus (fun y => - exp (/ 2 - y)) gauss_area);
        [| apply gauss_area_deriv].
      apply (derivable_pt_lim_value _ _ (- (exp (/ 2 - c) * (0 - 1)))); [ring |].
      apply (derivable_pt_lim_opp (comp exp (fct_cte (/ 2) - id)%F)).
      apply derivable_pt_lim_comp; [| apply derivable_pt_lim_exp].
      apply derivable_pt_lim_minus;
        [apply derivable_pt_lim_const | apply derivable_pt_lim_id]. }
    assert (Hpos : forall c, 0 <= exp (/ 2 - c) - gauss c).
    { intro c. unfold gauss.
      assert (Hc : - (c * c) / 2 <= / 2 - c)
        by (generalize (Rle_0_sqr (c - 1)); unfold Rsqr; lra).
      destruct Hc as [Hc | Hc].
      - apply exp_increasing in Hc. lra.
      - rewrite Hc. lra. }
    assert (H0 : 0 <= x) by lra.
    pose proof (deriv_nonneg_incr _ _ H Hpos 0 x H0) as E. cbv beta in E.
    rewrite gauss_area_0 in E.
    replace (/ 2 - 0) with (/ 2) in E by ring.
    pose proof (exp_pos (/ 2 - x)). lra.
Qed.

Definition gauss_partial (n : nat) : R := gauss_area (INR n).

Lemma gauss_partial_growing : Un_growing gauss_partial.
Proof.
  intro n. apply gauss_area_incr. rewrite S_INR. lra.
Qed.

Lemma gauss_partial_bounded : has_ub gauss_partial.
Proof.
  exists (exp (/ 2)). intros y [n ->]. apply gauss_area_bound.
Qed.

(** Half of the total mass of the bell: the limit of its area on [[0, n]]. *)
Definition gauss_half_mass : R :=
  proj1_sig (growing_cv gauss_partial gauss_partial_growing gauss_partial_bounded).

Lemma gauss_half_mass_cv : Un_cv gauss_partial gauss_half_mass.
Proof.
  unfold gauss_half_mass.
  destruct (growing_cv gauss_partial gauss_partial_growing gauss_partial_bounded).
  exact u.
Qed.

Lemma gauss_partial_le n : gauss_partial n <= gauss_half_mass.
Proof.
  apply growing_ineq; [apply gauss_partial_growing | apply gauss_half_mass_cv].
Qed.

Lemma gauss_area_le_half x : gauss_area x <= gauss_half_mass.
Proof.
  destruct (INR_unbounded x) as [n Hn].
  apply Rle_trans with (gauss_partial n); [| apply gauss_partial_le].
  apply gauss_area_incr. lra.
Qed.

Lemma gauss_half_mass_pos : 0 < gauss_half_mass.
Proof.
  apply Rlt_le_trans with (gauss_area 1); [| apply gauss_area_le_half].
  rewrite <- gauss_area_0. apply gauss_area_strict. lra.
Qed.

Lemma gauss_area_tail eps :
  0 < eps -> exists M, forall x, M <= x -> gauss_half_mass - eps < gauss_area x.
Proof.
  intro Heps.
  destruct (gauss_half_mass_cv eps Heps) as [N HN].
  exists (INR N). intros x Hx.
  specialize (HN N (Nat.le_refl N)).
  unfold Rdist in HN. apply Rabs_def2 in HN.
  apply Rlt_le_trans with (gauss_partial N); [lra |].
  apply gauss_area_incr. exact Hx.
Qed.

(* ================================================================== *)
(** * The Gaussian integral

    The total mass of the bell is [sqrt(2*pi)].  The classical argument:
    [gauss_area^2 / 2 + aux_int] is constant, where [aux_int x] is the
    integral over [[0,1]] of [exp(-x^2 (1+t^2) / 2) / (1+t^2)]; its value at
    0 is [atan 1] and [aux_int] vanishes at infinity. *)
(* ================================================================== *)

Lemma exp_quad_deriv (c x : R) :
  derivable_pt_lim (fun y => exp (c * (y * y))) x (2 * c * x * exp (c * (x * x))).
Proof.
  apply (derivable_pt_lim_value (comp exp (fun u => c * (u * u))) x
           (exp (c * (x * x)) * (c * (1 * x + x * 1)))); [ring |].
  apply derivable_pt_lim_comp; [| apply derivable_pt_lim_exp].
  apply (derivable_pt_lim_same _ (mult_real_fct c (id * id)%F));
    [intro y; reflexivity |].
  apply derivable_pt_lim_scal, derivable_pt_lim_mult; apply derivable_pt_lim_id.
Qed.

(** The integrand of the auxiliary function and its derivatives in [x]. *)
Definition bell2 (x t : R) : R := exp (- (1 + t * t) / 2 * (x * x)).
Definition aux (x t : R) : R := bell2 x t / (1 + t * t).
Definition aux' (x t : R) : R := - x * bell2 x t.
Definition aux'' (x t : R) : R := (x * x * (1 + t * t) - 1) * bell2 x t.

Lemma one_plus_sq_pos t : 0 < 1 + t * t.
Proof. nra. Qed.

Lemma bell2_pos x t : 0 < bell2 x t.
Proof. apply exp_pos. Qed.

Lemma bell2_deriv t x :
  derivable_pt_lim (fun y => bell2 y t) x (- x * (1 + t * t) * bell2 x t).
Proof.
  unfold bell2.
  apply (derivable_pt_lim_value _ _
           (2 * (- (1 + t * t) / 2) * x * exp (- (1 + t * t) / 2 * (x * x))));
    [field |].
  apply exp_quad_deriv.
Qed.

Lemma aux_deriv t x : derivable_pt_lim (fun y => aux y t) x (aux' x t).
Proof.
  pose proof (one_plus_sq_pos t).
  unfold aux, aux'.
  apply (derivable_pt_lim_value _ _ (/ (1 + t * t) * (- x * (1 + t * t) * bell2 x t)));
    [field; lra |].
  apply (derivable_pt_lim_same _ (mult_real_fct (/ (1 + t * t)) (fun y => bell2 y t)));
    [intro y; unfold mult_real_fct; field; lra |].
  apply derivable_pt_lim_scal, bell2_deriv.
Qed.

Lemma aux'_deriv t x : derivable_pt_lim (fun y => aux' y t) x (aux'' x t).
Proof.
  unfold aux', aux''.
  apply (derivable_pt_lim_value _ _
           (- 1 * bell2 x t + - x * (- x * (1 + t * t) * bell2 x t))); [ring |].
  apply (derivable_pt_lim_mult (- id)%F (fun y => bell2 y t)).
  - apply derivable_pt_lim_opp, derivable_pt_lim_id.
  - apply bell2_deriv.
Qed.

Lemma aux''_bound x t : Rabs (aux'' x t) <= 1.
Proof.
  unfold aux'', bell2.
  set (u := x * x * (1 + t * t)).
  assert (Hu : 0 <= u) by (unfold u; pose proof (one_plus_sq_pos t); nra).
  replace (- (1 + t * t) / 2 * (x * x)) with (- (u / 2)) by (unfold u; field).
  rewrite Rabs_mult, (Rabs_pos_eq (exp _)) by (left; apply exp_pos).
  assert (He : Rabs (u - 1) <= exp (u / 2)).
  { assert (H4 : 1 + u / 4 <= exp (u / 4)) by (apply exp_ineq1_le).
    assert (Hsq : exp (u / 2) = exp (u / 4) * exp (u / 4)).
    { rewrite <- exp_plus. f_equal. field. }
    assert (H1 : 0 <= 1 + u / 4) by lra.
    assert (H2 : (1 + u / 4) * (1 + u / 4) <= exp (u / 4) * exp (u / 4))
      by (apply Rmult_le_compat; assumption).
    assert (H3 : 0 <= (u - 8) * (u - 8)) by apply Rle_0_sqr.
    assert (H5 : 0 <= u * u) by apply Rle_0_sqr.
    rewrite Hsq. apply Rabs_le. split; lra. }
  rewrite exp_Ropp.
  apply Rmult_le_reg_r with (exp (u / 2)); [apply exp_pos |].
  rewrite Rmult_assoc, Rinv_l by (pose proof (exp_pos (u / 2)); lra). lra.
Qed.

Lemma aux'_lipschitz t x y : Rabs (aux' y t - aux' x t) <= Rabs (y - x).
Proof.
  assert (Hle : forall a b, a < b -> Rabs (aux' b t - aux' a t) <= Rabs (b - a)).
  { intros a b Hab.
    destruct (MVT_cor2 (fun z => aux' z t) (fun z => aux'' z t) a b Hab
                (fun c _ => aux'_deriv t c)) as [c [Hc _]].
    rewrite Hc, Rabs_mult. pose proof (aux''_bound c t). pose proof (Rabs_pos (b - a)).
    nra. }
  destruct (Rtotal_order x y) as [H | [-> | H]].
  - apply Hle. exact H.
  - replace (aux' y t - aux' y t) with 0 by ring. rewrite Rabs_R0. apply Rabs_pos.
  - rewrite (Rabs_minus_sym (aux' y t)), (Rabs_minus_sym y). apply Hle. exact H.
Qed.

(** First-order remainder of [aux] in [x], uniformly in [t]. *)
Lemma aux_remainder t x k :
  Rabs (aux (x + k) t - aux x t - k * aux' x t) <= k * k.
Proof.
  assert (Hd : forall c, derivable_pt_lim (fun y => aux y t - y * aux' x t) c
                 (aux' c t - aux' x t)).
  { intro c. apply (derivable_pt_lim_minus (fun y => aux y t) (fun y => y * aux' x t)).
    - apply aux_deriv.
    - apply (derivable_pt_lim_value _ _ (aux' x t * 1)); [ring |].
      apply (derivable_pt_lim_same _ (mult_real_fct (aux' x t) id));
        [intro y; unfold mult_real_fct, id; ring |].
      apply derivable_pt_lim_scal, derivable_pt_lim_id. }
  destruct (Rtotal_order k 0) as [Hk | [-> | Hk]].
  - destruct (MVT_cor2 _ _ (x + k) x ltac:(lra) (fun c _ => Hd c)) as [c [Hc Hin]].
    cbv beta in Hc.
    replace (aux (x + k) t - aux x t - k * aux' x t)
      with (- ((aux' c t - aux' x t) * (x - (x + k)))) by (rewrite <- Hc; ring).
    rewrite Rabs_Ropp, Rabs_mult.
    pose proof (aux'_lipschitz t x c) as HL.
    assert (Rabs (c - x) <= - k) by (apply Rabs_le; lra).
    assert (Rabs (x - (x + k)) = - k)
      by (replace (x - (x + k)) with (- k) by ring; apply Rabs_pos_eq; lra).
    pose proof (Rabs_pos (aux' c t - aux' x t)). nra.
  - replace (aux (x + 0) t - aux x t - 0 * aux' x t) with 0
      by (replace (x + 0) with x by ring; ring).
    rewrite Rabs_R0. lra.
  - destruct (MVT_cor2 _ _ x (x + k) ltac:(lra) (fun c _ => Hd c)) as [c [Hc Hin]].
    cbv beta in Hc.
    replace (aux (x + k) t - aux x t - k * aux' x t)
      with ((aux' c t - aux' x t) * (x + k - x)) by (rewrite <- Hc; ring).
    rewrite Rabs_mult.
    pose proof (aux'_lipschitz t x c) as HL.
    assert (Rabs (c - x) <= k) by (apply Rabs_le; lra).
    assert (Rabs (x + k - x) = k)
      by (replace (x + k - x) with k by ring; apply Rabs_pos_eq; lra).
    pose proof (Rabs_pos (aux' c t - aux' x t)). nra.
Qed.

Lemma bell2_split x t : bell2 x t = exp (- (x * x) / 2) * exp (- (x * x) / 2 * (t * t)).
Proof. unfold bell2. rewrite <- exp_plus. f_equal. field. Qed.

Lemma bell2_cont x : continuity (fun t => bell2 x t).
Proof.
  apply (continuity_of_deriv _
           (fun t => exp (- (x * x) / 2)
                     * (2 * (- (x * x) / 2) * t * exp (- (x * x) / 2 * (t * t))))).
  intro t.
  apply (derivable_pt_lim_same _
           (mult_real_fct (exp (- (x * x) / 2))
              (fun y => exp (- (x * x) / 2 * (y * y)))));
    [intro y; apply bell2_split |].
  apply derivable_pt_lim_scal, exp_quad_deriv.
Qed.

Lemma inv_one_plus_sq_cont : continuity (fun t => / (1 + t * t)).
Proof.
  intro t. apply (continuity_pt_inv (fun t => 1 + t * t)).
  - apply (continuity_of_deriv _ (fun t => 0 + (1 * t + t * 1))). intro y.
    apply (derivable_pt_lim_plus (fct_cte 1) (id * id)%F);
      [apply derivable_pt_lim_const |].
    apply derivable_pt_lim_mult; apply derivable_pt_lim_id.
  - pose proof (one_plus_sq_pos t). lra.
Qed.

Lemma aux_cont x : continuity (fun t => aux x t).
Proof.
  intro t. unfold aux.
  apply (continuity_pt_mult (fun t => bell2 x t) (fun t => / (1 + t * t)));
    [apply bell2_cont | apply inv_one_plus_sq_cont].
Qed.

Lemma aux'_cont x : continuity (fun t => aux' x t).
Proof.
  intro t. unfold aux'.
  apply (continuity_pt_mult (fun _ => - x) (fun t => bell2 x t));
    [apply continuity_pt_const; intros a b; reflexivity | apply bell2_cont].
Qed.

(** The auxiliary function [x |-> int_0^1 exp(-x^2(1+t^2)/2) / (1+t^2) dt]. *)
Definition aux_int (x : R) : R := integral (fun t => aux x t) (aux_cont x) 0 1.
Definition aux'_int (x : R) : R := integral (fun t => aux' x t) (aux'_cont x) 0 1.

Lemma remainder_cont x k :
  continuity (fun t => aux (x + k) t - aux x t - k * aux' x t).
Proof.
  intro t.
  apply (continuity_pt_minus (fun t => aux (x + k) t - aux x t) (fun t => k * aux' x t)).
  - apply (continuity_pt_minus (fun t => aux (x + k) t) (fun t => aux x t));
      apply aux_cont.
  - apply (continuity_pt_mult (fun _ => k) (fun t => aux' x t));
      [apply continuity_pt_const; intros a b; reflexivity | apply aux'_cont].
Qed.

Lemma remainder_integral x k :
  integral _ (remainder_cont x k) 0 1 = aux_int (x + k) - aux_int x - k * aux'_int x.
Proof.
  unfold aux_int, aux'_int, integral.
  assert (Hi1 : Riemann_integrable (fun t => aux (x + k) t + -1 * aux x t) 0 1).
  { apply RiemannInt_P10; apply cont_integrable; apply aux_cont. }
  assert (Hi2 : Riemann_integrable
                  (fun t => (aux (x + k) t + -1 * aux x t) + (- k) * aux' x t) 0 1).
  { apply RiemannInt_P10; [exact Hi1 | apply cont_integrable; apply aux'_cont]. }
  rewrite (RiemannInt_P18 (cont_integrable _ (remainder_cont x k) 0 1) Hi2)
    by (try lra; intros; ring).
  rewrite (RiemannInt_P13 Hi1 (cont_integrable _ (aux'_cont x) 0 1) Hi2).
  rewrite (RiemannInt_P13 (cont_integrable _ (aux_cont (x + k)) 0 1)
             (cont_integrable _ (aux_cont x) 0 1) Hi1).
  ring.
Qed.

Lemma remainder_bound x k :
  Rabs (aux_int (x + k) - aux_int x - k * aux'_int x) <= k * k.
Proof.
  rewrite <- remainder_integral.
  apply Rabs_le. split.
  - apply Rle_trans with (- (k * k) * (1 - 0)); [right; ring |].
    apply integral_ge_const; [lra |]. intros t _.
    pose proof (aux_remainder t x k) as H. apply Rabs_le_between in H. lra.
  - apply Rle_trans with (k * k * (1 - 0)); [| right; ring].
    apply integral_le_const; [lra |]. intros t _.
    pose proof (aux_remainder t x k) as H. apply Rabs_le_between in H. lra.
Qed.

(** Differentiation under the integral sign. *)
Lemma aux_int_deriv x : derivable_pt_lim aux_int x (aux'_int x).
Proof.
  intros eps Heps. exists (mkposreal eps Heps). cbn. intros k Hk Hlt.
  pose proof (remainder_bound x k) as H.
  replace ((aux_int (x + k) - aux_int x) / k - aux'_int x)
    with ((aux_int (x + k) - aux_int x - k * aux'_int x) / k) by (field; exact Hk).
  unfold Rdiv. rewrite Rabs_mult, Rabs_inv.
  apply Rmult_lt_reg_r with (Rabs k); [apply Rabs_pos_lt; exact Hk |].
  rewrite Rmult_assoc, Rinv_l by (apply Rabs_no_R0; exact Hk).
  assert (k * k = Rabs k * Rabs k).
  { rewrite <- Rabs_mult. symmetry. apply Rabs_pos_eq. apply Rle_0_sqr. }
  pose proof (Rabs_pos_lt k Hk). nra.
Qed.

Lemma aux'_int_value x : aux'_int x = - gauss x * gauss_area x.
Proof.
  unfold aux'_int.
  rewrite (integral_antiderivative _ _ (fun t => - gauss x * gauss_area (x * t))).
  - replace (x * 1) with x by ring. replace (x * 0) with 0 by ring.
    rewrite gauss_area_0. ring.
  - intro t.
    apply (derivable_pt_lim_value _ _ (- gauss x * (gauss (x * t) * x))).
    + unfold aux'. rewrite bell2_split. unfold gauss.
      replace (- (x * t * (x * t)) / 2) with (- (x * x) / 2 * (t * t)) by field.
      ring.
    + apply (derivable_pt_lim_scal (fun t => gauss_area (x * t))).
      apply (derivable_pt_lim_comp (fun t => x * t) gauss_area);
        [| apply gauss_area_deriv].
      apply (derivable_pt_lim_value _ _ (x * 1)); [ring |].
      apply (derivable_pt_lim_scal id), derivable_pt_lim_id.
Qed.

(** [gauss_area^2 / 2 + aux_int] is constant. *)
Lemma area_sq_plus_aux x : gauss_area x * gauss_area x / 2 + aux_int x = aux_int 0.
Proof.
  assert (H : forall c, derivable_pt_lim
                (fun y => gauss_area y * gauss_area y / 2 + aux_int y) c 0).
  { intro c.
    apply (derivable_pt_lim_value _ _
             (/ 2 * (gauss c * gauss_area c + gauss_area c * gauss c) + aux'_int c));
      [rewrite aux'_int_value; field |].
    apply (derivable_pt_lim_plus (fun y => gauss_area y * gauss_area y / 2) aux_int);
      [| apply aux_int_deriv].
    apply (derivable_pt_lim_same _ (mult_real_fct (/ 2) (gauss_area * gauss_area)%F));
      [intro y; unfold mult_real_fct, mult_fct; field |].
    apply derivable_pt_lim_scal, derivable_pt_lim_mult; apply gauss_area_deriv. }
  pose proof (deriv_null_const _ H x 0) as E. cbv beta in E.
  rewrite gauss_area_0 in E. lra.
Qed.

Lemma aux_int_0 : aux_int 0 = PI / 4.
Proof.
  unfold aux_int. rewrite (integral_antiderivative _ _ atan).
  - rewrite atan_1, atan_0. ring.
  - intro t. apply (derivable_pt_lim_value _ _ (/ (1 + t ^ 2)));
      [| apply derivable_pt_lim_atan].
    unfold aux, bell2. replace (- (1 + t * t) / 2 * (0 * 0)) with 0 by field.
    rewrite exp_0. field. pose proof (one_plus_sq_pos t). lra.
Qed.

Lemma aux_bounds x t : 0 <= aux x t <= gauss x.
Proof.
  pose proof (one_plus_sq_pos t) as Ht. pose proof (bell2_pos x t) as Hb.
  unfold aux. split.
  - apply Rmult_le_pos; [lra | left; apply Rinv_0_lt_compat; exact Ht].
  - assert (Hle : bell2 x t <= gauss x).
    { unfold bell2, gauss.
      assert (Hexp : - (1 + t * t) / 2 * (x * x) <= - (x * x) / 2)
        by (pose proof (Rle_0_sqr x); pose proof (Rle_0_sqr t); unfold Rsqr in *; nra).
      destruct Hexp as [Hlt | Heq]; [left; apply exp_increasing; exact Hlt |].
      rewrite Heq. lra. }
    apply Rle_trans with (bell2 x t); [| exact Hle].
    apply Rmult_le_reg_r with (1 + t * t); [exact Ht |].
    unfold Rdiv. rewrite Rmult_assoc, Rinv_l by lra. nra.
Qed.

Lemma aux_int_bounds x : 0 <= aux_int x <= gauss x.
Proof.
  unfold aux_int. split.
  - apply Rle_trans with (0 * (1 - 0)); [lra |].
    apply integral_ge_const; [lra |]. intros t _. apply aux_bounds.
  - apply Rle_trans with (gauss x * (1 - 0)); [| lra].
    apply integral_le_const; [lra |]. intros t _. apply aux_bounds.
Qed.

Lemma gauss_small x : 0 < x -> gauss x < 2 / (x * x).
Proof.
  intro Hx. unfold gauss.
  replace (- (x * x) / 2) with (- (x * x / 2)) by field. rewrite exp_Ropp.
  assert (Hxx : 0 < x * x) by nra.
  assert (He : 1 + x * x / 2 <= exp (x * x / 2)) by apply exp_ineq1_le.
  replace (2 / (x * x)) with (/ (x * x / 2)) by (field; lra).
  apply Rinv_lt_contravar; [| lra].
  apply Rmult_lt_0_compat; [lra | apply exp_pos].
Qed.

(** The Gaussian integral. *)
Lemma gauss_half_mass_sq : gauss_half_mass * gauss_half_mass = PI / 2.
Proof.
  apply Rle_antisym.
  - (* every partial area squared is below PI/2 *)
    apply Rnot_lt_le. intro Hgt.
    pose proof gauss_half_mass_pos as Hpos.
    set (l := gauss_half_mass) in *.
    assert (Hs : 0 < sqrt (PI / 2)) by (apply sqrt_lt_R0; pose proof PI_RGT_0; lra).
    assert (Hss : sqrt (PI / 2) * sqrt (PI / 2) = PI / 2)
      by (apply sqrt_sqrt; pose proof PI_RGT_0; lra).
    assert (Hl : sqrt (PI / 2) < l) by nra.
    destruct (gauss_area_tail (l - sqrt (PI / 2)) ltac:(lra)) as [M HM].
    specialize (HM M (Rle_refl M)). fold l in HM.
    pose proof (area_sq_plus_aux M) as E. rewrite aux_int_0 in E.
    pose proof (aux_int_bounds M) as [HG _]. nra.
  - apply Rnot_lt_le. intro Hlt.
    pose proof gauss_half_mass_pos as Hpos.
    set (l := gauss_half_mass) in *.
    set (d := PI / 2 - l * l) in *.
    assert (Hd : 0 < d) by (unfold d; lra).
    (* pick x large, where aux_int x < d / 2 *)
    set (x := 1 + 4 / d).
    assert (Hx : 1 <= x) by (unfold x; assert (0 < 4 / d) by (apply Rdiv_lt_0_compat; lra); lra).
    assert (Hxd : 4 / d < x) by (unfold x; lra).
    pose proof (gauss_small x ltac:(lra)) as Hg.
    pose proof (aux_int_bounds x) as [_ HG].
    pose proof (area_sq_plus_aux x) as E. rewrite aux_int_0 in E.
    pose proof (gauss_area_le_half x) as Hle. fold l in Hle.
    assert (H0 : 0 <= gauss_area x).
    { rewrite <- gauss_area_0. apply gauss_area_incr. lra. }
    assert (Hsmall : 2 / (x * x) <= d / 2).
    { apply Rmult_le_reg_r with (x * x); [nra |].
      unfold Rdiv at 1. rewrite Rmult_assoc, Rinv_l by nra.
      assert (4 <= d * x).
      { apply Rmult_lt_compat_l with (r := d) in Hxd; [| exact Hd].
        replace (d * (4 / d)) with 4 in Hxd by (field; lra). lra. }
      nra. }
    assert (gauss_area x * gauss_area x <= l * l) by nra.
    unfold d in *. lra.
Qed.

Lemma gauss_total_mass : 2 * gauss_half_mass = sqrt (2 * PI).
Proof.
  pose proof gauss_half_mass_pos as Hpos. pose proof PI_RGT_0 as Hpi.
  symmetry. apply sqrt_lem_1; [lra | lra |].
  pose proof gauss_half_mass_sq. nra.
Qed.

(* ================================================================== *)
(** * Properties of the normal distribution function *)
(* ================================================================== *)

(** Mass of the bell on [(-oo, x]]. *)
Definition gauss_mass (x : R) : R := gauss_half_mass + gauss_area x.

Lemma gauss_mass_nonneg x : 0 <= gauss_mass x.
Proof.
  unfold gauss_mass.
  pose proof (gauss_area_le_half (- x)) as H.
  rewrite gauss_area_odd in H. lra.
Qed.

Lemma gauss_mass_deriv x : derivable_pt_lim gauss_mass x (gauss x).
Proof.
  unfold gauss_mass.
  apply (derivable_pt_lim_value _ _ (0 + gauss x)); [ring |].
  apply (derivable_pt_lim_plus (fct_cte gauss_half_mass) gauss_area).
  - apply derivable_pt_lim_const.
  - apply gauss_area_deriv.
Qed.

Lemma gauss_mass_sym x : gauss_mass x + gauss_mass (- x) = 2 * gauss_half_mass.
Proof. unfold gauss_mass. rewrite gauss_area_odd. ring. Qed.

(** The mass of the left tail vanishes. *)
Lemma gauss_mass_vanish eps :
  0 < eps -> exists M, forall x, x <= M -> gauss_mass x < eps.
Proof.
  intro Heps. destruct (gauss_area_tail eps Heps) as [M HM].
  exists (- M). intros x Hx.
  assert (Hx' : M <= - x) by lra.
  specialize (HM _ Hx'). rewrite gauss_area_odd in HM.
  unfold gauss_mass. lra.
Qed.

(** The distribution function is the mass on [(-oo, x]] over the total
    mass. *)
Lemma norm_cdf_mass x : norm_cdf x = gauss_mass x / (2 * gauss_half_mass).
Proof.
  pose proof gauss_half_mass_pos.
  unfold norm_cdf, gauss_mass. rewrite <- gauss_total_mass. field. lra.
Qed.

Lemma norm_pdf_gauss x : norm_pdf x = gauss x / sqrt (2 * PI).
Proof. unfold norm_pdf, gauss. do 2 f_equal. field. Qed.

Lemma norm_cdf_sym x : norm_cdf x + norm_cdf (- x) = 1.
Proof.
  rewrite !norm_cdf_mass. pose proof gauss_half_mass_pos.
  rewrite <- Rdiv_plus_distr, gauss_mass_sym. field. lra.
Qed.

Lemma norm_cdf_nonneg x : 0 <= norm_cdf x.
Proof.
  rewrite norm_cdf_mass. pose proof gauss_half_mass_pos.
  apply Rmult_le_pos; [apply gauss_mass_nonneg |].
  left. apply Rinv_0_lt_compat. lra.
Qed.

Lemma norm_cdf_le_1 x : norm_cdf x <= 1.
Proof.
  pose proof (norm_cdf_sym x). pose proof (norm_cdf_nonneg (- x)). lra.
Qed.

Lemma norm_cdf_0 : norm_cdf 0 = / 2.
Proof.
  pose proof (norm_cdf_sym 0) as H. replace (- 0) with 0 in H by ring. lra.
Qed.

Lemma norm_cdf_deriv x :
  derivable_pt_lim norm_cdf x (gauss x / (2 * gauss_half_mass)).
Proof.
  pose proof gauss_half_mass_pos.
  apply (derivable_pt_lim_value _ _ (/ (2 * gauss_half_mass) * gauss x));
    [field; lra |].
  apply (derivable_pt_lim_local _
           (mult_real_fct (/ (2 * gauss_half_mass)) gauss_mass) _ _ 1);
    [lra | intros y _; rewrite norm_cdf_mass; unfold mult_real_fct; field; lra |].
  apply derivable_pt_lim_scal, gauss_mass_deriv.
Qed.

(** The density is the derivative of the distribution function. *)
Lemma norm_cdf_pdf x : derivable_pt_lim norm_cdf x (norm_pdf x).
Proof.
  apply (derivable_pt_lim_value _ _ (gauss x / (2 * gauss_half_mass)));
    [rewrite norm_pdf_gauss, gauss_total_mass; reflexivity | apply norm_cdf_deriv].
Qed.

Lemma norm_cdf_incr a b : a <= b -> norm_cdf a <= norm_cdf b.
Proof.
  apply (deriv_nonneg_incr norm_cdf _ norm_cdf_deriv).
  intro c. pose proof gauss_half_mass_pos. pose proof (gauss_pos c).
  apply Rmult_le_pos; [lra |]. left. apply Rinv_0_lt_compat. lra.
Qed.

(** ** The undiscounted forward value

    With [x] the log-moneyness of the forward and [v > 0] the total
    volatility, [exp x * Phi(x/v + v/2) - Phi(x/v - v/2)] is the call value
    in units of the discounted strike.  It increases with [x] and vanishes
    at [-oo], so it is never negative. *)
Section Forward.
Variable v : R.
Hypothesis v_pos : 0 < v.

Definition fwd_value (x : R) : R :=
  exp x * gauss_mass (x / v + v / 2) - gauss_mass (x / v - v / 2).

Lemma gauss_shift x : exp x * gauss (x / v + v / 2) = gauss (x / v - v / 2).
Proof.
  unfold gauss. rewrite <- exp_plus. f_equal. field. lra.
Qed.

Lemma affine_deriv (c x : R) : derivable_pt_lim (fun y => y / v + c) x (/ v).
Proof.
  apply (derivable_pt_lim_local _ (mult_real_fct (/ v) id + fct_cte c)%F _ _ 1);
    [lra | intros y _; unfold mult_real_fct, plus_fct, fct_cte, id; field; lra |].
  apply (derivable_pt_lim_value _ _ (/ v * 1 + 0)); [ring |].
  apply derivable_pt_lim_plus;
    [apply derivable_pt_lim_scal, derivable_pt_lim_id | apply derivable_pt_lim_const].
Qed.

Lemma fwd_value_deriv x :
  derivable_pt_lim fwd_value x (exp x * gauss_mass (x / v + v / 2)).
Proof.
  set (d1 := fun y : R => y / v + v / 2).
  set (d2 := fun y : R => y / v + - (v / 2)).
  apply (derivable_pt_lim_local _
           (exp * comp gauss_mass d1 - comp gauss_mass d2)%F _ _ 1);
    [lra | intros y _; unfold fwd_value, minus_fct, mult_fct, comp, d1, d2;
           f_equal |].
  apply (derivable_pt_lim_value _ _
           (exp x * comp gauss_mass d1 x + exp x * (gauss (d1 x) * / v)
            - gauss (d2 x) * / v)).
  - unfold comp, d1, d2.
    replace (x / v + - (v / 2)) with (x / v - v / 2) by ring.
    rewrite <- gauss_shift. ring.
  - apply derivable_pt_lim_minus.
    + apply derivable_pt_lim_mult; [apply derivable_pt_lim_exp |].
      apply derivable_pt_lim_comp; [apply affine_deriv | apply gauss_mass_deriv].
    + apply derivable_pt_lim_comp; [apply affine_deriv | apply gauss_mass_deriv].
Qed.

Lemma fwd_value_incr a b : a <= b -> fwd_value a <= fwd_value b.
Proof.
  apply (deriv_nonneg_incr fwd_value _ fwd_value_deriv).
  intro c. apply Rmult_le_pos; [left; apply exp_pos | apply gauss_mass_nonneg].
Qed.

Lemma fwd_value_nonneg x : 0 <= fwd_value x.
Proof.
  apply Rnot_lt_le. intro Hneg.
  destruct (gauss_mass_vanish (- fwd_value x)) as [M HM]; [lra |].
  set (y := Rmin x (v * (M + v / 2))).
  assert (Hy : y / v - v / 2 <= M).
  { assert (y <= v * (M + v / 2)) by apply Rmin_r.
    apply Rle_trans with ((v * (M + v / 2)) / v - v / 2).
    - apply Rplus_le_compat_r. unfold Rdiv.
      apply Rmult_le_compat_r; [left; apply Rinv_0_lt_compat; exact v_pos | exact H].
    - right. field. lra. }
  specialize (HM _ Hy).
  pose proof (fwd_value_incr y x (Rmin_l _ _)) as Hi.
  assert (0 <= exp y * gauss_mass (y / v + v / 2))
    by (apply Rmult_le_pos; [left; apply exp_pos | apply gauss_mass_nonneg]).
  unfold fwd_value in Hi at 1. lra.
Qed.

(** The same inequality on the distribution function. *)
Lemma fwd_cdf_nonneg x :
  0 <= exp x * norm_cdf (x / v + v / 2) - norm_cdf (x / v - v / 2).
Proof.
  pose proof gauss_half_mass_pos as Hm.
  pose proof (fwd_value_nonneg x) as Hf.
  rewrite !norm_cdf_mass.
  replace (exp x * (gauss_mass (x / v + v / 2) / (2 * gauss_half_mass))
           - gauss_mass (x / v - v / 2) / (2 * gauss_half_mass))
    with (fwd_value x * / (2 * gauss_half_mass))
    by (unfold fwd_value; field; lra).
  apply Rmult_le_pos; [exact Hf |]. left. apply Rinv_0_lt_compat. lra.
Qed.
End Forward.

(* ================================================================== *)
(** * The pricing engine *)
(* ================================================================== *)

Lemma Rleb_true x y : x <= y -> Rleb x y = true.
Proof. intro H. unfold Rleb. destruct (Rle_dec x y); [reflexivity | contradiction]. Qed.

Lemma Rleb_false x y : y < x -> Rleb x y = false.
Proof. intro H. unfold Rleb. destruct (Rle_dec x y); [lra | reflexivity]. Qed.

Lemma Rltb_true x y : x < y -> Rltb x y = true.
Proof. intro H. unfold Rltb. destruct (Rlt_dec x y); [reflexivity | contradiction]. Qed.

Lemma Rltb_false x y : y <= x -> Rltb x y = false.
Proof. intro H. unfold Rltb. destruct (Rlt_dec x y); [lra | reflexivity]. Qed.

Lemma float_div_ok a b : b <> 0 -> float_div a b = Ok (a / b).
Proof.
  intro H. unfold float_div. destruct (Req_dec_T b 0); [contradiction | reflexivity].
Qed.

Lemma d1_term_ok S K T r sigma q :
  K <> 0 ->
  BlackScholes.d1_term S K T r sigma q =
    Ok ((ln (S / K) + (r - q + 0.5 * sigma ^ 2) * T) / (sigma * sqrt T)).
Proof.
  intro H. unfold BlackScholes.d1_term. rewrite (float_div_ok _ _ H). reflexivity.
Qed.

(** C1. When [T <= 0] or [sigma <= 0], [call_price] returns exactly
    [max(S - K, 0)] and [put_price] exactly [max(K - S, 0)], the European
    intrinsic values. *)
Theorem degenerate_price_is_intrinsic (S K T r sigma q : R) :
  0 < S -> 0 < K -> T <= 0 \/ sigma <= 0 ->
  BlackScholes.call_price S K T r sigma q = Ok (Rmax (S - K) 0) /\
  BlackScholes.put_price S K T r sigma q = Ok (Rmax (K - S) 0).
Proof.
  intros _ _ Hdeg.
  assert (Hb : Rleb T 0 || Rleb sigma 0 = true).
  { destruct Hdeg as [H | H].
    - rewrite (Rleb_true _ _ H). reflexivity.
    - rewrite (Rleb_true _ _ H). apply orb_true_r. }
  unfold BlackScholes.call_price, BlackScholes.put_price.
  rewrite Hb. split; reflexivity.
Qed.

Lemma degenerate_price_is_intrinsic_witness :
  BlackScholes.call_price 100 90 0 0.05 0.25 0 = Ok (Rmax (100 - 90) 0) /\
  BlackScholes.put_price 100 90 0 0.05 0.25 0 = Ok (Rmax (90 - 100) 0).
Proof.
  apply (degenerate_price_is_intrinsic 100 90 0 0.05 0.25 0); [lra | lra | left; lra].
Defined.

(** C8. When [T <= 0], [delta] returns 1.0 for a call with [S > K] and 0.0
    in every other case, whatever the option kind: in particular 0.0 for
    every put, in or out of the money. *)
Theorem delta_at_expiry (S K T r sigma q : R) (option_type : string) :
  0 < S -> 0 < K -> T <= 0 ->
  (option_type = "call"%string /\ S > K ->
     BlackScholes.delta S K T r sigma option_type q = Ok 1) /\
  (~ (option_type = "call"%string /\ S > K) ->
     BlackScholes.delta S K T r sigma option_type q = Ok 0) /\
  (option_type = "put"%string ->
     BlackScholes.delta S K T r sigma option_type q = Ok 0).
Proof.
  intros _ _ HT. unfold BlackScholes.delta. rewrite (Rleb_true _ _ HT).
  replace 1.0 with 1 by lra. replace 0.0 with 0 by lra.
  repeat split.
  - intros [-> HSK]. rewrite (Rltb_true _ _ HSK). reflexivity.
  - intro Hn. destruct (Rlt_dec K S) as [HSK | HSK].
    + rewrite (Rltb_true _ _ HSK).
      destruct (String.eqb_spec option_type "call") as [-> | _]; [| reflexivity].
      exfalso. apply Hn. split; [reflexivity | exact HSK].
    + rewrite Rltb_false by lra. reflexivity.
  - intros ->. rewrite andb_false_r. reflexivity.
Qed.

Lemma delta_at_expiry_witness :
  BlackScholes.delta 120 100 0 0.05 0.25 "call" 0 = Ok 1 /\
  BlackScholes.delta 80 100 0 0.05 0.25 "put" 0 = Ok 0.
Proof.
  split.
  - apply (delta_at_expiry 120 100 0 0.05 0.25 0 "call"); [lra | lra | lra |].
    split; [reflexivity | lra].
  - apply (delta_at_expiry 80 100 0 0.05 0.25 0 "put"); [lra | lra | lra |].
    reflexivity.
Defined.

(** ** Put-call parity *)

Section Parity.
Variables S K T r sigma q : R.
Hypothesis S_pos : 0 < S.
Hypothesis K_pos : 0 < K.
Hypothesis T_pos : 0 < T.
Hypothesis sigma_pos : 0 < sigma.

(** Total volatility, log-moneyness of the forward, and the two
    discounted legs. *)
Let v := sigma * sqrt T.
Let x := ln (S / K) + (r - q) * T.
Let d1 := (ln (S / K) + (r - q + 0.5 * sigma ^ 2) * T) / (sigma * sqrt T).
Let d2 := d1 - sigma * sqrt T.

Lemma total_vol_pos : 0 < v.
Proof. apply Rmult_lt_0_compat; [exact sigma_pos | apply sqrt_lt_R0; exact T_pos]. Qed.

Lemma d1_forward : d1 = x / v + v / 2.
Proof.
  pose proof total_vol_pos as Hv.
  pose proof (sqrt_sqrt T (Rlt_le _ _ T_pos)) as Hsq.
  pose proof (sqrt_lt_R0 T T_pos) as Hs.
  unfold d1, x. fold v.
  assert (Hvv : v * v = sigma ^ 2 * T).
  { unfold v.
    replace (sigma * sqrt T * (sigma * sqrt T))
      with (sigma ^ 2 * (sqrt T * sqrt T)) by ring.
    rewrite Hsq. reflexivity. }
  replace ((r - q + 0.5 * sigma ^ 2) * T)
    with ((r - q) * T + v * v / 2)
    by (rewrite Hvv; replace 0.5 with (/ 2) by lra; field).
  field. lra.
Qed.

Lemma d2_forward : d2 = x / v - v / 2.
Proof. unfold d2. fold v. rewrite d1_forward. field. pose proof total_vol_pos. lra. Qed.

Lemma discounted_ratio : S * exp (- q * T) = K * exp (- r * T) * exp x.
Proof.
  unfold x. rewrite exp_plus, exp_ln by (apply Rdiv_lt_0_compat; assumption).
  replace (- q * T) with (- r * T + (r - q) * T) by ring.
  rewrite exp_plus. field. lra.
Qed.

Lemma discounted_ratio_inv : K * exp (- r * T) = S * exp (- q * T) * exp (- x).
Proof.
  rewrite discounted_ratio, Rmult_assoc, <- exp_plus.
  replace (x + - x) with 0 by ring. rewrite exp_0. ring.
Qed.

Lemma call_value_nonneg :
  0 <= S * exp (- q * T) * norm_cdf d1 - K * exp (- r * T) * norm_cdf d2.
Proof.
  rewrite discounted_ratio, d1_forward, d2_forward.
  pose proof (fwd_cdf_nonneg v total_vol_pos x) as H.
  assert (Hb : 0 < K * exp (- r * T))
    by (apply Rmult_lt_0_compat; [exact K_pos | apply exp_pos]).
  nra.
Qed.

Lemma put_value_nonneg :
  0 <= K * exp (- r * T) * norm_cdf (- d2) - S * exp (- q * T) * norm_cdf (- d1).
Proof.
  rewrite discounted_ratio_inv, d1_forward, d2_forward.
  pose proof (fwd_cdf_nonneg v total_vol_pos (- x)) as H.
  pose proof total_vol_pos as Hv.
  replace (- x / v + v / 2) with (- (x / v - v / 2)) in H by (field; lra).
  replace (- x / v - v / 2) with (- (x / v + v / 2)) in H by (field; lra).
  assert (Ha : 0 < S * exp (- q * T))
    by (apply Rmult_lt_0_compat; [exact S_pos | apply exp_pos]).
  nra.
Qed.

Lemma raw_parity :
  (S * exp (- q * T) * norm_cdf d1 - K * exp (- r * T) * norm_cdf d2)
  - (K * exp (- r * T) * norm_cdf (- d2) - S * exp (- q * T) * norm_cdf (- d1))
  = S * exp (- q * T) - K * exp (- r * T).
Proof.
  pose proof (norm_cdf_sym d1). pose proof (norm_cdf_sym d2). nra.
Qed.

(** C2. For [S, K, T, sigma > 0], both prices are returned, their
    difference is [S e^(-qT) - K e^(-rT)], and the floor at 0 leaves each
    Black-Scholes value unchanged because that value is non-negative. *)
Theorem put_call_parity :
  exists c p : R,
    BlackScholes.call_price S K T r sigma q = Ok c /\
    BlackScholes.put_price S K T r sigma q = Ok p /\
    c - p = S * exp (- q * T) - K * exp (- r * T) /\
    c = S * exp (- q * T) * norm_cdf d1 - K * exp (- r * T) * norm_cdf d2 /\
    p = K * exp (- r * T) * norm_cdf (- d2) - S * exp (- q * T) * norm_cdf (- d1) /\
    0 <= c /\ 0 <= p.
Proof.
  pose proof call_value_nonneg as Hc. pose proof put_value_nonneg as Hp.
  exists (S * exp (- q * T) * norm_cdf d1 - K * exp (- r * T) * norm_cdf d2),
    (K * exp (- r * T) * norm_cdf (- d2) - S * exp (- q * T) * norm_cdf (- d1)).
  unfold BlackScholes.call_price, BlackScholes.put_price.
  rewrite (Rleb_false _ _ T_pos), (Rleb_false _ _ sigma_pos).
  rewrite d1_term_ok by lra. cbn [orb bind]. fold d1. fold d2.
  rewrite !Rmax_left by lra.
  repeat split; try assumption. apply raw_parity.
Qed.
End Parity.

Lemma put_call_parity_witness :
  exists c p : R,
    BlackScholes.call_price 100 100 1 0.05 0.25 0 = Ok c /\
    BlackScholes.put_price 100 100 1 0.05 0.25 0 = Ok p /\
    c - p = 100 * exp (- 0 * 1) - 100 * exp (- (0.05) * 1).
Proof.
  destruct (put_call_parity 100 100 1 0.05 0.25 0) as [c [p [Hc [Hp [Hpar _]]]]];
    [lra | lra | lra | lra |].
  exists c, p. split; [exact Hc | split; [exact Hp | exact Hpar]].
Defined.

(* ================================================================== *)
(** * numpy arrays: grid, extrema, element-wise sums *)
(* ================================================================== *)

Lemma nth_map_lt {A B : Type} (f : A -> B) (l : list A) (i : nat) (d : B) (d' : A) :
  (i < List.length l)%nat -> nth i (map f l) d = f (nth i l d').
Proof.
  intro Hi. rewrite (nth_indep _ d (f d')) by (rewrite length_map; exact Hi).
  apply map_nth.
Qed.

Lemma np_linspace_unfold (start stop : R) (n : nat) :
  (0 < n)%nat ->
  np_linspace start stop (S n) =
    map (fun i => INR i * ((stop - start) / INR n) + start) (seq 0 n) ++ [stop].
Proof.
  intro Hn. unfold np_linspace.
  replace (1 <? S n)%nat with true by (symmetry; apply Nat.ltb_lt; lia).
  replace (S n - 1)%nat with n by lia.
  rewrite seq_S, map_app. cbn [map]. rewrite removelast_last. reflexivity.
Qed.

Lemma np_linspace_length (start stop : R) (n : nat) :
  (0 < n)%nat -> List.length (np_linspace start stop (S n)) = S n.
Proof.
  intro Hn.
  rewrite np_linspace_unfold, length_app, length_map, length_seq by exact Hn.
  cbn. lia.
Qed.

Lemma np_linspace_nth (start stop : R) (n i : nat) :
  (i < n)%nat ->
  nth i (np_linspace start stop (S n)) 0 = INR i * ((stop - start) / INR n) + start.
Proof.
  intro Hi. rewrite np_linspace_unfold by lia.
  rewrite app_nth1 by (rewrite length_map, length_seq; exact Hi).
  rewrite (nth_map_lt _ _ _ _ 0%nat) by (rewrite length_seq; exact Hi).
  rewrite seq_nth by exact Hi. reflexivity.
Qed.

Lemma np_linspace_last (start stop : R) (n : nat) :
  (0 < n)%nat -> nth n (np_linspace start stop (S n)) 0 = stop.
Proof.
  intro Hn. rewrite np_linspace_unfold by exact Hn.
  rewrite app_nth2 by (rewrite length_map, length_seq; lia).
  rewrite length_map, length_seq, Nat.sub_diag. reflexivity.
Qed.

(** Every sample, the overwritten last one included, sits on the line
    through [start] with slope [step]. *)
Lemma np_linspace_affine (start stop : R) (n i : nat) :
  (0 < n)%nat -> (i <= n)%nat ->
  nth i (np_linspace start stop (S n)) 0 = start + INR i * ((stop - start) / INR n).
Proof.
  intros Hn Hi.
  destruct (Nat.eq_dec i n) as [-> | Hne].
  - rewrite np_linspace_last by exact Hn. field. apply not_0_INR. lia.
  - rewrite np_linspace_nth by lia. ring.
Qed.

(** The maximum and the minimum of an array. *)
Definition is_maximum (a : list R) (m : R) : Prop :=
  In m a /\ forall x, In x a -> x <= m.

Definition is_minimum (a : list R) (m : R) : Prop :=
  In m a /\ forall x, In x a -> m <= x.

Lemma fold_Rmax_spec (a : list R) (x : R) :
  is_maximum (x :: a) (fold_left Rmax a x).
Proof.
  revert x. induction a as [| y a IH]; intro x; cbn [fold_left].
  - split; [left; reflexivity |]. intros z [<- | []]. lra.
  - destruct (IH (Rmax x y)) as [Hin Hub]. split.
    + destruct Hin as [Heq | Hin].
      * rewrite <- Heq. unfold Rmax. destruct (Rle_dec x y).
        -- right; left; reflexivity.
        -- left; reflexivity.
      * right; right; exact Hin.
    + intros z [<- | [<- | Hz]].
      * apply Rle_trans with (Rmax x y); [apply Rmax_l | apply Hub; left; reflexivity].
      * apply Rle_trans with (Rmax x y); [apply Rmax_r | apply Hub; left; reflexivity].
      * apply Hub. right. exact Hz.
Qed.

Lemma fold_Rmin_spec (a : list R) (x : R) :
  is_minimum (x :: a) (fold_left Rmin a x).
Proof.
  revert x. induction a as [| y a IH]; intro x; cbn [fold_left].
  - split; [left; reflexivity |]. intros z [<- | []]. lra.
  - destruct (IH (Rmin x y)) as [Hin Hlb]. split.
    + destruct Hin as [Heq | Hin].
      * rewrite <- Heq. unfold Rmin. destruct (Rle_dec x y).
        -- left; reflexivity.
        -- right; left; reflexivity.
      * right; right; exact Hin.
    + intros z [<- | [<- | Hz]].
      * apply Rle_trans with (Rmin x y); [apply Hlb; left; reflexivity | apply Rmin_l].
      * apply Rle_trans with (Rmin x y); [apply Hlb; left; reflexivity | apply Rmin_r].
      * apply Hlb. right. exact Hz.
Qed.

Lemma np_max_spec (a : list R) :
  a <> [] -> exists m, np_max a = Ok m /\ is_maximum a m.
Proof.
  destruct a as [| x a]; [congruence |]. intros _.
  exists (fold_left Rmax a x). split; [reflexivity | apply fold_Rmax_spec].
Qed.

Lemma np_min_spec (a : list R) :
  a <> [] -> exists m, np_min a = Ok m /\ is_minimum a m.
Proof.
  destruct a as [| x a]; [congruence |]. intros _.
  exists (fold_left Rmin a x). split; [reflexivity | apply fold_Rmin_spec].
Qed.

Lemma np_add_map {A : Type} (f g : A -> R) (l : list A) :
  np_add (map f l) (map g l) = map (fun x => f x + g x) l.
Proof.
  unfold np_add. induction l as [| x l IH]; [reflexivity |].
  cbn. f_equal. exact IH.
Qed.

(* ================================================================== *)
(** * Payoff at expiration, price by price *)
(* ================================================================== *)

(** The payoff of one candidate price: what the vectorised loops compute
    in each component. *)
Definition payoff_stock_point (s : R) (payoff : R) (leg : StockLeg.t) : R :=
  if String.eqb (StockLeg.position leg) "long" then
    payoff + (s - StockLeg.price leg) * IZR (StockLeg.quantity leg)
  else
    payoff + (StockLeg.price leg - s) * IZR (StockLeg.quantity leg).

Definition payoff_option_point (s : R) (payoff : R) (leg : OptionLeg.t) : R :=
  let intrinsic :=
    if String.eqb (OptionLeg.option_type leg) "call" then
      Rmax (s - OptionLeg.strike leg) 0
    else
      Rmax (OptionLeg.strike leg - s) 0 in
  if String.eqb (OptionLeg.position leg) "long" then
    payoff + (intrinsic - OptionLeg.premium leg) * 100
  else
    payoff + (OptionLeg.premium leg - intrinsic) * 100.

Definition payoff_point (self : OptionsStrategy) (s : R) : R :=
  fold_left (payoff_option_point s) (option_legs self)
    (fold_left (payoff_stock_point s) (stock_legs self) 0).

Lemma payoff_stock_loop (S_T : list R) (legs : list StockLeg.t) (f : R -> R) :
  fold_left (payoff_stock_step S_T) legs (map f S_T) =
    map (fun s => fold_left (payoff_stock_point s) legs (f s)) S_T.
Proof.
  revert f. induction legs as [| leg legs IH]; intro f; [reflexivity |].
  cbn [fold_left].
  replace (payoff_stock_step S_T (map f S_T) leg)
    with (map (fun s => payoff_stock_point s (f s) leg) S_T).
  - rewrite IH. reflexivity.
  - unfold payoff_stock_step, payoff_stock_point.
    destruct (String.eqb (StockLeg.position leg) "long");
      rewrite np_add_map; reflexivity.
Qed.

Lemma payoff_option_loop (S_T : list R) (legs : list OptionLeg.t) (f : R -> R) :
  fold_left (payoff_option_step S_T) legs (map f S_T) =
    map (fun s => fold_left (payoff_option_point s) legs (f s)) S_T.
Proof.
  revert f. induction legs as [| leg legs IH]; intro f; [reflexivity |].
  cbn [fold_left].
  replace (payoff_option_step S_T (map f S_T) leg)
    with (map (fun s => payoff_option_point s (f s) leg) S_T).
  - rewrite IH. reflexivity.
  - unfold payoff_option_step, payoff_option_point.
    destruct (String.eqb (OptionLeg.option_type leg) "call");
      destruct (String.eqb (OptionLeg.position leg) "long");
      rewrite map_map, np_add_map; reflexivity.
Qed.

Lemma payoff_at_expiration_map (self : OptionsStrategy) (S_T : list R) :
  payoff_at_expiration self S_T = map (payoff_point self) S_T.
Proof.
  unfold payoff_at_expiration, np_zeros_like, payoff_point.
  rewrite payoff_stock_loop, payoff_option_loop.
  apply map_ext. intro s. replace 0.0 with 0 by lra. reflexivity.
Qed.

Lemma payoff_at_expiration_length (self : OptionsStrategy) (S_T : list R) :
  List.length (payoff_at_expiration self S_T) = List.length S_T.
Proof. rewrite payoff_at_expiration_map. apply length_map. Qed.

Lemma payoff_at_expiration_nth (self : OptionsStrategy) (S_T : list R) (i : nat) :
  (i < List.length S_T)%nat ->
  nth i (payoff_at_expiration self S_T) 0 = payoff_point self (nth i S_T 0).
Proof.
  intro Hi. rewrite payoff_at_expiration_map. apply nth_map_lt. exact Hi.
Qed.

(* ================================================================== *)
(** * The loops of [current_pnl], [greeks] and [analyze] *)
(* ================================================================== *)

Lemma bind_ok {A B : Type} (m : result A) (k : A -> result B) (b : B) :
  bind m k = Ok b -> exists a, m = Ok a /\ k a = Ok b.
Proof.
  destruct m as [a | e]; cbn; [| discriminate].
  intro H. exists a. split; [reflexivity | exact H].
Qed.

Lemma for_each_returns {A B : Type} (body : B -> A -> result B) (l : list A) :
  Forall (fun x => forall acc, exists acc', body acc x = Ok acc') l ->
  forall acc, exists r, for_each body l acc = Ok r.
Proof.
  induction 1 as [| x l Hx _ IH]; intro acc; cbn [for_each].
  - exists acc. reflexivity.
  - destruct (Hx acc) as [acc' ->]. cbn [bind]. apply IH.
Qed.

(** Strikes that the float division [S/K] accepts. *)
Definition strikes_nonzero (self : OptionsStrategy) : Prop :=
  Forall (fun leg => OptionLeg.strike leg <> 0) (option_legs self).

Lemma call_price_returns S K T r sigma q :
  K <> 0 -> exists c, BlackScholes.call_price S K T r sigma q = Ok c.
Proof.
  intro HK. unfold BlackScholes.call_price.
  destruct (Rleb T 0 || Rleb sigma 0); [eexists; reflexivity |].
  rewrite d1_term_ok by exact HK. eexists; reflexivity.
Qed.

Lemma put_price_returns S K T r sigma q :
  K <> 0 -> exists p, BlackScholes.put_price S K T r sigma q = Ok p.
Proof.
  intro HK. unfold BlackScholes.put_price.
  destruct (Rleb T 0 || Rleb sigma 0); [eexists; reflexivity |].
  rewrite d1_term_ok by exact HK. eexists; reflexivity.
Qed.

Lemma delta_returns S K T r sigma ty q :
  K <> 0 -> exists d, BlackScholes.delta S K T r sigma ty q = Ok d.
Proof.
  intro HK. unfold BlackScholes.delta.
  destruct (Rleb T 0); [eexists; reflexivity |].
  rewrite d1_term_ok by exact HK. cbn [bind].
  destruct (String.eqb ty "call"); eexists; reflexivity.
Qed.

Lemma gamma_returns S K T r sigma q :
  K <> 0 -> exists g, BlackScholes.gamma S K T r sigma q = Ok g.
Proof.
  intro HK. unfold BlackScholes.gamma.
  destruct (Rleb T 0); [eexists; reflexivity |].
  rewrite d1_term_ok by exact HK. eexists; reflexivity.
Qed.

Lemma theta_returns S K T r sigma ty q :
  K <> 0 -> exists t, BlackScholes.theta S K T r sigma ty q = Ok t.
Proof.
  intro HK. unfold BlackScholes.theta.
  destruct (Rleb T 0); [eexists; reflexivity |].
  rewrite d1_term_ok by exact HK. cbn [bind].
  destruct (String.eqb ty "call"); eexists; reflexivity.
Qed.

Lemma vega_returns S K T r sigma q :
  K <> 0 -> exists v, BlackScholes.vega S K T r sigma q = Ok v.
Proof.
  intro HK. unfold BlackScholes.vega.
  destruct (Rleb T 0); [eexists; reflexivity |].
  rewrite d1_term_ok by exact HK. eexists; reflexivity.
Qed.

Lemma rho_returns S K T r sigma ty q :
  K <> 0 -> exists v, BlackScholes.rho S K T r sigma ty q = Ok v.
Proof.
  intro HK. unfold BlackScholes.rho.
  destruct (Rleb T 0); [eexists; reflexivity |].
  rewrite d1_term_ok by exact HK. cbn [bind].
  destruct (String.eqb ty "call"); eexists; reflexivity.
Qed.

Lemma current_pnl_returns (self : OptionsStrategy) (S : R) :
  strikes_nonzero self -> exists pnl, current_pnl self S = Ok pnl.
Proof.
  intro H. unfold current_pnl. apply for_each_returns.
  eapply Forall_impl; [| exact H]. intros leg HK acc. cbv beta in HK.
  unfold pnl_option_step.
  destruct (String.eqb (OptionLeg.option_type leg) "call").
  - destruct (call_price_returns S _ (IZR (days_to_expiration (market_params self)) / 365)
                (risk_free_rate (market_params self)) (volatility (market_params self))
                (dividend_yield (market_params self)) HK) as [c ->].
    cbn [bind]. destruct (String.eqb (OptionLeg.position leg) "long"); eexists; reflexivity.
  - destruct (put_price_returns S _ (IZR (days_to_expiration (market_params self)) / 365)
                (risk_free_rate (market_params self)) (volatility (market_params self))
                (dividend_yield (market_params self)) HK) as [c ->].
    cbn [bind]. destruct (String.eqb (OptionLeg.position leg) "long"); eexists; reflexivity.
Qed.

Lemma greeks_option_step_returns mp S T g leg :
  OptionLeg.strike leg <> 0 -> exists g', greeks_option_step mp S T g leg = Ok g'.
Proof.
  intro HK. unfold greeks_option_step.
  destruct (delta_returns S _ T (risk_free_rate mp) (volatility mp)
              (OptionLeg.option_type leg) (dividend_yield mp) HK) as [d ->].
  destruct (gamma_returns S _ T (risk_free_rate mp) (volatility mp)
              (dividend_yield mp) HK) as [gm ->].
  destruct (theta_returns S _ T (risk_free_rate mp) (volatility mp)
              (OptionLeg.option_type leg) (dividend_yield mp) HK) as [th ->].
  destruct (vega_returns S _ T (risk_free_rate mp) (volatility mp)
              (dividend_yield mp) HK) as [vg ->].
  destruct (rho_returns S _ T (risk_free_rate mp) (volatility mp)
              (OptionLeg.option_type leg) (dividend_yield mp) HK) as [rh ->].
  cbn [bind]. eexists; reflexivity.
Qed.

Lemma greeks_returns (self : OptionsStrategy) (S : R) :
  strikes_nonzero self -> exists g, greeks self S = Ok g.
Proof.
  intro H. unfold greeks. apply for_each_returns.
  eapply Forall_impl; [| exact H]. intros leg HK acc.
  apply greeks_option_step_returns. exact HK.
Qed.

(** The two tests of the break-even scan, and the interpolated price. *)
Definition crossing (payoffs : list R) (i : nat) : bool :=
  Rltb (nth i payoffs 0 * nth (i + 1) payoffs 0) 0.

Definition interpolate (S_range payoffs : list R) (i : nat) : R :=
  nth i S_range 0
  - nth i payoffs 0 * (nth (i + 1) S_range 0 - nth i S_range 0)
    / (nth (i + 1) payoffs 0 - nth i payoffs 0).


Lemma break_even_loop (S_range payoffs : list R) (l : list nat) (acc : list R) :
  fold_left (break_even_step S_range payoffs) l acc =
    acc ++ map (interpolate S_range payoffs) (filter (crossing payoffs) l).
Proof.
  revert acc. induction l as [| i l IH]; intro acc; cbn [fold_left filter].
  - cbn. rewrite app_nil_r. reflexivity.
  - rewrite IH. unfold break_even_step at 1. fold (crossing payoffs i).
    fold (interpolate S_range payoffs i).
    destruct (crossing payoffs i); [| reflexivity].
    cbn [map]. rewrite <- app_assoc. reflexivity.
Qed.

(** What [analyze] returns, field by field. *)
Lemma analyze_inv (self : OptionsStrategy) (S : R) (a : Analysis.t) :
  analyze self S = Ok a ->
  let S_range := np_linspace (S * 0.5) (S * 1.5) 500 in
  let payoffs := payoff_at_expiration self S_range in
  current_pnl self S = Ok (Analysis.current_pnl a) /\
  greeks self S = Ok (Analysis.greeks a) /\
  np_max payoffs = Ok (Analysis.max_profit_at_expiration a) /\
  np_min payoffs = Ok (Analysis.max_loss_at_expiration a) /\
  Analysis.break_even_at_expiration a =
    map (interpolate S_range payoffs) (filter (crossing payoffs) (seq 0 499)).
Proof.
  intros H S_range payoffs. unfold analyze in H.
  apply bind_ok in H. destruct H as [pnl [Hpnl H]].
  apply bind_ok in H. destruct H as [g [Hg H]].
  apply bind_ok in H. destruct H as [mp [Hmp H]].
  apply bind_ok in H. destruct H as [ml [Hml H]].
  injection H as <-. cbn [Analysis.current_pnl Analysis.greeks
    Analysis.max_profit_at_expiration Analysis.max_loss_at_expiration
    Analysis.break_even_at_expiration].
  repeat split; try assumption.
  rewrite break_even_loop. cbn [app]. fold S_range. fold payoffs.
  assert (Hlen : List.length payoffs = 500%nat).
  { unfold payoffs, S_range. rewrite payoff_at_expiration_length.
    apply (np_linspace_length _ _ 499). lia. }
  rewrite Hlen. reflexivity.
Qed.

Lemma grid_payoffs_nonempty (self : OptionsStrategy) (S : R) :
  payoff_at_expiration self (np_linspace (S * 0.5) (S * 1.5) 500) <> [].
Proof.
  intro H. apply (f_equal (@List.length R)) in H.
  rewrite payoff_at_expiration_length, (np_linspace_length _ _ 499) in H by lia.
  discriminate.
Qed.

Lemma analyze_returns (self : OptionsStrategy) (S : R) :
  strikes_nonzero self -> exists a, analyze self S = Ok a.
Proof.
  intro H. unfold analyze.
  destruct (current_pnl_returns self S H) as [pnl ->].
  destruct (greeks_returns self S H) as [g ->].
  destruct (np_max_spec _ (grid_payoffs_nonempty self S)) as [mp [-> _]].
  destruct (np_min_spec _ (grid_payoffs_nonempty self S)) as [ml [-> _]].
  cbn [bind]. eexists; reflexivity.
Qed.

(* ================================================================== *)
(** * The evaluation grid of [analyze] *)
(* ================================================================== *)

Lemma INR_literal (n : nat) : INR n = IZR (Z.of_nat n).
Proof. apply INR_IZR_INZ. Qed.

Lemma grid_length (S : R) :
  List.length (np_linspace (S * 0.5) (S * 1.5) 500) = 500%nat.
Proof. apply (np_linspace_length _ _ 499). lia. Qed.

Lemma grid_nth (S : R) (i : nat) :
  (i <= 499)%nat ->
  nth i (np_linspace (S * 0.5) (S * 1.5) 500) 0 = 0.5 * S + INR i * (S / 499).
Proof.
  intro Hi. rewrite (np_linspace_affine _ _ 499) by lia.
  replace (INR 499) with 499 by (rewrite INR_literal; reflexivity).
  replace (S * 1.5 - S * 0.5) with S by lra.
  lra.
Qed.

Lemma grid_first (S : R) : nth 0 (np_linspace (S * 0.5) (S * 1.5) 500) 0 = 0.5 * S.
Proof. rewrite grid_nth by lia. cbn [INR]. lra. Qed.

Lemma grid_last (S : R) : nth 499 (np_linspace (S * 0.5) (S * 1.5) 500) 0 = 1.5 * S.
Proof. rewrite (np_linspace_last _ _ 499) by lia. lra. Qed.

Lemma grid_step (S : R) (i : nat) :
  (i < 499)%nat ->
  nth (i + 1) (np_linspace (S * 0.5) (S * 1.5) 500) 0
  - nth i (np_linspace (S * 0.5) (S * 1.5) 500) 0 = S / 499.
Proof.
  intro Hi. rewrite !grid_nth by lia. rewrite plus_INR. cbn [INR]. lra.
Qed.

Lemma grid_payoff_nth (self : OptionsStrategy) (S : R) (i : nat) :
  (i < 500)%nat ->
  nth i (payoff_at_expiration self (np_linspace (S * 0.5) (S * 1.5) 500)) 0 =
    payoff_point self (nth i (np_linspace (S * 0.5) (S * 1.5) 500) 0).
Proof.
  intro Hi. apply payoff_at_expiration_nth. rewrite grid_length. exact Hi.
Qed.

(** C5. [analyze] evaluates the payoff on a grid of exactly 500 equally
    spaced prices running from [0.5 * S] to [1.5 * S], and reports as max
    profit and max loss the maximum and the minimum of the payoffs on that
    grid. *)
Theorem analyze_grid_extrema (self : OptionsStrategy) (S : R) :
  strikes_nonzero self ->
  exists a, analyze self S = Ok a /\
    let S_range := np_linspace (S * 0.5) (S * 1.5) 500 in
    let payoffs := payoff_at_expiration self S_range in
    List.length S_range = 500%nat /\
    nth 0 S_range 0 = 0.5 * S /\
    nth 499 S_range 0 = 1.5 * S /\
    (forall i, (i < 499)%nat -> nth (i + 1) S_range 0 - nth i S_range 0 = S / 499) /\
    List.length payoffs = 500%nat /\
    (forall i, (i < 500)%nat -> nth i payoffs 0 = payoff_point self (nth i S_range 0)) /\
    is_maximum payoffs (Analysis.max_profit_at_expiration a) /\
    is_minimum payoffs (Analysis.max_loss_at_expiration a).
Proof.
  intro Hk. destruct (analyze_returns self S Hk) as [a Ha].
  exists a. split; [exact Ha |].
  destruct (analyze_inv self S a Ha) as (_ & _ & Hmax & Hmin & _).
  intros S_range payoffs.
  split; [apply grid_length |].
  split; [apply grid_first |].
  split; [apply grid_last |].
  split; [apply grid_step |].
  split; [unfold payoffs; rewrite payoff_at_expiration_length; apply grid_length |].
  split; [apply grid_payoff_nth |].
  destruct (np_max_spec _ (grid_payoffs_nonempty self S)) as [m [Hm Hmspec]].
  destruct (np_min_spec _ (grid_payoffs_nonempty self S)) as [m' [Hm' Hmspec']].
  fold S_range in Hm, Hm', Hmspec, Hmspec', Hmax, Hmin.
  fold payoffs in Hm, Hm', Hmspec, Hmspec', Hmax, Hmin.
  rewrite Hmax in Hm. injection Hm as ->.
  rewrite Hmin in Hm'. injection Hm' as ->.
  split; assumption.
Qed.

(** A covered call: long 100 shares bought at 100, short one call struck
    at 105 for a premium of 2. *)
Definition covered_call_example : OptionsStrategy :=
  add_option_leg (add_stock_leg (init "Covered Call" None) "long" 100 100)
    "call" "short" 105 2.

Lemma covered_call_example_strikes : strikes_nonzero covered_call_example.
Proof. repeat constructor. cbn. lra. Qed.

Lemma analyze_grid_extrema_witness :
  exists a, analyze covered_call_example 100 = Ok a /\
    is_maximum
      (payoff_at_expiration covered_call_example (np_linspace (100 * 0.5) (100 * 1.5) 500))
      (Analysis.max_profit_at_expiration a) /\
    is_minimum
      (payoff_at_expiration covered_call_example (np_linspace (100 * 0.5) (100 * 1.5) 500))
      (Analysis.max_loss_at_expiration a).
Proof.
  destruct (analyze_grid_extrema covered_call_example 100 covered_call_example_strikes)
    as [a [Ha H]].
  exists a. split; [exact Ha |].
  destruct H as (_ & _ & _ & _ & _ & _ & Hmax & Hmin). split; assumption.
Defined.


(* ================================================================== *)
(** * The interpolation formula in exact arithmetic *)
(* ================================================================== *)


(* ================================================================== *)
(** * The break-even scan in double precision *)
(* ================================================================== *)

(** Which grid pairs the scan of [analyze] reports, and the prices it
    returns for them, depend on rounding: the payoffs are sums of rounded
    terms and the test is made on their rounded product.  This module
    embeds the part of the code that decides the break-evens
    ([np.linspace], [payoff_at_expiration] and the scan of [analyze]) on
    IEEE 754 binary64 numbers, the floats of Python and numpy. *)
Module Binary64.
Import Floats.
Local Open Scope float_scope.

(** A Python integer converted to a float, as numpy does when an array is
    multiplied by an integer: exact below [2^53], rounded to nearest
    above.  An integer of [2^1024] or more, which Python refuses to
    convert, is outside the model. *)
Definition float_of_int (n : Z) : float :=
  SF2Prim (binary_normalize prec emax n 0 false).

Record MarketParams : Type := mkMarketParams {
  risk_free_rate : float;
  volatility : float;
  dividend_yield : float;
  days_to_expiration : Z
}.

(** The dataclass defaults; the first one is the float nearest to 0.05. *)
Definition MarketParams_default : MarketParams :=
  mkMarketParams 0x1.999999999999ap-5 0.25 0.0 30.

Module OptionLeg.
Record t : Type := mk {
  option_type : string;
  position : string;
  strike : float;
  premium : float
}.
End OptionLeg.

Module StockLeg.
Record t : Type := mk {
  position : string;
  price : float;
  quantity : Z
}.
End StockLeg.

Record OptionsStrategy : Type := mkOptionsStrategy {
  name : string;
  option_legs : list OptionLeg.t;
  stock_legs : list StockLeg.t;
  market_params : MarketParams
}.

Definition init (name : string) (market_params : option MarketParams)
  : OptionsStrategy :=
  mkOptionsStrategy name [] []
    (match market_params with Some mp => mp | None => MarketParams_default end).

Definition add_option_leg (self : OptionsStrategy)
    (option_type position : string) (strike premium : float) : OptionsStrategy :=
  mkOptionsStrategy (name self)
    (option_legs self ++ [OptionLeg.mk option_type position strike premium])
    (stock_legs self) (market_params self).

Definition add_stock_leg (self : OptionsStrategy)
    (position : string) (price : float) (quantity : Z) : OptionsStrategy :=
  mkOptionsStrategy (name self) (option_legs self)
    (stock_legs self ++ [StockLeg.mk position price quantity])
    (market_params self).

(** Element-wise [a + b] of two arrays of one shape. *)
Definition np_add (a b : list float) : list float :=
  map (fun p => fst p + snd p) (combine a b).

Definition np_zeros_like (a : list float) : list float := map (fun _ => 0) a.

(** [np.maximum(a, b)] on one element: [a] when [a >= b] or [a] is NaN,
    else [b].  Of two zeros of opposite signs numpy may return either one;
    the payoff, a sum started at [0.0], and the scan give the same result
    for both. *)
Definition np_maximum (a b : float) : float :=
  if (b <=? a) || is_nan a then a else b.

(** [np.linspace(start, stop, num)] as numpy computes it: [arange(num)]
    times [step = (stop - start) / (num - 1)] plus [start]; when the step
    underflows to zero the samples are divided by [num - 1] first and then
    multiplied by [stop - start]; for [num > 1] the last sample is
    overwritten with [stop]. *)
Definition np_linspace (start stop : float) (num : nat) : list float :=
  let div := (Z.of_nat num - 1)%Z in
  let y := map (fun i => float_of_int (Z.of_nat i)) (seq 0 num) in
  let delta := stop - start in
  let y :=
    if (0 <? div)%Z then
      let step := delta / float_of_int div in
      if step =? 0 then map (fun v => v / float_of_int div * delta) y
      else map (fun v => v * step) y
    else map (fun v => v * delta) y in
  let y := map (fun v => v + start) y in
  if (1 <? num)%nat then removelast y ++ [stop] else y.

Definition payoff_stock_step (S_T : list float) (payoff : list float) (leg : StockLeg.t)
  : list float :=
  if String.eqb (StockLeg.position leg) "long" then
    np_add payoff
      (map (fun s => (s - StockLeg.price leg) * float_of_int (StockLeg.quantity leg)) S_T)
  else
    np_add payoff
      (map (fun s => (StockLeg.price leg - s) * float_of_int (StockLeg.quantity leg)) S_T).

Definition payoff_option_step (S_T : list float) (payoff : list float) (leg : OptionLeg.t)
  : list float :=
  let intrinsic :=
    if String.eqb (OptionLeg.option_type leg) "call" then
      map (fun s => np_maximum (s - OptionLeg.strike leg) 0) S_T
    else
      map (fun s => np_maximum (OptionLeg.strike leg - s) 0) S_T in
  if String.eqb (OptionLeg.position leg) "long" then
    np_add payoff (map (fun v => (v - OptionLeg.premium leg) * 100) intrinsic)
  else
    np_add payoff (map (fun v => (OptionLeg.premium leg - v) * 100) intrinsic).

Definition payoff_at_expiration (self : OptionsStrategy) (S_T : list float) : list float :=
  let payoff := np_zeros_like S_T in
  let payoff := fold_left (payoff_stock_step S_T) (stock_legs self) payoff in
  fold_left (payoff_option_step S_T) (option_legs self) payoff.

(** One iteration of the break-even loop of [analyze]. *)
Definition break_even_step (S_range payoffs : list float) (break_evens : list float)
    (i : nat) : list float :=
  if nth i payoffs 0 * nth (i + 1) payoffs 0 <? 0 then
    let be := nth i S_range 0
              - nth i payoffs 0 * (nth (i + 1) S_range 0 - nth i S_range 0)
                / (nth (i + 1) payoffs 0 - nth i payoffs 0) in
    break_evens ++ [be]
  else break_evens.

(** The list [break_evens] that [analyze] builds (lines 279-290) and
    returns under ['break_even_at_expiration']. *)
Definition break_evens (self : OptionsStrategy) (S : float) : list float :=
  let S_range := np_linspace (S * 0.5) (S * 1.5) 500 in
  let payoffs := payoff_at_expiration self S_range in
  fold_left (break_even_step S_range payoffs) (seq 0 (List.length payoffs - 1)) [].

(** The test of the scan, the interpolated price, and a strict change of
    sign between two payoffs. *)
Definition crossing (payoffs : list float) (i : nat) : bool :=
  nth i payoffs 0 * nth (i + 1) payoffs 0 <? 0.

Definition interpolate (S_range payoffs : list float) (i : nat) : float :=
  nth i S_range 0
  - nth i payoffs 0 * (nth (i + 1) S_range 0 - nth i S_range 0)
    / (nth (i + 1) payoffs 0 - nth i payoffs 0).

Definition strict_sign_change (a b : float) : bool :=
  ((a <? 0) && (0 <? b)) || ((0 <? a) && (b <? 0)).

(** The grid pairs that do not contain grid point [i]. *)
Definition away_from (i : nat) (j : nat) : bool :=
  negb (Nat.eqb j i) && negb (Nat.eqb (j + 1) i).

(** ** Signs of rounded products *)

(** Rounding keeps the sign it is given. *)
Lemma round_keeps_sign (s : bool) (m e : Z) (l : location) :
  binary_round_aux prec emax s m e l = S754_nan \/
  binary_round_aux prec emax s m e l = S754_zero s \/
  binary_round_aux prec emax s m e l = S754_infinity s \/
  exists m' e', binary_round_aux prec emax s m e l = S754_finite s m' e'.
Proof.
  unfold binary_round_aux.
  destruct (shr_fexp prec emax m e l) as [mrs e'].
  destruct (shr_fexp prec emax
              (round_nearest_even (shr_m mrs) (loc_of_shr_record mrs)) e' loc_Exact)
    as [mrs' e''].
  destruct (shr_m mrs') as [| p | p].
  - right; left; reflexivity.
  - destruct (Z.leb e'' (emax - prec)).
    + right; right; right. exists p, e''. reflexivity.
    + right; right; left. reflexivity.
  - left; reflexivity.
Qed.

Lemma zero_spec : Prim2SF 0 = S754_zero false.
Proof. reflexivity. Qed.

(** A product that compares below zero has factors of strictly opposite
    signs, neither of them a zero or a NaN. *)
Lemma negative_product_signs (a b : float) :
  (a * b <? 0) = true -> strict_sign_change a b = true.
Proof.
  unfold strict_sign_change. rewrite !ltb_spec, mul_spec, zero_spec.
  unfold SF64mul, SFmul.
  destruct (Prim2SF a) as [sa | sa | | sa ma ea];
    destruct (Prim2SF b) as [sb | sb | | sb mb eb].
  all: lazymatch goal with
       | |- context [binary_round_aux _ _ ?s ?m ?e ?l] =>
           destruct (round_keeps_sign s m e l) as [-> | [-> | [-> | [m' [e' ->]]]]]
       | _ => idtac
       end.
  all: try destruct sa; try destruct sb; cbn; intro H; try discriminate H;
    reflexivity.
Qed.

(** A zero factor never gives a product below zero. *)
Lemma zero_factor_product (a b : float) :
  (a =? 0) = true -> (a * b <? 0) = false /\ (b * a <? 0) = false.
Proof.
  rewrite FloatAxioms.eqb_spec, !ltb_spec, !mul_spec, zero_spec.
  unfold SF64mul, SFmul.
  destruct (Prim2SF a) as [sa | sa | | sa ma ea];
    destruct (Prim2SF b) as [sb | sb | | sb mb eb].
  all: try destruct sa; try destruct sb; cbn; intro H; try discriminate H;
    split; reflexivity.
Qed.

(** ** The arrays of the scan *)

Lemma np_add_length (a : list float) {A : Type} (f : A -> float) (l : list A) :
  List.length a = List.length l -> List.length (np_add a (map f l)) = List.length l.
Proof.
  intro H. unfold np_add. rewrite length_map, length_combine, length_map, H.
  apply Nat.min_id.
Qed.

Lemma payoff_stock_step_length (S_T payoff : list float) (leg : StockLeg.t) :
  List.length payoff = List.length S_T ->
  List.length (payoff_stock_step S_T payoff leg) = List.length S_T.
Proof.
  intro H. unfold payoff_stock_step.
  destruct (String.eqb (StockLeg.position leg) "long"); apply np_add_length; exact H.
Qed.

Lemma payoff_option_step_length (S_T payoff : list float) (leg : OptionLeg.t) :
  List.length payoff = List.length S_T ->
  List.length (payoff_option_step S_T payoff leg) = List.length S_T.
Proof.
  intro H. unfold payoff_option_step.
  destruct (String.eqb (OptionLeg.option_type leg) "call");
    destruct (String.eqb (OptionLeg.position leg) "long");
    rewrite np_add_length by (rewrite length_map; exact H); apply length_map.
Qed.

Lemma fold_left_length {A : Type} (step : list float -> A -> list float) (n : nat)
    (legs : list A) :
  (forall payoff leg, List.length payoff = n -> List.length (step payoff leg) = n) ->
  forall payoff, List.length payoff = n ->
  List.length (fold_left step legs payoff) = n.
Proof.
  intro Hstep. induction legs as [| leg legs IH]; intros payoff H; cbn [fold_left];
    [exact H |].
  apply IH, Hstep, H.
Qed.

Lemma payoff_keeps_length (self : OptionsStrategy) (S_T : list float) :
  List.length (payoff_at_expiration self S_T) = List.length S_T.
Proof.
  unfold payoff_at_expiration.
  apply fold_left_length; [apply payoff_option_step_length |].
  apply fold_left_length; [apply payoff_stock_step_length |].
  unfold np_zeros_like. apply length_map.
Qed.

Lemma removelast_length {A : Type} (l : list A) :
  List.length (removelast l) = (List.length l - 1)%nat.
Proof.
  rewrite removelast_firstn_len, length_firstn. lia.
Qed.

Lemma linspace_has_length (start stop : float) (num : nat) :
  List.length (np_linspace start stop num) = num.
Proof.
  unfold np_linspace.
  set (y0 := map (fun i => float_of_int (Z.of_nat i)) (seq 0 num)).
  assert (H0 : List.length y0 = num) by (unfold y0; rewrite length_map; apply length_seq).
  set (y1 := if (0 <? Z.of_nat num - 1)%Z then _ else _).
  assert (H1 : List.length y1 = num).
  { unfold y1. destruct (0 <? Z.of_nat num - 1)%Z; [| rewrite length_map; exact H0].
    destruct (_ =? 0); rewrite length_map; exact H0. }
  destruct (Nat.ltb_spec 1 num) as [Hn | Hn].
  - rewrite length_app, removelast_length, length_map, H1. cbn. lia.
  - rewrite length_map. exact H1.
Qed.

Lemma scan_is_filter (S_range payoffs : list float) (l : list nat) (acc : list float) :
  fold_left (break_even_step S_range payoffs) l acc =
    acc ++ map (interpolate S_range payoffs) (filter (crossing payoffs) l).
Proof.
  revert acc. induction l as [| i l IH]; intro acc; cbn [fold_left filter].
  - cbn. rewrite app_nil_r. reflexivity.
  - rewrite IH. unfold break_even_step at 1. fold (crossing payoffs i).
    fold (interpolate S_range payoffs i).
    destruct (crossing payoffs i); [| reflexivity].
    cbn [map]. rewrite <- app_assoc. reflexivity.
Qed.

Lemma break_evens_filter (self : OptionsStrategy) (S : float) :
  break_evens self S =
    map (interpolate (np_linspace (S * 0.5) (S * 1.5) 500)
           (payoff_at_expiration self (np_linspace (S * 0.5) (S * 1.5) 500)))
      (filter (crossing (payoff_at_expiration self (np_linspace (S * 0.5) (S * 1.5) 500)))
         (seq 0 499)).
Proof.
  unfold break_evens. cbv zeta.
  rewrite scan_is_filter, payoff_keeps_length, linspace_has_length.
  reflexivity.
Qed.

Lemma crossing_zero (payoffs : list float) (i j : nat) :
  (nth i payoffs 0 =? 0) = true -> j = i \/ (j + 1)%nat = i ->
  crossing payoffs j = false.
Proof.
  intros Hz [-> | <-]; unfold crossing.
  - apply (zero_factor_product _ (nth (i + 1) payoffs 0) Hz).
  - apply (zero_factor_product _ (nth j payoffs 0) Hz).
Qed.

Lemma filter_crossing_away (payoffs : list float) (i : nat) (l : list nat) :
  (nth i payoffs 0 =? 0) = true ->
  filter (crossing payoffs) l = filter (crossing payoffs) (filter (away_from i) l).
Proof.
  intro Hz. induction l as [| j l IH]; [reflexivity |].
  cbn [filter]. unfold away_from at 1.
  destruct (Nat.eqb_spec j i) as [Hji | Hji].
  - cbn [negb andb]. rewrite (crossing_zero payoffs i j Hz (or_introl Hji)). exact IH.
  - destruct (Nat.eqb_spec (j + 1) i) as [Hj1 | Hj1]; cbn [negb andb].
    + rewrite (crossing_zero payoffs i j Hz (or_intror Hj1)). exact IH.
    + cbn [filter]. rewrite IH. reflexivity.
Qed.

(** ** The three claims about the break-evens *)

(** C6. [analyze] reports, in grid order, one break-even for each
    consecutive grid pair whose computed product [payoff_i * payoff_(i+1)]
    is below zero, by the interpolation formula evaluated in double
    precision; the payoffs of such a pair are of strictly opposite signs. *)
Theorem break_evens_scan (self : OptionsStrategy) (S : float) :
  let S_range := np_linspace (S * 0.5) (S * 1.5) 500 in
  let payoffs := payoff_at_expiration self S_range in
  break_evens self S =
    map (fun i =>
           nth i S_range 0
           - nth i payoffs 0 * (nth (i + 1) S_range 0 - nth i S_range 0)
             / (nth (i + 1) payoffs 0 - nth i payoffs 0))
      (filter (fun i => nth i payoffs 0 * nth (i + 1) payoffs 0 <? 0) (seq 0 499)) /\
  (forall i : nat,
     (nth i payoffs 0 * nth (i + 1) payoffs 0 <? 0) = true ->
     strict_sign_change (nth i payoffs 0) (nth (i + 1) payoffs 0) = true).
Proof.
  cbv zeta. split.
  - apply break_evens_filter.
  - intros i H. apply negative_product_signs. exact H.
Qed.

(** One share bought at [2^-600], analysed at that spot: the payoffs at the
    grid points 249 and 250, on either side of the spot, are about
    [-2.4e-184] and [2.4e-184]. *)
Definition tiny_stock_example : OptionsStrategy :=
  add_stock_leg (init "Long Stock" None) "long" 0x1p-600 1.

(** The claim as first stated fails here: the two payoffs have strictly
    opposite signs, their product underflows to [-0.0], and no break-even
    is reported. *)
Lemma underflow_hides_sign_change :
  strict_sign_change
    (nth 249 (payoff_at_expiration tiny_stock_example
                (np_linspace (0x1p-600 * 0.5) (0x1p-600 * 1.5) 500)) 0)
    (nth 250 (payoff_at_expiration tiny_stock_example
                (np_linspace (0x1p-600 * 0.5) (0x1p-600 * 1.5) 500)) 0) = true /\
  break_evens tiny_stock_example 0x1p-600 = [].
Proof.
  split; vm_compute; reflexivity.
Qed.





(** C10. When the payoff computed at a grid point is exactly zero, neither
    of the grid pairs containing that point emits a break-even, since the
    scan asks for a strictly negative product of the two payoffs. *)
Theorem zero_payoff_pairs_skipped (self : OptionsStrategy) (S : float) (i : nat) :
  (nth i (payoff_at_expiration self (np_linspace (S * 0.5) (S * 1.5) 500)) 0 =? 0)
  = true ->
  let S_range := np_linspace (S * 0.5) (S * 1.5) 500 in
  let payoffs := payoff_at_expiration self S_range in
  (forall j : nat, j = i \/ (j + 1)%nat = i ->
     forall acc, break_even_step S_range payoffs acc j = acc) /\
  break_evens self S =
    map (interpolate S_range payoffs)
      (filter (crossing payoffs) (filter (away_from i) (seq 0 499))).
Proof.
  intros Hz S_range payoffs. fold S_range in Hz. fold payoffs in Hz. split.
  - intros j Hj acc. unfold break_even_step. fold (crossing payoffs j).
    rewrite (crossing_zero payoffs i j Hz Hj). reflexivity.
  - unfold payoffs, S_range. rewrite break_evens_filter. f_equal.
    apply filter_crossing_away. exact Hz.
Qed.

(** One share bought at 300.5, analysed at spot 499: grid price 51 is 300.5
    and the payoff there is exactly zero. *)
Definition flat_stock_example : OptionsStrategy :=
  add_stock_leg (init "Long Stock" None) "long" 300.5 1.

Lemma zero_payoff_pairs_skipped_witness :
  (forall j : nat, j = 51%nat \/ (j + 1)%nat = 51%nat ->
     forall acc,
       break_even_step (np_linspace (499 * 0.5) (499 * 1.5) 500)
         (payoff_at_expiration flat_stock_example
            (np_linspace (499 * 0.5) (499 * 1.5) 500)) acc j = acc) /\
  break_evens flat_stock_example 499 =
    map (interpolate (np_linspace (499 * 0.5) (499 * 1.5) 500)
           (payoff_at_expiration flat_stock_example
              (np_linspace (499 * 0.5) (499 * 1.5) 500)))
      (filter (crossing (payoff_at_expiration flat_stock_example
                           (np_linspace (499 * 0.5) (499 * 1.5) 500)))
         (filter (away_from 51) (seq 0 499))).
Proof.
  apply (zero_payoff_pairs_skipped flat_stock_example 499 51).
  vm_compute. reflexivity.
Defined.

(** A straddle struck at 300.5 bought for [1 + 3 * 2^-52] and [1 + 2^-52],
    with a far call sold for the sum of the two premiums, analysed at spot
    499: computed exactly the payoff at grid price 51, which is 300.5, is
    zero; in double precision it is about [-2.8e-14]. *)
Definition residue_example : OptionsStrategy :=
  add_option_leg
    (add_option_leg
       (add_option_leg (init "Straddle" None)
          "call" "long" 300.5 0x1.0000000000003p+0)
       "put" "long" 300.5 0x1.0000000000001p+0)
    "call" "short" 1000 (0x1.0000000000003p+0 + 0x1.0000000000001p+0).

(** The last part of the claim as first stated fails here: both pairs
    around grid price 51 emit a break-even, and both are that grid price. *)
Lemma break_even_on_grid_point :
  nth 51 (np_linspace (499 * 0.5) (499 * 1.5) 500) 0 = 300.5 /\
  break_evens residue_example 499 = [300.5; 300.5].
Proof.
  split; vm_compute; reflexivity.
Qed.

End Binary64.


(* ================================================================== *)
(** * Aggregated Greeks *)
(* ================================================================== *)

(** [+1] for a long leg, [-1] otherwise. *)
Definition leg_sign (position : string) : R :=
  if String.eqb position "long" then 1 else -1.

(** Signed share count of a stock leg. *)
Definition stock_delta (leg : StockLeg.t) : R :=
  if String.eqb (StockLeg.position leg) "long" then IZR (StockLeg.quantity leg)
  else - IZR (StockLeg.quantity leg).

(** [p] holds the five Greeks the pricing engine returns for [leg]. *)
Definition per_leg_greeks (mp : MarketParams) (S T : R) (leg : OptionLeg.t)
    (p : Greeks.t) : Prop :=
  BlackScholes.delta S (OptionLeg.strike leg) T (risk_free_rate mp) (volatility mp)
    (OptionLeg.option_type leg) (dividend_yield mp) = Ok (Greeks.delta p) /\
  BlackScholes.gamma S (OptionLeg.strike leg) T (risk_free_rate mp) (volatility mp)
    (dividend_yield mp) = Ok (Greeks.gamma p) /\
  BlackScholes.theta S (OptionLeg.strike leg) T (risk_free_rate mp) (volatility mp)
    (OptionLeg.option_type leg) (dividend_yield mp) = Ok (Greeks.theta p) /\
  BlackScholes.vega S (OptionLeg.strike leg) T (risk_free_rate mp) (volatility mp)
    (dividend_yield mp) = Ok (Greeks.vega p) /\
  BlackScholes.rho S (OptionLeg.strike leg) T (risk_free_rate mp) (volatility mp)
    (OptionLeg.option_type leg) (dividend_yield mp) = Ok (Greeks.rho p).

(** The contribution of the option legs to one Greek. *)
Definition option_sum (greek : Greeks.t -> R) (legs : list OptionLeg.t)
    (per_leg : list Greeks.t) : R :=
  Rsum (map (fun lp => leg_sign (OptionLeg.position (fst lp)) * greek (snd lp) * 100)
          (combine legs per_leg)).

Lemma greeks_stock_step_delta (g : Greeks.t) (leg : StockLeg.t) :
  greeks_stock_step g leg =
    Greeks.mk (Greeks.delta g + stock_delta leg)
      (Greeks.gamma g) (Greeks.theta g) (Greeks.vega g) (Greeks.rho g).
Proof.
  unfold greeks_stock_step, stock_delta.
  destruct (String.eqb (StockLeg.position leg) "long"); rewrite mult_IZR;
    f_equal; ring.
Qed.

Lemma greeks_stock_loop (legs : list StockLeg.t) (g : Greeks.t) :
  fold_left greeks_stock_step legs g =
    Greeks.mk (Greeks.delta g + Rsum (map stock_delta legs))
      (Greeks.gamma g) (Greeks.theta g) (Greeks.vega g) (Greeks.rho g).
Proof.
  revert g. induction legs as [| leg legs IH]; intro g.
  - destruct g. cbn. f_equal. ring.
  - cbn [fold_left]. rewrite IH, greeks_stock_step_delta.
    cbn [Greeks.delta Greeks.gamma Greeks.theta Greeks.vega Greeks.rho map].
    f_equal. unfold Rsum. cbn [fold_right]. ring.
Qed.

Lemma greeks_option_loop (mp : MarketParams) (S T : R) (legs : list OptionLeg.t) :
  forall g0 g, for_each (greeks_option_step mp S T) legs g0 = Ok g ->
  exists per_leg,
    Forall2 (per_leg_greeks mp S T) legs per_leg /\
    Greeks.delta g = Greeks.delta g0 + option_sum Greeks.delta legs per_leg /\
    Greeks.gamma g = Greeks.gamma g0 + option_sum Greeks.gamma legs per_leg /\
    Greeks.theta g = Greeks.theta g0 + option_sum Greeks.theta legs per_leg /\
    Greeks.vega g = Greeks.vega g0 + option_sum Greeks.vega legs per_leg /\
    Greeks.rho g = Greeks.rho g0 + option_sum Greeks.rho legs per_leg.
Proof.
  induction legs as [| leg legs IH]; intros g0 g H; cbn [for_each] in H.
  - injection H as <-. exists []. split; [constructor |].
    unfold option_sum. cbn. repeat split; ring.
  - apply bind_ok in H. destruct H as [g1 [Hstep Hrest]].
    unfold greeks_option_step in Hstep.
    apply bind_ok in Hstep. destruct Hstep as [d [Hd Hstep]].
    apply bind_ok in Hstep. destruct Hstep as [gm [Hgm Hstep]].
    apply bind_ok in Hstep. destruct Hstep as [th [Hth Hstep]].
    apply bind_ok in Hstep. destruct Hstep as [vg [Hvg Hstep]].
    apply bind_ok in Hstep. destruct Hstep as [rh [Hrh Hstep]].
    injection Hstep as <-.
    destruct (IH _ _ Hrest) as [per_leg (HF & H1 & H2 & H3 & H4 & H5)].
    exists (Greeks.mk d gm th vg rh :: per_leg).
    split; [constructor; [repeat split; assumption | exact HF] |].
    cbn [Greeks.delta Greeks.gamma Greeks.theta Greeks.vega Greeks.rho] in H1, H2, H3, H4, H5.
    rewrite H1, H2, H3, H4, H5.
    unfold option_sum, leg_sign, Rsum.
    cbn [combine map fold_right fst snd
         Greeks.delta Greeks.gamma Greeks.theta Greeks.vega Greeks.rho].
    destruct (String.eqb (OptionLeg.position leg) "long"); repeat split; ring.
Qed.

(** C7. The aggregated Greeks are the sums over the option legs of each
    per-leg Greek times [+1] (long) or [-1] (short) times 100, plus, for
    delta only, the signed quantities of the stock legs; the stock legs add
    nothing to gamma, theta, vega and rho. *)
Theorem aggregated_greeks (self : OptionsStrategy) (S : R) :
  strikes_nonzero self ->
  let mp := market_params self in
  let T := IZR (days_to_expiration mp) / 365 in
  exists g per_leg g_options,
    greeks self S = Ok g /\
    Forall2 (per_leg_greeks mp S T) (option_legs self) per_leg /\
    Greeks.delta g = option_sum Greeks.delta (option_legs self) per_leg
                     + Rsum (map stock_delta (stock_legs self)) /\
    Greeks.gamma g = option_sum Greeks.gamma (option_legs self) per_leg /\
    Greeks.theta g = option_sum Greeks.theta (option_legs self) per_leg /\
    Greeks.vega g = option_sum Greeks.vega (option_legs self) per_leg /\
    Greeks.rho g = option_sum Greeks.rho (option_legs self) per_leg /\
    greeks (mkOptionsStrategy (name self) (option_legs self) [] mp) S = Ok g_options /\
    Greeks.gamma g = Greeks.gamma g_options /\
    Greeks.theta g = Greeks.theta g_options /\
    Greeks.vega g = Greeks.vega g_options /\
    Greeks.rho g = Greeks.rho g_options.
Proof.
  intros Hk mp T.
  destruct (greeks_returns self S Hk) as [g Hg].
  assert (Hk0 : strikes_nonzero (mkOptionsStrategy (name self) (option_legs self) [] mp))
    by exact Hk.
  destruct (greeks_returns _ S Hk0) as [g0 Hg0].
  exists g. pose proof Hg as Hg'. pose proof Hg0 as Hg0'.
  unfold greeks in Hg', Hg0'. cbn [stock_legs option_legs market_params fold_left] in Hg0'.
  fold mp in Hg', Hg0'. fold T in Hg', Hg0'.
  rewrite greeks_stock_loop in Hg'.
  apply greeks_option_loop in Hg'. destruct Hg' as [per_leg (HF & H1 & H2 & H3 & H4 & H5)].
  apply greeks_option_loop in Hg0'.
  destruct Hg0' as [per_leg0 (HF0 & _ & H2' & H3' & H4' & H5')].
  assert (per_leg0 = per_leg) as ->.
  { clear - HF HF0. revert per_leg0 HF0.
    induction HF as [| leg p legs ps Hp _ IH]; intros per_leg0 HF0;
      inversion HF0 as [| leg' p0 legs' ps0 Hp0 HF0' E1 E2]; subst; [reflexivity |].
    f_equal; [| apply IH; exact HF0'].
    destruct Hp as (A1 & A2 & A3 & A4 & A5). destruct Hp0 as (B1 & B2 & B3 & B4 & B5).
    rewrite A1 in B1. rewrite A2 in B2. rewrite A3 in B3. rewrite A4 in B4.
    rewrite A5 in B5. destruct p, p0. cbn in *. congruence. }
  exists per_leg, g0.
  cbn [Greeks.delta Greeks.gamma Greeks.theta Greeks.vega Greeks.rho] in *.
  repeat split; try assumption; try lra.
Qed.

Lemma aggregated_greeks_witness :
  exists g per_leg,
    greeks covered_call_example 100 = Ok g /\
    Greeks.delta g = option_sum Greeks.delta (option_legs covered_call_example) per_leg
                     + Rsum (map stock_delta (stock_legs covered_call_example)) /\
    Greeks.gamma g = option_sum Greeks.gamma (option_legs covered_call_example) per_leg.
Proof.
  destruct (aggregated_greeks covered_call_example 100 covered_call_example_strikes)
    as [g [per_leg [g0 (Hg & _ & H1 & H2 & _)]]].
  exists g, per_leg. split; [exact Hg |]. split; assumption.
Defined.

(* ================================================================== *)
(** * Leg addition and parameter validation *)
(* ================================================================== *)

(** C3 (amended). Constructing market parameters and adding a leg validate
    nothing: [add_option_leg] and [add_stock_leg] append exactly the leg
    they are given, whatever its strike or price, and leave the rest of the
    strategy unchanged; [MarketParams] stores the values it is given. *)
Theorem legs_appended_unvalidated (self : OptionsStrategy)
    (option_type position : string) (strike premium price : R) (quantity : Z)
    (r sigma q : R) (days : Z) :
  option_legs (add_option_leg self option_type position strike premium) =
    option_legs self ++ [OptionLeg.mk option_type position strike premium] /\
  stock_legs (add_option_leg self option_type position strike premium) =
    stock_legs self /\
  stock_legs (add_stock_leg self position price quantity) =
    stock_legs self ++ [StockLeg.mk position price quantity] /\
  option_legs (add_stock_leg self position price quantity) = option_legs self /\
  volatility (mkMarketParams r sigma q days) = sigma /\
  market_params (init (name self) (Some (mkMarketParams r sigma q days))) =
    mkMarketParams r sigma q days.
Proof. repeat split. Qed.

(** A strategy built from invalid parameters: negative volatility, a call
    with strike -5 and a stock leg with price 0. *)
Definition invalid_example : OptionsStrategy :=
  add_stock_leg
    (add_option_leg (init "Invalid" (Some (mkMarketParams 0.05 (-1) 0 30)))
       "call" "long" (-5) 1)
    "long" 0 100.

(** C3 fails as stated: the invalid parameters are accepted, the legs are
    appended, and the later analysis signals no error either. *)
Lemma invalid_parameters_accepted :
  volatility (market_params invalid_example) < 0 /\
  (exists leg, In leg (option_legs invalid_example) /\ OptionLeg.strike leg <= 0) /\
  (exists leg, In leg (stock_legs invalid_example) /\ StockLeg.price leg <= 0) /\
  ~ raises (analyze invalid_example 100).
Proof.
  split; [cbn; lra |].
  split; [exists (OptionLeg.mk "call" "long" (-5) 1); split; [left; reflexivity | cbn; lra] |].
  split; [exists (StockLeg.mk "long" 0 100); split; [left; reflexivity | cbn; lra] |].
  intros [e He].
  assert (Hk : strikes_nonzero invalid_example) by (repeat constructor; cbn; lra).
  destruct (analyze_returns invalid_example 100 Hk) as [a Ha].
  rewrite Ha in He. discriminate.
Qed.

(* ================================================================== *)
(** * Unrecognised kind and position tags *)
(* ================================================================== *)

(** How the branches of the source read a tag: anything but 'call' is a
    put, anything but 'long' is short. *)
Definition as_kind (option_type : string) : string :=
  if String.eqb option_type "call" then "call" else "put".

Definition as_position (position : string) : string :=
  if String.eqb position "long" then "long" else "short".

Definition normalize_option_leg (leg : OptionLeg.t) : OptionLeg.t :=
  OptionLeg.mk (as_kind (OptionLeg.option_type leg))
    (as_position (OptionLeg.position leg))
    (OptionLeg.strike leg) (OptionLeg.premium leg).

Definition normalize_stock_leg (leg : StockLeg.t) : StockLeg.t :=
  StockLeg.mk (as_position (StockLeg.position leg))
    (StockLeg.price leg) (StockLeg.quantity leg).

Definition normalize (self : OptionsStrategy) : OptionsStrategy :=
  mkOptionsStrategy (name self)
    (map normalize_option_leg (option_legs self))
    (map normalize_stock_leg (stock_legs self))
    (market_params self).

Lemma as_kind_call (ty : string) :
  String.eqb (as_kind ty) "call" = String.eqb ty "call".
Proof. unfold as_kind. destruct (String.eqb ty "call") eqn:E; reflexivity. Qed.

Lemma as_position_long (pos : string) :
  String.eqb (as_position pos) "long" = String.eqb pos "long".
Proof. unfold as_position. destruct (String.eqb pos "long") eqn:E; reflexivity. Qed.

Lemma fold_left_map_same {A B : Type} (f : B -> A -> B) (n : A -> A) (l : list A) :
  (forall acc x, f acc (n x) = f acc x) ->
  forall acc, fold_left f (map n l) acc = fold_left f l acc.
Proof.
  intro H. induction l as [| x l IH]; intro acc; [reflexivity |].
  cbn [map fold_left]. rewrite H. apply IH.
Qed.

Lemma for_each_map_same {A B : Type} (f : B -> A -> result B) (n : A -> A)
    (l : list A) :
  (forall acc x, f acc (n x) = f acc x) ->
  forall acc, for_each f (map n l) acc = for_each f l acc.
Proof.
  intro H. induction l as [| x l IH]; intro acc; [reflexivity |].
  cbn [map for_each]. rewrite H. destruct (f acc x); [apply IH | reflexivity].
Qed.

Lemma delta_as_kind S K T r sigma ty q :
  BlackScholes.delta S K T r sigma (as_kind ty) q = BlackScholes.delta S K T r sigma ty q.
Proof. unfold BlackScholes.delta. rewrite as_kind_call. reflexivity. Qed.

Lemma theta_as_kind S K T r sigma ty q :
  BlackScholes.theta S K T r sigma (as_kind ty) q = BlackScholes.theta S K T r sigma ty q.
Proof. unfold BlackScholes.theta. rewrite as_kind_call. reflexivity. Qed.

Lemma rho_as_kind S K T r sigma ty q :
  BlackScholes.rho S K T r sigma (as_kind ty) q = BlackScholes.rho S K T r sigma ty q.
Proof. unfold BlackScholes.rho. rewrite as_kind_call. reflexivity. Qed.

Lemma payoff_at_expiration_normalize (self : OptionsStrategy) (S_T : list R) :
  payoff_at_expiration (normalize self) S_T = payoff_at_expiration self S_T.
Proof.
  unfold payoff_at_expiration, normalize. cbn [stock_legs option_legs].
  rewrite (fold_left_map_same (payoff_stock_step S_T)).
  - apply fold_left_map_same. intros acc leg.
    unfold payoff_option_step, normalize_option_leg.
    cbn [OptionLeg.option_type OptionLeg.position OptionLeg.strike OptionLeg.premium].
    rewrite as_kind_call, as_position_long. reflexivity.
  - intros acc leg. unfold payoff_stock_step, normalize_stock_leg.
    cbn [StockLeg.position StockLeg.price StockLeg.quantity].
    rewrite as_position_long. reflexivity.
Qed.

Lemma current_pnl_normalize (self : OptionsStrategy) (S : R) :
  current_pnl (normalize self) S = current_pnl self S.
Proof.
  unfold current_pnl, normalize. cbn [stock_legs option_legs market_params].
  rewrite (fold_left_map_same (pnl_stock_step S)).
  - apply for_each_map_same. intros acc leg.
    unfold pnl_option_step, normalize_option_leg.
    cbn [OptionLeg.option_type OptionLeg.position OptionLeg.strike OptionLeg.premium].
    rewrite as_kind_call, as_position_long. reflexivity.
  - intros acc leg. unfold pnl_stock_step, normalize_stock_leg.
    cbn [StockLeg.position StockLeg.price StockLeg.quantity].
    rewrite as_position_long. reflexivity.
Qed.

Lemma greeks_normalize (self : OptionsStrategy) (S : R) :
  greeks (normalize self) S = greeks self S.
Proof.
  unfold greeks, normalize. cbn [stock_legs option_legs market_params].
  rewrite (fold_left_map_same greeks_stock_step).
  - apply for_each_map_same. intros acc leg.
    unfold greeks_option_step, normalize_option_leg.
    cbn [OptionLeg.option_type OptionLeg.position OptionLeg.strike OptionLeg.premium].
    rewrite delta_as_kind, theta_as_kind, rho_as_kind, as_position_long. reflexivity.
  - intros acc leg. unfold greeks_stock_step, normalize_stock_leg.
    cbn [StockLeg.position StockLeg.price StockLeg.quantity].
    rewrite as_position_long. reflexivity.
Qed.

(** C4 (amended). A kind tag other than 'call' is priced as a put and a
    position tag other than 'long' as short: [delta], [payoff_at_expiration],
    [current_pnl], [greeks] and [analyze] give the very result, error or
    value, that they give once every tag is replaced that way, so no error
    is signalled on account of an unrecognised tag. *)
Theorem unrecognised_tags_default (self : OptionsStrategy) (S : R) (S_T : list R)
    (K T r sigma q : R) (option_type : string) :
  BlackScholes.delta S K T r sigma option_type q =
    BlackScholes.delta S K T r sigma (as_kind option_type) q /\
  payoff_at_expiration self S_T = payoff_at_expiration (normalize self) S_T /\
  current_pnl self S = current_pnl (normalize self) S /\
  greeks self S = greeks (normalize self) S /\
  analyze self S = analyze (normalize self) S.
Proof.
  split; [symmetry; apply delta_as_kind |].
  split; [symmetry; apply payoff_at_expiration_normalize |].
  split; [symmetry; apply current_pnl_normalize |].
  split; [symmetry; apply greeks_normalize |].
  unfold analyze.
  rewrite current_pnl_normalize, greeks_normalize, payoff_at_expiration_normalize.
  reflexivity.
Qed.

(** One leg whose kind is neither 'call' nor 'put' and whose position is
    neither 'long' nor 'short'. *)
Definition mistagged_example : OptionsStrategy :=
  add_option_leg (init "Mistagged" None) "straddle" "flat" 100 3.

(** C4 fails as stated: no operation signals an error for the mistagged
    leg; at expiry [delta] returns 0.0 for it and the payoff is that of a
    short put. *)
Lemma mistagged_leg_accepted :
  (exists leg, In leg (option_legs mistagged_example) /\
     OptionLeg.option_type leg <> "call"%string /\
     OptionLeg.option_type leg <> "put"%string /\
     OptionLeg.position leg <> "long"%string /\
     OptionLeg.position leg <> "short"%string) /\
  BlackScholes.delta 100 100 0 0.05 0.25 "straddle" 0 = Ok 0 /\
  ~ raises (BlackScholes.delta 100 100 1 0.05 0.25 "straddle" 0) /\
  payoff_at_expiration mistagged_example [90] = [(3 - Rmax (100 - 90) 0) * 100] /\
  ~ raises (current_pnl mistagged_example 100) /\
  ~ raises (greeks mistagged_example 100) /\
  ~ raises (analyze mistagged_example 100).
Proof.
  assert (Hk : strikes_nonzero mistagged_example) by (repeat constructor; cbn; lra).
  split.
  { exists (OptionLeg.mk "straddle" "flat" 100 3).
    split; [left; reflexivity |]. cbn. repeat split; discriminate. }
  split.
  { unfold BlackScholes.delta. rewrite Rleb_true by lra.
    change (String.eqb "straddle" "call") with false.
    rewrite andb_false_r. f_equal. lra. }
  split.
  { intros [e He].
    destruct (delta_returns 100 100 1 0.05 0.25 "straddle" 0 ltac:(lra)) as [d Hd].
    rewrite Hd in He. discriminate. }
  split.
  { cbn. f_equal. lra. }
  split.
  { intros [e He]. destruct (current_pnl_returns _ 100 Hk) as [v Hv].
    rewrite Hv in He. discriminate. }
  split.
  { intros [e He]. destruct (greeks_returns _ 100 Hk) as [v Hv].
    rewrite Hv in He. discriminate. }
  intros [e He]. destruct (analyze_returns _ 100 Hk) as [v Hv].
  rewrite Hv in He. discriminate.
Qed.


(* ================================================================== *)
(** * Further properties of the payoff at expiration *)
(* ================================================================== *)

(** What one leg adds to the payoff at price [s]. *)
Definition stock_contribution (s : R) (leg : StockLeg.t) : R :=
  payoff_stock_point s 0 leg.

Definition option_contribution (s : R) (leg : OptionLeg.t) : R :=
  payoff_option_point s 0 leg.

Lemma payoff_stock_point_acc s acc leg :
  payoff_stock_point s acc leg = acc + stock_contribution s leg.
Proof.
  unfold stock_contribution, payoff_stock_point.
  destruct (String.eqb (StockLeg.position leg) "long"); ring.
Qed.

Lemma payoff_option_point_acc s acc leg :
  payoff_option_point s acc leg = acc + option_contribution s leg.
Proof.
  unfold option_contribution, payoff_option_point.
  destruct (String.eqb (OptionLeg.position leg) "long"); cbv zeta; ring.
Qed.

Lemma fold_stock_sum s legs acc :
  fold_left (payoff_stock_point s) legs acc =
    acc + Rsum (map (stock_contribution s) legs).
Proof.
  revert acc. induction legs as [| leg legs IH]; intro acc; cbn [fold_left map].
  - unfold Rsum. cbn. ring.
  - rewrite IH, payoff_stock_point_acc. unfold Rsum. cbn [fold_right]. ring.
Qed.

Lemma fold_option_sum s legs acc :
  fold_left (payoff_option_point s) legs acc =
    acc + Rsum (map (option_contribution s) legs).
Proof.
  revert acc. induction legs as [| leg legs IH]; intro acc; cbn [fold_left map].
  - unfold Rsum. cbn. ring.
  - rewrite IH, payoff_option_point_acc. unfold Rsum. cbn [fold_right]. ring.
Qed.

Lemma payoff_point_sum self s :
  payoff_point self s =
    Rsum (map (stock_contribution s) (stock_legs self))
    + Rsum (map (option_contribution s) (option_legs self)).
Proof. unfold payoff_point. rewrite fold_option_sum, fold_stock_sum. ring. Qed.

Lemma Rsum_app l1 l2 : Rsum (l1 ++ l2) = Rsum l1 + Rsum l2.
Proof.
  unfold Rsum. induction l1 as [| x l1 IH]; cbn [app fold_right]; [ring |].
  rewrite IH. ring.
Qed.

Lemma payoff_single self s : payoff_at_expiration self [s] = [payoff_point self s].
Proof. rewrite payoff_at_expiration_map. reflexivity. Qed.

(** X1. The payoff is computed price by price: the payoff of a concatenated
    array of prices is the concatenation of the payoffs, the result has the
    length of the input, and an empty input gives an empty result. *)
Theorem payoff_at_expiration_app (self : OptionsStrategy) (l1 l2 : list R) :
  payoff_at_expiration self (l1 ++ l2) =
    payoff_at_expiration self l1 ++ payoff_at_expiration self l2 /\
  List.length (payoff_at_expiration self l1) = List.length l1 /\
  payoff_at_expiration self [] = [].
Proof.
  rewrite !payoff_at_expiration_map.
  split; [apply map_app |]. split; [apply length_map | reflexivity].
Qed.






(* ================================================================== *)
(** * Current value, Greeks and errors *)
(* ================================================================== *)

Lemma expiry_year_fraction (days : Z) : (days <= 0)%Z -> IZR days / 365 <= 0.
Proof.
  intro H. apply IZR_le in H. lra.
Qed.

Lemma pnl_option_step_degenerate mp S T pnl leg :
  T <= 0 \/ volatility mp <= 0 ->
  pnl_option_step mp S T pnl leg = Ok (payoff_option_point S pnl leg).
Proof.
  intro Hdeg. unfold pnl_option_step, payoff_option_point.
  assert (Hb : Rleb T 0 || Rleb (volatility mp) 0 = true).
  { destruct Hdeg as [H | H]; rewrite (Rleb_true _ _ H);
      [reflexivity | apply orb_true_r]. }
  unfold BlackScholes.call_price, BlackScholes.put_price. rewrite Hb.
  destruct (String.eqb (OptionLeg.option_type leg) "call"); cbn [bind];
    destruct (String.eqb (OptionLeg.position leg) "long"); reflexivity.
Qed.

Lemma for_each_pure {A B : Type} (body : B -> A -> result B) (f : B -> A -> B)
    (l : list A) :
  (forall acc x, body acc x = Ok (f acc x)) ->
  forall acc, for_each body l acc = Ok (fold_left f l acc).
Proof.
  intro H. induction l as [| x l IH]; intro acc; cbn [for_each fold_left];
    [reflexivity |].
  rewrite H. cbn [bind]. apply IH.
Qed.

(** X5. At or after expiration (no days left), or with a volatility that
    is not positive, the current P&L at spot [S] is the payoff at
    expiration at price [S], and no error is raised whatever the strikes. *)
Theorem current_pnl_at_expiry (self : OptionsStrategy) (S : R) :
  (days_to_expiration (market_params self) <= 0)%Z \/
  volatility (market_params self) <= 0 ->
  current_pnl self S = Ok (nth 0 (payoff_at_expiration self [S]) 0).
Proof.
  intro Hdeg. rewrite payoff_single. cbn [nth].
  unfold current_pnl, payoff_point.
  rewrite (for_each_pure _ (payoff_option_point S)).
  - replace 0.0 with 0 by lra. reflexivity.
  - intros acc leg. apply pnl_option_step_degenerate.
    destruct Hdeg as [H | H]; [left; apply expiry_year_fraction; exact H | right; exact H].
Qed.

(** A covered call on its expiration day. *)
Definition expiring_example : OptionsStrategy :=
  add_option_leg
    (add_stock_leg (init "Covered Call" (Some (mkMarketParams 0.05 0.25 0.0 0)))
       "long" 100 100)
    "call" "short" 105 2.

Lemma current_pnl_at_expiry_witness :
  current_pnl expiring_example 110 =
    Ok (nth 0 (payoff_at_expiration expiring_example [110]) 0).
Proof.
  apply current_pnl_at_expiry. left. cbn. lia.
Defined.

Lemma live_year_fraction (days : Z) : (0 < days)%Z -> 0 < IZR days / 365.
Proof.
  intro H. apply IZR_lt in H. apply Rdiv_lt_0_compat; lra.
Qed.


Lemma greeks_option_step_expiry mp S T g leg :
  T <= 0 ->
  greeks_option_step mp S T g leg =
    Ok (Greeks.mk
          (Greeks.delta g
           + leg_sign (OptionLeg.position leg)
             * (if Rltb (OptionLeg.strike leg) S
                   && String.eqb (OptionLeg.option_type leg) "call"
                then 1 else 0) * 100)
          (Greeks.gamma g) (Greeks.theta g) (Greeks.vega g) (Greeks.rho g)).
Proof.
  intro HT. unfold greeks_option_step, BlackScholes.delta, BlackScholes.gamma,
    BlackScholes.theta, BlackScholes.vega, BlackScholes.rho, leg_sign.
  rewrite (Rleb_true _ _ HT). cbn [bind].
  destruct (String.eqb (OptionLeg.position leg) "long");
    destruct (Rltb (OptionLeg.strike leg) S
              && String.eqb (OptionLeg.option_type leg) "call");
    f_equal; f_equal; lra.
Qed.

Lemma greeks_loop_expiry mp S T legs :
  T <= 0 ->
  forall g, for_each (greeks_option_step mp S T) legs g =
    Ok (Greeks.mk
          (Greeks.delta g
           + Rsum (map (fun leg =>
                          leg_sign (OptionLeg.position leg)
                          * (if Rltb (OptionLeg.strike leg) S
                                && String.eqb (OptionLeg.option_type leg) "call"
                             then 1 else 0) * 100) legs))
          (Greeks.gamma g) (Greeks.theta g) (Greeks.vega g) (Greeks.rho g)).
Proof.
  intro HT. induction legs as [| leg legs IH]; intro g; cbn [for_each map].
  - destruct g. unfold Rsum. cbn. f_equal. f_equal. ring.
  - rewrite (greeks_option_step_expiry mp S T g leg HT). cbn [bind].
    rewrite IH. cbn [Greeks.delta Greeks.gamma Greeks.theta Greeks.vega Greeks.rho].
    f_equal. f_equal. unfold Rsum. cbn [fold_right]. ring.
Qed.

(** X7. At or after expiration the aggregated gamma, theta, vega and rho
    are exactly 0 and [greeks] raises no error whatever the strikes; the
    aggregated delta counts 100 per in-the-money call (signed by position)
    plus the signed stock quantities, every put counting 0. *)
Theorem greeks_at_expiry (self : OptionsStrategy) (S : R) :
  (days_to_expiration (market_params self) <= 0)%Z ->
  exists g, greeks self S = Ok g /\
    Greeks.gamma g = 0 /\ Greeks.theta g = 0 /\
    Greeks.vega g = 0 /\ Greeks.rho g = 0 /\
    Greeks.delta g =
      Rsum (map stock_delta (stock_legs self))
      + Rsum (map (fun leg =>
                     leg_sign (OptionLeg.position leg)
                     * (if Rltb (OptionLeg.strike leg) S
                           && String.eqb (OptionLeg.option_type leg) "call"
                        then 1 else 0) * 100) (option_legs self)).
Proof.
  intro Hd. unfold greeks.
  rewrite greeks_stock_loop.
  rewrite (greeks_loop_expiry _ S _ _ (expiry_year_fraction _ Hd)).
  eexists. split; [reflexivity |].
  cbn [Greeks.delta Greeks.gamma Greeks.theta Greeks.vega Greeks.rho].
  repeat split; lra.
Qed.

Lemma greeks_at_expiry_witness :
  exists g, greeks expiring_example 110 = Ok g /\
    Greeks.gamma g = 0 /\ Greeks.theta g = 0 /\
    Greeks.vega g = 0 /\ Greeks.rho g = 0.
Proof.
  destruct (greeks_at_expiry expiring_example 110 ltac:(cbn; lia))
    as [g (Hg & H1 & H2 & H3 & H4 & _)].
  exists g. repeat split; assumption.
Defined.

(* ================================================================== *)
(** * Payoff profiles of the catalog *)
(* ================================================================== *)

Ltac eval_tags :=
  repeat match goal with
  | |- context [String.eqb ?a ?b] =>
      let v := eval vm_compute in (String.eqb a b) in
      change (String.eqb a b) with v
  end.

(** Reduces the payoff of a strategy built leg by leg to the sum of its
    legs' terms. *)
Ltac leg_sum :=
  unfold payoff_point;
  cbn [init add_stock_leg add_option_leg option_legs stock_legs app fold_left];
  unfold payoff_stock_point, payoff_option_point;
  cbn [StockLeg.position StockLeg.price StockLeg.quantity
       OptionLeg.option_type OptionLeg.position OptionLeg.strike OptionLeg.premium];
  eval_tags; cbv beta iota zeta.

(** Case analysis on every [max], [min] and absolute value of the goal,
    innermost first. *)
Ltac no_case t :=
  lazymatch t with
  | context [Rle_dec _ _] => fail
  | context [Rcase_abs _] => fail
  | _ => idtac
  end.

Ltac split_max :=
  unfold Rmax, Rmin, Rabs;
  repeat match goal with
  | |- context [Rle_dec ?a ?b] => no_case a; no_case b; destruct (Rle_dec a b)
  | |- context [Rcase_abs ?a] => no_case a; destruct (Rcase_abs a)
  end.

Lemma payoff_ext (self : OptionsStrategy) (f : R -> R) (S_T : list R) :
  (forall s, payoff_point self s = f s) ->
  payoff_at_expiration self S_T = map f S_T.
Proof. intro H. rewrite payoff_at_expiration_map. apply map_ext. exact H. Qed.

Lemma payoff_forall (self : OptionsStrategy) (P : R -> Prop) (S_T : list R) :
  (forall s, P (payoff_point self s)) ->
  Forall P (payoff_at_expiration self S_T).
Proof.
  intro H. rewrite payoff_at_expiration_map. apply Forall_map, Forall_forall.
  intros s _. apply H.
Qed.

Lemma payoff_mirror (short long : OptionsStrategy) (S_T : list R) :
  (forall s, payoff_point short s = - payoff_point long s) ->
  payoff_at_expiration short S_T = map Ropp (payoff_at_expiration long S_T).
Proof.
  intro H. rewrite !payoff_at_expiration_map, map_map. apply map_ext. exact H.
Qed.

(** X10. A covered call pays like the stock capped at the call strike, and a
    protective put like the stock floored at the put strike: at price [s]
    they pay [(min(s, K) - price + premium) * 100] and
    [(max(s, K) - price - premium) * 100]. *)
Theorem covered_call_capped (stock_price strike premium : R)
    (mp : option MarketParams) (S_T : list R) :
  payoff_at_expiration (covered_call stock_price strike premium mp) S_T =
    map (fun s => (Rmin s strike - stock_price + premium) * 100) S_T /\
  Forall (fun v => v <= (strike - stock_price + premium) * 100)
    (payoff_at_expiration (covered_call stock_price strike premium mp) S_T) /\
  payoff_at_expiration (protective_put stock_price strike premium mp) S_T =
    map (fun s => (Rmax s strike - stock_price - premium) * 100) S_T /\
  Forall (fun v => (strike - stock_price - premium) * 100 <= v)
    (payoff_at_expiration (protective_put stock_price strike premium mp) S_T).
Proof.
  repeat split.
  - apply payoff_ext. intro s. unfold covered_call. leg_sum. split_max; lra.
  - apply payoff_forall. intro s. unfold covered_call. leg_sum. split_max; lra.
  - apply payoff_ext. intro s. unfold protective_put. leg_sum. split_max; lra.
  - apply payoff_forall. intro s. unfold protective_put. leg_sum. split_max; lra.
Qed.

(** X11. With the put strike not above the call strike, a collar pays like
    the stock confined to the band between the two strikes, so both its
    loss and its gain are bounded. *)
Theorem collar_band (stock_price put_strike call_strike put_premium call_premium : R)
    (mp : option MarketParams) (S_T : list R) :
  put_strike <= call_strike ->
  payoff_at_expiration
    (collar stock_price put_strike call_strike put_premium call_premium mp) S_T =
    map (fun s => (Rmax put_strike (Rmin s call_strike)
                   - stock_price - put_premium + call_premium) * 100) S_T /\
  Forall (fun v =>
            (put_strike - stock_price - put_premium + call_premium) * 100 <= v
            <= (call_strike - stock_price - put_premium + call_premium) * 100)
    (payoff_at_expiration
       (collar stock_price put_strike call_strike put_premium call_premium mp) S_T).
Proof.
  intro Hk. split.
  - apply payoff_ext. intro s. unfold collar. leg_sum. split_max; lra.
  - apply payoff_forall. intro s. unfold collar. leg_sum. split_max; lra.
Qed.

Lemma collar_band_witness :
  payoff_at_expiration (collar 100 95 110 2 3 None) [80; 100; 130] =
    map (fun s => (Rmax 95 (Rmin s 110) - 100 - 2 + 3) * 100) [80; 100; 130] /\
  Forall (fun v => (95 - 100 - 2 + 3) * 100 <= v <= (110 - 100 - 2 + 3) * 100)
    (payoff_at_expiration (collar 100 95 110 2 3 None) [80; 100; 130]).
Proof.
  apply (collar_band 100 95 110 2 3 None [80; 100; 130]). lra.
Defined.

(** X12. With the lower strike not above the upper strike, a bull call
    spread pays the part of [s - lower_strike] between 0 and the width of
    the spread, less the net debit: the loss is at most the debit and the
    gain at most the width less the debit. *)
Theorem bull_call_spread_profile
    (lower_strike upper_strike lower_premium upper_premium : R)
    (mp : option MarketParams) (S_T : list R) :
  lower_strike <= upper_strike ->
  payoff_at_expiration
    (bull_call_spread lower_strike upper_strike lower_premium upper_premium mp) S_T =
    map (fun s => (Rmin (Rmax (s - lower_strike) 0) (upper_strike - lower_strike)
                   - (lower_premium - upper_premium)) * 100) S_T /\
  Forall (fun v =>
            - (lower_premium - upper_premium) * 100 <= v
            <= (upper_strike - lower_strike - (lower_premium - upper_premium)) * 100)
    (payoff_at_expiration
       (bull_call_spread lower_strike upper_strike lower_premium upper_premium mp) S_T).
Proof.
  intro Hk. split.
  - apply payoff_ext. intro s. unfold bull_call_spread. leg_sum. split_max; lra.
  - apply payoff_forall. intro s. unfold bull_call_spread. leg_sum. split_max; lra.
Qed.

Lemma bull_call_spread_profile_witness :
  payoff_at_expiration (bull_call_spread 100 110 5 2 None) [90; 105; 120] =
    map (fun s => (Rmin (Rmax (s - 100) 0) (110 - 100) - (5 - 2)) * 100)
      [90; 105; 120] /\
  Forall (fun v => - (5 - 2) * 100 <= v <= (110 - 100 - (5 - 2)) * 100)
    (payoff_at_expiration (bull_call_spread 100 110 5 2 None) [90; 105; 120]).
Proof.
  apply (bull_call_spread_profile 100 110 5 2 None [90; 105; 120]). lra.
Defined.


(** X14. With ordered strikes, an iron condor never pays more than the net
    credit received, pays exactly that credit between the two short
    strikes, and never loses more than the wider wing less the credit. *)
Theorem iron_condor_profile
    (put_lower put_upper call_lower call_upper : R)
    (put_lower_prem put_upper_prem call_lower_prem call_upper_prem : R)
    (mp : option MarketParams) (S_T : list R) :
  put_lower <= put_upper -> put_upper <= call_lower -> call_lower <= call_upper ->
  let credit := put_upper_prem + call_lower_prem - put_lower_prem - call_upper_prem in
  let self := iron_condor put_lower put_upper call_lower call_upper
                put_lower_prem put_upper_prem call_lower_prem call_upper_prem mp in
  Forall (fun v =>
            (credit - Rmax (put_upper - put_lower) (call_upper - call_lower)) * 100 <= v
            <= credit * 100)
    (payoff_at_expiration self S_T) /\
  forall s, put_upper <= s <= call_lower ->
            payoff_at_expiration self [s] = [credit * 100].
Proof.
  intros H1 H2 H3 credit self. split.
  - apply payoff_forall. intro s. subst self credit. unfold iron_condor. leg_sum.
    split_max; lra.
  - intros s Hs. rewrite payoff_single. f_equal.
    subst self credit. unfold iron_condor. leg_sum. split_max; lra.
Qed.

Lemma iron_condor_profile_witness :
  Forall (fun v => (1 + 2 - 0.5 - 0.5 - Rmax (95 - 90) (110 - 105)) * 100 <= v
                   <= (1 + 2 - 0.5 - 0.5) * 100)
    (payoff_at_expiration (iron_condor 90 95 105 110 0.5 1 2 0.5 None) [80; 100; 120]) /\
  forall s, 95 <= s <= 105 ->
            payoff_at_expiration (iron_condor 90 95 105 110 0.5 1 2 0.5 None) [s]
            = [(1 + 2 - 0.5 - 0.5) * 100].
Proof.
  apply (iron_condor_profile 90 95 105 110 0.5 1 2 0.5 None [80; 100; 120]); lra.
Defined.



(** X17. With ordered strikes, a long call butterfly pays the most at the
    middle strike, where it pays the lower wing's width less the net debit,
    and never loses more than the debit plus any excess of the upper wing
    over the lower one. *)
Theorem long_call_butterfly_profile
    (lower_strike middle_strike upper_strike : R)
    (lower_premium middle_premium upper_premium : R)
    (mp : option MarketParams) (S_T : list R) :
  lower_strike <= middle_strike -> middle_strike <= upper_strike ->
  let debit := lower_premium - 2 * middle_premium + upper_premium in
  let self := long_call_butterfly lower_strike middle_strike upper_strike
                lower_premium middle_premium upper_premium mp in
  Forall (fun v =>
            (Rmin 0 (2 * middle_strike - lower_strike - upper_strike) - debit) * 100
            <= v <= (middle_strike - lower_strike - debit) * 100)
    (payoff_at_expiration self S_T) /\
  payoff_at_expiration self [middle_strike] =
    [(middle_strike - lower_strike - debit) * 100].
Proof.
  intros H1 H2 debit self. split.
  - apply payoff_forall. intro s. subst self debit. unfold long_call_butterfly.
    leg_sum. split_max; lra.
  - rewrite payoff_single. f_equal. subst self debit. unfold long_call_butterfly.
    leg_sum. split_max; lra.
Qed.

Lemma long_call_butterfly_profile_witness :
  Forall (fun v => (Rmin 0 (2 * 100 - 95 - 105) - (6 - 2 * 3 + 1)) * 100 <= v
                   <= (100 - 95 - (6 - 2 * 3 + 1)) * 100)
    (payoff_at_expiration (long_call_butterfly 95 100 105 6 3 1 None) [90; 100; 110]) /\
  payoff_at_expiration (long_call_butterfly 95 100 105 6 3 1 None) [100] =
    [(100 - 95 - (6 - 2 * 3 + 1)) * 100].
Proof.
  apply (long_call_butterfly_profile 95 100 105 6 3 1 None [90; 100; 110]); lra.
Defined.

(** ** Ratio spreads *)

Lemma for_range_add_option_leg (n : Z) (self : OptionsStrategy)
    (option_type position : string) (strike premium : R) :
  for_range n (fun strategy => add_option_leg strategy option_type position strike premium)
    self =
  mkOptionsStrategy (name self)
    (option_legs self
     ++ repeat (OptionLeg.mk option_type position strike premium) (Z.to_nat n))
    (stock_legs self) (market_params self).
Proof.
  unfold for_range. induction (Z.to_nat n) as [| k IH].
  - destruct self. cbn. rewrite app_nil_r. reflexivity.
  - rewrite Nat.iter_succ, IH. unfold add_option_leg.
    cbn [name option_legs stock_legs market_params].
    rewrite <- app_assoc, <- repeat_cons. reflexivity.
Qed.

Lemma Rsum_repeat {A : Type} (f : A -> R) (x : A) (n : nat) :
  Rsum (map f (repeat x n)) = INR n * f x.
Proof.
  unfold Rsum. induction n as [| n IH].
  - cbn. ring.
  - rewrite S_INR. cbn [repeat map fold_right]. rewrite IH. ring.
Qed.

Lemma range_count (n : Z) : INR (Z.to_nat n) = IZR (Z.max n 0).
Proof. rewrite INR_IZR_INZ. f_equal. lia. Qed.

(** X18. A ratio spread pays the one leg bought (or sold) plus [ratio]
    times the leg on the other side; a [ratio] of zero or below adds no
    such leg at all, leaving the single first leg. *)
Theorem ratio_spread_payoff
    (lower_strike upper_strike lower_premium upper_premium : R) (ratio : Z)
    (mp : option MarketParams) (S_T : list R) :
  payoff_at_expiration
    (call_ratio_spread lower_strike upper_strike lower_premium upper_premium ratio mp)
    S_T =
    map (fun s => (Rmax (s - lower_strike) 0 - lower_premium) * 100
                  + IZR (Z.max ratio 0)
                    * ((upper_premium - Rmax (s - upper_strike) 0) * 100)) S_T /\
  payoff_at_expiration
    (put_ratio_spread lower_strike upper_strike lower_premium upper_premium ratio mp)
    S_T =
    map (fun s => (Rmax (upper_strike - s) 0 - upper_premium) * 100
                  + IZR (Z.max ratio 0)
                    * ((lower_premium - Rmax (lower_strike - s) 0) * 100)) S_T /\
  payoff_at_expiration
    (call_ratio_backspread lower_strike upper_strike lower_premium upper_premium ratio mp)
    S_T =
    map (fun s => (lower_premium - Rmax (s - lower_strike) 0) * 100
                  + IZR (Z.max ratio 0)
                    * ((Rmax (s - upper_strike) 0 - upper_premium) * 100)) S_T.
Proof.
  repeat split; apply payoff_ext; intro s; rewrite payoff_point_sum, <- range_count.
  - unfold call_ratio_spread. cbv zeta. rewrite for_range_add_option_leg.
    cbn [init add_option_leg option_legs stock_legs].
    rewrite !map_app, !Rsum_app, Rsum_repeat. unfold Rsum. cbn [map fold_right].
    unfold option_contribution, payoff_option_point.
    cbn [OptionLeg.option_type OptionLeg.position OptionLeg.strike OptionLeg.premium].
    eval_tags. cbv beta iota zeta. ring.
  - unfold put_ratio_spread. cbv zeta. rewrite for_range_add_option_leg.
    cbn [init add_option_leg option_legs stock_legs].
    rewrite !map_app, !Rsum_app, Rsum_repeat. unfold Rsum. cbn [map fold_right].
    unfold option_contribution, payoff_option_point.
    cbn [OptionLeg.option_type OptionLeg.position OptionLeg.strike OptionLeg.premium].
    eval_tags. cbv beta iota zeta. ring.
  - unfold call_ratio_backspread. cbv zeta. rewrite for_range_add_option_leg.
    cbn [init add_option_leg option_legs stock_legs].
    rewrite !map_app, !Rsum_app, Rsum_repeat. unfold Rsum. cbn [map fold_right].
    unfold option_contribution, payoff_option_point.
    cbn [OptionLeg.option_type OptionLeg.position OptionLeg.strike OptionLeg.premium].
    eval_tags. cbv beta iota zeta. ring.
Qed.

(** ** Strategies that differ by name or by side only *)


Ltac mirror_of short long :=
  apply payoff_mirror; intro; unfold short, long; leg_sum; ring.

(** X20. Each short (or reversed) strategy of the catalog is the mirror
    image of its long counterpart built from the same arguments: at every
    price its payoff is the opposite number. *)
Theorem short_mirrors_long (a b c d e f : R) (mp : option MarketParams)
    (S_T : list R) :
  let mirrored short long :=
    payoff_at_expiration short S_T = map Ropp (payoff_at_expiration long S_T) in
  mirrored (short_straddle a b c mp) (long_straddle a b c mp) /\
  mirrored (short_strangle a b c d mp) (long_strangle a b c d mp) /\
  mirrored (short_strip a b c mp) (long_strip a b c mp) /\
  mirrored (short_strap a b c mp) (long_strap a b c mp) /\
  mirrored (short_call_butterfly a b c d e f mp) (long_call_butterfly a b c d e f mp) /\
  mirrored (bear_call_spread a b c d mp) (bull_call_spread a b c d mp) /\
  mirrored (bull_put_spread a b c d mp) (bear_put_spread a b c d mp) /\
  mirrored (reverse_collar a b c d e mp) (collar a b c d e mp) /\
  mirrored (reversal a b c d mp) (conversion a b c d mp) /\
  mirrored (synthetic_short a b c mp) (synthetic_long a b c mp) /\
  mirrored (protective_call a b c mp) (covered_call a b c mp) /\
  mirrored (covered_put a b c mp) (protective_put a b c mp).
Proof.
  cbv zeta. repeat split.
  - mirror_of short_straddle long_straddle.
  - mirror_of short_strangle long_strangle.
  - mirror_of short_strip long_strip.
  - mirror_of short_strap long_strap.
  - mirror_of short_call_butterfly long_call_butterfly.
  - mirror_of bear_call_spread bull_call_spread.
  - mirror_of bull_put_spread bear_put_spread.
  - mirror_of reverse_collar collar.
  - mirror_of reversal conversion.
  - mirror_of synthetic_short synthetic_long.
  - mirror_of protective_call covered_call.
  - mirror_of covered_put protective_put.
Qed.

Lemma analyze_legs (self other : OptionsStrategy) (S : R) :
  option_legs self = option_legs other ->
  stock_legs self = stock_legs other ->
  market_params self = market_params other ->
  analyze self S = analyze other S.
Proof.
  intros Ho Hs Hm. unfold analyze, current_pnl, greeks, payoff_at_expiration.
  rewrite Ho, Hs, Hm. reflexivity.
Qed.

(** X21. Several catalog entries are one position under two names, so
    [analyze] returns the same result for both: the wheel's call phase is
    a covered call, the poor man's covered call a bull call spread, the
    ZEBRA a 1:2 call ratio spread, the diagonal call spread a bear call
    spread, and the diagonal put spread a bull put spread (its near leg
    being the upper one). *)
Theorem catalog_aliases (a b c d : R) (mp : option MarketParams) (S : R) :
  analyze (wheel_call_phase a b c mp) S = analyze (covered_call a b c mp) S /\
  analyze (poor_mans_covered_call a b c d mp) S =
    analyze (bull_call_spread a b c d mp) S /\
  analyze (zebra_spread a b c d mp) S = analyze (call_ratio_spread a b c d 2 mp) S /\
  analyze (diagonal_call_spread a b c d mp) S =
    analyze (bear_call_spread a b c d mp) S /\
  analyze (diagonal_put_spread a b c d mp) S =
    analyze (bull_put_spread b a d c mp) S.
Proof.
  repeat split; apply analyze_legs; reflexivity.
Qed.

(* ================================================================== *)
(** * The risk/reward ratio of the analysis endpoint *)
(* ================================================================== *)


(** X22. The risk/reward ratio never divides by zero: it is reported
    exactly when the worst payoff is a loss and the best one a gain, it is
    then positive and equals the best payoff over the size of the worst
    one, and in every other case it is left undefined ([None]). *)
Theorem rr_ratio_defined (analysis : Analysis.t) :
  let max_profit := Analysis.max_profit_at_expiration analysis in
  let max_loss := Analysis.max_loss_at_expiration analysis in
  (max_loss < 0 /\ 0 < max_profit ->
     exists r, rr_ratio analysis = Ok (Some r) /\ 0 < r /\ r * - max_loss = max_profit) /\
  (~ (max_loss < 0 /\ 0 < max_profit) -> rr_ratio analysis = Ok None).
Proof.
  cbv zeta. unfold rr_ratio. split.
  - intros [Hl Hp]. rewrite (Rltb_true _ _ Hl), (Rltb_true _ _ Hp). cbn [andb].
    rewrite Rabs_left by exact Hl. rewrite float_div_ok by lra. cbn [bind].
    eexists. split; [reflexivity |]. split.
    + apply Rdiv_lt_0_compat; lra.
    + field. lra.
  - intro Hn.
    destruct (Rlt_dec (Analysis.max_loss_at_expiration analysis) 0) as [Hl | Hl].
    + rewrite (Rltb_true _ _ Hl).
      rewrite Rltb_false; [reflexivity |].
      apply Rnot_lt_le. intro Hp. apply Hn. split; assumption.
    + rewrite Rltb_false by lra. reflexivity.
Qed.

(* ================================================================== *)
(** * Greeks of the synthetic positions *)
(* ================================================================== *)

(** X23. Before expiration, a synthetic long has the delta of 100 shares
    discounted at the dividend yield, no gamma and no vega, and its rho is
    [strike * T * exp(-r T)]: the normal distribution function drops out
    of all four. *)
Theorem synthetic_long_greeks (strike call_premium put_premium S : R)
    (mp : MarketParams) :
  0 < S -> 0 < strike ->
  (0 < days_to_expiration mp)%Z -> 0 < volatility mp ->
  let T := IZR (days_to_expiration mp) / 365 in
  exists g,
    greeks (synthetic_long strike call_premium put_premium (Some mp)) S = Ok g /\
    Greeks.delta g = 100 * exp (- dividend_yield mp * T) /\
    Greeks.gamma g = 0 /\
    Greeks.vega g = 0 /\
    Greeks.rho g = strike * T * exp (- risk_free_rate mp * T).
Proof.
  intros HS HK Hd Hv T.
  assert (HT : 0 < T) by (apply live_year_fraction; exact Hd).
  unfold greeks, synthetic_long.
  cbn [init add_option_leg option_legs stock_legs market_params app fold_left for_each].
  fold T. unfold greeks_option_step.
  cbn [OptionLeg.option_type OptionLeg.position OptionLeg.strike OptionLeg.premium].
  unfold BlackScholes.delta, BlackScholes.gamma, BlackScholes.theta,
    BlackScholes.vega, BlackScholes.rho.
  rewrite (Rleb_false _ _ HT), d1_term_ok by lra.
  eval_tags. cbn [bind Greeks.delta Greeks.gamma Greeks.theta Greeks.vega Greeks.rho].
  eexists. split; [reflexivity |].
  cbn [Greeks.delta Greeks.gamma Greeks.theta Greeks.vega Greeks.rho].
  set (d1 := (ln (S / strike)
              + (risk_free_rate mp - dividend_yield mp + 0.5 * volatility mp ^ 2) * T)
             / (volatility mp * sqrt T)).
  pose proof (norm_cdf_sym d1) as H1.
  pose proof (norm_cdf_sym (d1 - volatility mp * sqrt T)) as H2.
  repeat split.
  - replace 0.0 with 0 by lra.
    replace (norm_cdf (- d1)) with (1 - norm_cdf d1) by lra. ring.
  - replace 0.0 with 0 by lra. ring.
  - replace 0.0 with 0 by lra. ring.
  - replace 0.0 with 0 by lra.
    replace (norm_cdf (- (d1 - volatility mp * sqrt T)))
      with (1 - norm_cdf (d1 - volatility mp * sqrt T)) by lra.
    field.
Qed.

Lemma synthetic_long_greeks_witness :
  exists g,
    greeks (synthetic_long 100 5 4 (Some (mkMarketParams 0.05 0.25 0.0 30))) 100 = Ok g /\
    Greeks.delta g = 100 * exp (- (0.0) * (IZR 30 / 365)) /\
    Greeks.gamma g = 0 /\
    Greeks.vega g = 0 /\
    Greeks.rho g = 100 * (IZR 30 / 365) * exp (- (0.05) * (IZR 30 / 365)).
Proof.
  apply (synthetic_long_greeks 100 5 4 100 (mkMarketParams 0.05 0.25 0.0 30));
    cbn; try lra; lia.
Defined.

(* ================================================================== *)
(** * The Greeks as sensitivities of the price *)
(* ================================================================== *)


(** A Black-Scholes value along a curve of parameters: [A] and [B] are the
    discounted spot and strike, [x] the log-moneyness of the forward and
    [v] the total volatility. *)
Section Sensitivity.
Variables A B x v : R -> R.
Variables t A' B' x' v' : R.
Hypothesis A_deriv : derivable_pt_lim A t A'.
Hypothesis B_deriv : derivable_pt_lim B t B'.
Hypothesis x_deriv : derivable_pt_lim x t x'.
Hypothesis v_deriv : derivable_pt_lim v t v'.
Hypothesis v_pos : 0 < v t.
Hypothesis forward : A t = B t * exp (x t).

Lemma curve_d1_deriv :
  derivable_pt_lim (fun u => x u / v u + v u / 2) t
    ((x' * v t - v' * x t) / Rsqr (v t) + v' / 2).
Proof.
  apply (derivable_pt_lim_same _ (x / v + mult_real_fct (/ 2) v)%F);
    [intro y; unfold plus_fct, div_fct, mult_real_fct, Rdiv; ring |].
  apply (derivable_pt_lim_value _ _
           ((x' * v t - v' * x t) / Rsqr (v t) + / 2 * v')); [unfold Rdiv; ring |].
  apply derivable_pt_lim_plus.
  - apply derivable_pt_lim_div; [exact x_deriv | exact v_deriv | lra].
  - apply derivable_pt_lim_scal. exact v_deriv.
Qed.

Lemma curve_d2_deriv :
  derivable_pt_lim (fun u => x u / v u - v u / 2) t
    ((x' * v t - v' * x t) / Rsqr (v t) - v' / 2).
Proof.
  apply (derivable_pt_lim_same _ (x / v - mult_real_fct (/ 2) v)%F);
    [intro y; unfold minus_fct, div_fct, mult_real_fct, Rdiv; ring |].
  apply (derivable_pt_lim_value _ _
           ((x' * v t - v' * x t) / Rsqr (v t) - / 2 * v')); [unfold Rdiv; ring |].
  apply derivable_pt_lim_minus.
  - apply derivable_pt_lim_div; [exact x_deriv | exact v_deriv | lra].
  - apply derivable_pt_lim_scal. exact v_deriv.
Qed.

(** The two density terms cancel. *)
Lemma curve_density :
  A t * norm_pdf (x t / v t + v t / 2) = B t * norm_pdf (x t / v t - v t / 2).
Proof.
  rewrite !norm_pdf_gauss, forward, <- (gauss_shift (v t) v_pos (x t)).
  unfold Rdiv. ring.
Qed.

Lemma call_curve_deriv :
  derivable_pt_lim
    (fun u => A u * norm_cdf (x u / v u + v u / 2)
              - B u * norm_cdf (x u / v u - v u / 2)) t
    (A' * norm_cdf (x t / v t + v t / 2) - B' * norm_cdf (x t / v t - v t / 2)
     + A t * norm_pdf (x t / v t + v t / 2) * v').
Proof.
  set (d1 := fun u => x u / v u + v u / 2).
  set (d2 := fun u => x u / v u - v u / 2).
  apply (derivable_pt_lim_same _ (A * comp norm_cdf d1 - B * comp norm_cdf d2)%F);
    [intro y; reflexivity |].
  apply (derivable_pt_lim_value _ _
           ((A' * comp norm_cdf d1 t
             + A t * (norm_pdf (d1 t)
                      * ((x' * v t - v' * x t) / Rsqr (v t) + v' / 2)))
            - (B' * comp norm_cdf d2 t
               + B t * (norm_pdf (d2 t)
                        * ((x' * v t - v' * x t) / Rsqr (v t) - v' / 2))))).
  - unfold comp, d1, d2.
    pose proof curve_density as Hd.
    set (p1 := norm_pdf (x t / v t + v t / 2)) in *.
    set (p2 := norm_pdf (x t / v t - v t / 2)) in *.
    set (w := (x' * v t - v' * x t) / Rsqr (v t)).
    replace (B t * (p2 * (w - v' / 2))) with (A t * p1 * (w - v' / 2))
      by (rewrite Hd; ring).
    clearbody w p1 p2. field.
  - apply derivable_pt_lim_minus; apply derivable_pt_lim_mult;
      try assumption; apply derivable_pt_lim_comp;
      try apply norm_cdf_pdf; [apply curve_d1_deriv | apply curve_d2_deriv].
Qed.

Lemma put_curve_deriv :
  derivable_pt_lim
    (fun u => B u * norm_cdf (- (x u / v u - v u / 2))
              - A u * norm_cdf (- (x u / v u + v u / 2))) t
    (B' * norm_cdf (- (x t / v t - v t / 2)) - A' * norm_cdf (- (x t / v t + v t / 2))
     + A t * norm_pdf (x t / v t + v t / 2) * v').
Proof.
  set (F := fun u => A u * norm_cdf (x u / v u + v u / 2)
                     - B u * norm_cdf (x u / v u - v u / 2)).
  apply (derivable_pt_lim_same _ ((F - A) + B)%F).
  { intro y. unfold plus_fct, minus_fct, F.
    pose proof (norm_cdf_sym (x y / v y + v y / 2)).
    pose proof (norm_cdf_sym (x y / v y - v y / 2)).
    replace (norm_cdf (- (x y / v y - v y / 2)))
      with (1 - norm_cdf (x y / v y - v y / 2)) by lra.
    replace (norm_cdf (- (x y / v y + v y / 2)))
      with (1 - norm_cdf (x y / v y + v y / 2)) by lra.
    ring. }
  apply (derivable_pt_lim_value _ _
           ((A' * norm_cdf (x t / v t + v t / 2) - B' * norm_cdf (x t / v t - v t / 2)
             + A t * norm_pdf (x t / v t + v t / 2) * v') - A' + B')).
  { pose proof (norm_cdf_sym (x t / v t + v t / 2)).
    pose proof (norm_cdf_sym (x t / v t - v t / 2)).
    replace (norm_cdf (- (x t / v t - v t / 2)))
      with (1 - norm_cdf (x t / v t - v t / 2)) by lra.
    replace (norm_cdf (- (x t / v t + v t / 2)))
      with (1 - norm_cdf (x t / v t + v t / 2)) by lra.
    ring. }
  apply derivable_pt_lim_plus; [| exact B_deriv].
  apply derivable_pt_lim_minus; [| exact A_deriv].
  apply call_curve_deriv.
Qed.
End Sensitivity.

(** ** Elementary derivatives *)

Lemma linear_deriv (c t : R) : derivable_pt_lim (fun u => u * c) t c.
Proof.
  apply (derivable_pt_lim_value _ _ (1 * c + t * 0)); [ring |].
  apply (derivable_pt_lim_same _ (id * fct_cte c)%F); [intro; reflexivity |].
  apply derivable_pt_lim_mult; [apply derivable_pt_lim_id | apply derivable_pt_lim_const].
Qed.

Lemma affine_in_deriv (c a t : R) : derivable_pt_lim (fun u => c + a * u) t a.
Proof.
  apply (derivable_pt_lim_value _ _ (0 + a * 1)); [ring |].
  apply (derivable_pt_lim_same _ (fct_cte c + mult_real_fct a id)%F);
    [intro; reflexivity |].
  apply derivable_pt_lim_plus;
    [apply derivable_pt_lim_const | apply derivable_pt_lim_scal, derivable_pt_lim_id].
Qed.

Lemma discount_deriv (c a t : R) :
  derivable_pt_lim (fun u => c * exp (a * u)) t (a * (c * exp (a * t))).
Proof.
  apply (derivable_pt_lim_value _ _ (c * (exp (a * t) * a))); [ring |].
  apply (derivable_pt_lim_same _ (mult_real_fct c (comp exp (fun u => 0 + a * u))));
    [intro y; unfold mult_real_fct, comp; f_equal; f_equal; ring |].
  apply derivable_pt_lim_scal.
  replace (a * t) with (0 + a * t) by ring.
  apply derivable_pt_lim_comp; [apply affine_in_deriv | apply derivable_pt_lim_exp].
Qed.

Lemma log_ratio_deriv (K c t : R) :
  0 < t -> 0 < K -> derivable_pt_lim (fun u => ln (u / K) + c) t (/ t).
Proof.
  intros Ht HK.
  apply (derivable_pt_lim_value _ _ (/ (t * / K) * / K + 0)); [field; lra |].
  apply (derivable_pt_lim_same _ (plus_fct (comp ln (fun u => u * / K)) (fct_cte c)));
    [intro; reflexivity |].
  apply derivable_pt_lim_plus; [| apply derivable_pt_lim_const].
  apply derivable_pt_lim_comp; [apply linear_deriv |].
  apply derivable_pt_lim_ln. apply Rmult_lt_0_compat; [exact Ht |].
  apply Rinv_0_lt_compat. exact HK.
Qed.

Lemma total_vol_deriv (sigma t : R) :
  0 < t -> derivable_pt_lim (fun u => sigma * sqrt u) t (sigma / (2 * sqrt t)).
Proof.
  intro Ht.
  apply (derivable_pt_lim_same _ (mult_real_fct sigma sqrt)); [intro; reflexivity |].
  apply derivable_pt_lim_scal, derivable_pt_lim_sqrt. exact Ht.
Qed.

Lemma near_positive (t y : R) : 0 < t -> Rabs (y - t) < t -> 0 < y.
Proof.
  intros Ht H. apply Rabs_def2 in H. lra.
Qed.

(** ** What the engine returns for live options *)

Lemma call_price_value (S K T r sigma q : R) :
  0 < S -> 0 < K -> 0 < T -> 0 < sigma ->
  BlackScholes.call_price S K T r sigma q =
    Ok (S * exp (- q * T)
        * norm_cdf ((ln (S / K) + (r - q) * T) / (sigma * sqrt T) + sigma * sqrt T / 2)
        - K * exp (- r * T)
          * norm_cdf ((ln (S / K) + (r - q) * T) / (sigma * sqrt T)
                      - sigma * sqrt T / 2)).
Proof.
  intros HS HK HT Hs. unfold BlackScholes.call_price.
  rewrite (Rleb_false _ _ HT), (Rleb_false _ _ Hs), d1_term_ok by lra.
  cbn [orb bind].
  rewrite Rmax_left by (apply call_value_nonneg; assumption).
  rewrite (d2_forward S K T r sigma q HT Hs), (d1_forward S K T r sigma q HT Hs).
  reflexivity.
Qed.

Lemma put_price_value (S K T r sigma q : R) :
  0 < S -> 0 < K -> 0 < T -> 0 < sigma ->
  BlackScholes.put_price S K T r sigma q =
    Ok (K * exp (- r * T)
        * norm_cdf (- ((ln (S / K) + (r - q) * T) / (sigma * sqrt T)
                       - sigma * sqrt T / 2))
        - S * exp (- q * T)
          * norm_cdf (- ((ln (S / K) + (r - q) * T) / (sigma * sqrt T)
                         + sigma * sqrt T / 2))).
Proof.
  intros HS HK HT Hs. unfold BlackScholes.put_price.
  rewrite (Rleb_false _ _ HT), (Rleb_false _ _ Hs), d1_term_ok by lra.
  cbn [orb bind].
  rewrite Rmax_left by (apply put_value_nonneg; assumption).
  rewrite (d2_forward S K T r sigma q HT Hs), (d1_forward S K T r sigma q HT Hs).
  reflexivity.
Qed.

Lemma delta_value (S K T r sigma q : R) :
  0 < K -> 0 < T -> 0 < sigma ->
  BlackScholes.delta S K T r sigma "call" q =
    Ok (exp (- q * T)
        * norm_cdf ((ln (S / K) + (r - q) * T) / (sigma * sqrt T) + sigma * sqrt T / 2)) /\
  BlackScholes.delta S K T r sigma "put" q =
    Ok (- exp (- q * T)
        * norm_cdf (- ((ln (S / K) + (r - q) * T) / (sigma * sqrt T)
                       + sigma * sqrt T / 2))).
Proof.
  intros HK HT Hs. unfold BlackScholes.delta.
  rewrite (Rleb_false _ _ HT), d1_term_ok by lra. cbn [bind].
  rewrite (d1_forward S K T r sigma q HT Hs). eval_tags. split; reflexivity.
Qed.


(** X24. For a live option ([S], [K], [T], [sigma] all positive) both
    prices are returned and respect the no-arbitrage bounds: the call lies
    between [max(S e^(-qT) - K e^(-rT), 0)] and [S e^(-qT)], the put
    between [max(K e^(-rT) - S e^(-qT), 0)] and [K e^(-rT)]. *)
Theorem price_bounds (S K T r sigma q : R) :
  0 < S -> 0 < K -> 0 < T -> 0 < sigma ->
  exists c p,
    BlackScholes.call_price S K T r sigma q = Ok c /\
    BlackScholes.put_price S K T r sigma q = Ok p /\
    Rmax (S * exp (- q * T) - K * exp (- r * T)) 0 <= c <= S * exp (- q * T) /\
    Rmax (K * exp (- r * T) - S * exp (- q * T)) 0 <= p <= K * exp (- r * T).
Proof.
  intros HS HK HT Hs.
  pose proof (call_value_nonneg S K T r sigma q HS HK HT Hs) as Hc.
  pose proof (put_value_nonneg S K T r sigma q HS HK HT Hs) as Hp.
  rewrite (d2_forward S K T r sigma q HT Hs), (d1_forward S K T r sigma q HT Hs)
    in Hc, Hp.
  rewrite call_price_value, put_price_value by assumption.
  do 2 eexists. split; [reflexivity |]. split; [reflexivity |].
  set (d1 := (ln (S / K) + (r - q) * T) / (sigma * sqrt T) + sigma * sqrt T / 2) in *.
  set (d2 := (ln (S / K) + (r - q) * T) / (sigma * sqrt T) - sigma * sqrt T / 2) in *.
  pose proof (norm_cdf_sym d1) as S1. pose proof (norm_cdf_sym d2) as S2.
  pose proof (norm_cdf_nonneg d1). pose proof (norm_cdf_nonneg d2).
  pose proof (norm_cdf_nonneg (- d1)). pose proof (norm_cdf_nonneg (- d2)).
  assert (HA : 0 < S * exp (- q * T))
    by (apply Rmult_lt_0_compat; [exact HS | apply exp_pos]).
  assert (HB : 0 < K * exp (- r * T))
    by (apply Rmult_lt_0_compat; [exact HK | apply exp_pos]).
  set (A := S * exp (- q * T)) in *. set (B := K * exp (- r * T)) in *.
  replace (norm_cdf (- d1)) with (1 - norm_cdf d1) in * by lra.
  replace (norm_cdf (- d2)) with (1 - norm_cdf d2) in * by lra.
  repeat split; try (apply Rmax_lub); nra.
Qed.

Lemma price_bounds_witness :
  exists c p,
    BlackScholes.call_price 100 100 1 0.05 0.25 0 = Ok c /\
    BlackScholes.put_price 100 100 1 0.05 0.25 0 = Ok p /\
    Rmax (100 * exp (- (0) * 1) - 100 * exp (- (0.05) * 1)) 0 <= c
    <= 100 * exp (- (0) * 1) /\
    Rmax (100 * exp (- (0.05) * 1) - 100 * exp (- (0) * 1)) 0 <= p
    <= 100 * exp (- (0.05) * 1).
Proof.
  apply (price_bounds 100 100 1 0.05 0.25 0); lra.
Defined.



(** X26. For a live option the delta returned is the derivative of the
    price returned with respect to the spot price, for the call and for
    the put. *)
Theorem delta_is_price_slope (S K T r sigma q : R) :
  0 < S -> 0 < K -> 0 < T -> 0 < sigma ->
  exists dc dp,
    BlackScholes.delta S K T r sigma "call" q = Ok dc /\
    BlackScholes.delta S K T r sigma "put" q = Ok dp /\
    derivable_pt_lim (fun s => returned (BlackScholes.call_price s K T r sigma q)) S dc /\
    derivable_pt_lim (fun s => returned (BlackScholes.put_price s K T r sigma q)) S dp.
Proof.
  intros HS HK HT Hs.
  destruct (delta_value S K T r sigma q HK HT Hs) as [Hdc Hdp].
  pose (A := fun u : R => u * exp (- q * T)).
  pose (B := fun _ : R => K * exp (- r * T)).
  pose (x := fun u : R => ln (u / K) + (r - q) * T).
  pose (v := fun _ : R => sigma * sqrt T).
  assert (HA : derivable_pt_lim A S (exp (- q * T))) by apply linear_deriv.
  assert (HB : derivable_pt_lim B S 0) by apply derivable_pt_lim_const.
  assert (Hx : derivable_pt_lim x S (/ S)) by (apply log_ratio_deriv; assumption).
  assert (Hv : derivable_pt_lim v S 0) by apply derivable_pt_lim_const.
  assert (Hvp : 0 < v S) by (apply total_vol_pos; assumption).
  assert (Hf : A S = B S * exp (x S)) by (apply discounted_ratio; assumption).
  do 2 eexists. split; [exact Hdc |]. split; [exact Hdp |]. split.
  - apply (derivable_pt_lim_local _
             (fun u => A u * norm_cdf (x u / v u + v u / 2)
                       - B u * norm_cdf (x u / v u - v u / 2)) _ _ S HS).
    + intros y Hy. rewrite call_price_value;
        [reflexivity | exact (near_positive S y HS Hy) | assumption ..].
    + eapply derivable_pt_lim_value;
        [| exact (call_curve_deriv A B x v S _ _ _ _ HA HB Hx Hv Hvp Hf)].
      unfold A, B, x, v. ring.
  - apply (derivable_pt_lim_local _
             (fun u => B u * norm_cdf (- (x u / v u - v u / 2))
                       - A u * norm_cdf (- (x u / v u + v u / 2))) _ _ S HS).
    + intros y Hy. rewrite put_price_value;
        [reflexivity | exact (near_positive S y HS Hy) | assumption ..].
    + eapply derivable_pt_lim_value;
        [| exact (put_curve_deriv A B x v S _ _ _ _ HA HB Hx Hv Hvp Hf)].
      unfold A, B, x, v. ring.
Qed.

Lemma delta_is_price_slope_witness :
  exists dc dp,
    BlackScholes.delta 100 100 1 0.05 0.25 "call" 0 = Ok dc /\
    BlackScholes.delta 100 100 1 0.05 0.25 "put" 0 = Ok dp /\
    derivable_pt_lim
      (fun s => returned (BlackScholes.call_price s 100 1 0.05 0.25 0)) 100 dc /\
    derivable_pt_lim
      (fun s => returned (BlackScholes.put_price s 100 1 0.05 0.25 0)) 100 dp.
Proof.
  apply (delta_is_price_slope 100 100 1 0.05 0.25 0); lra.
Defined.

(** X27. For a live option the gamma returned is the derivative of the
    delta returned with respect to the spot price, for the call delta and
    for the put delta alike. *)
Theorem gamma_is_delta_slope (S K T r sigma q : R) :
  0 < S -> 0 < K -> 0 < T -> 0 < sigma ->
  exists g,
    BlackScholes.gamma S K T r sigma q = Ok g /\
    derivable_pt_lim
      (fun s => returned (BlackScholes.delta s K T r sigma "call" q)) S g /\
    derivable_pt_lim
      (fun s => returned (BlackScholes.delta s K T r sigma "put" q)) S g.
Proof.
  intros HS HK HT Hs.
  pose (x := fun u : R => ln (u / K) + (r - q) * T).
  pose (v := fun _ : R => sigma * sqrt T).
  assert (Hx : derivable_pt_lim x S (/ S)) by (apply log_ratio_deriv; assumption).
  assert (Hv : derivable_pt_lim v S 0) by apply derivable_pt_lim_const.
  assert (Hvp : 0 < v S) by (apply total_vol_pos; assumption).
  pose proof (curve_d1_deriv x v S _ _ Hx Hv Hvp) as Hd1.
  pose proof (sqrt_lt_R0 T HT) as Hq.
  unfold BlackScholes.gamma.
  rewrite (Rleb_false _ _ HT), d1_term_ok by lra. cbn [bind].
  rewrite (d1_forward S K T r sigma q HT Hs).
  eexists. split; [reflexivity |]. split.
  - apply (derivable_pt_lim_same _
             (mult_real_fct (exp (- q * T))
                (comp norm_cdf (fun u => x u / v u + v u / 2)))).
    + intro y. destruct (delta_value y K T r sigma q HK HT Hs) as [-> _]. reflexivity.
    + eapply derivable_pt_lim_value;
        [| apply derivable_pt_lim_scal, derivable_pt_lim_comp;
           [exact Hd1 | apply norm_cdf_pdf]].
      unfold x, v, Rsqr. field. lra.
  - apply (derivable_pt_lim_same _
             (minus_fct
                (mult_real_fct (exp (- q * T))
                   (comp norm_cdf (fun u => x u / v u + v u / 2)))
                (fct_cte (exp (- q * T))))).
    + intro y. destruct (delta_value y K T r sigma q HK HT Hs) as [_ ->].
      unfold minus_fct, mult_real_fct, comp, fct_cte, returned, x, v.
      pose proof (norm_cdf_sym
                    ((ln (y / K) + (r - q) * T) / (sigma * sqrt T) + sigma * sqrt T / 2)).
      replace (norm_cdf
                 (- ((ln (y / K) + (r - q) * T) / (sigma * sqrt T) + sigma * sqrt T / 2)))
        with (1 - norm_cdf
                    ((ln (y / K) + (r - q) * T) / (sigma * sqrt T) + sigma * sqrt T / 2))
        by lra.
      ring.
    + eapply derivable_pt_lim_value;
        [| apply derivable_pt_lim_minus;
           [apply derivable_pt_lim_scal, derivable_pt_lim_comp;
            [exact Hd1 | apply norm_cdf_pdf]
           | apply derivable_pt_lim_const]].
      unfold x, v, Rsqr. field. lra.
Qed.

Lemma gamma_is_delta_slope_witness :
  exists g,
    BlackScholes.gamma 100 100 1 0.05 0.25 0 = Ok g /\
    derivable_pt_lim
      (fun s => returned (BlackScholes.delta s 100 1 0.05 0.25 "call" 0)) 100 g /\
    derivable_pt_lim
      (fun s => returned (BlackScholes.delta s 100 1 0.05 0.25 "put" 0)) 100 g.
Proof.
  apply (gamma_is_delta_slope 100 100 1 0.05 0.25 0); lra.
Defined.

(** X28. For a live option the vega returned, times 100, is the derivative
    of the price returned with respect to the volatility, for the call and
    for the put alike: vega is quoted per percentage point. *)
Theorem vega_is_volatility_slope (S K T r sigma q : R) :
  0 < S -> 0 < K -> 0 < T -> 0 < sigma ->
  exists vg,
    BlackScholes.vega S K T r sigma q = Ok vg /\
    derivable_pt_lim
      (fun s => returned (BlackScholes.call_price S K T r s q)) sigma (vg * 100) /\
    derivable_pt_lim
      (fun s => returned (BlackScholes.put_price S K T r s q)) sigma (vg * 100).
Proof.
  intros HS HK HT Hs.
  pose (A := fun _ : R => S * exp (- q * T)).
  pose (B := fun _ : R => K * exp (- r * T)).
  pose (x := fun _ : R => ln (S / K) + (r - q) * T).
  pose (v := fun u : R => u * sqrt T).
  assert (HA : derivable_pt_lim A sigma 0) by apply derivable_pt_lim_const.
  assert (HB : derivable_pt_lim B sigma 0) by apply derivable_pt_lim_const.
  assert (Hx : derivable_pt_lim x sigma 0) by apply derivable_pt_lim_const.
  assert (Hv : derivable_pt_lim v sigma (sqrt T)) by apply linear_deriv.
  assert (Hvp : 0 < v sigma) by (apply total_vol_pos; assumption).
  assert (Hf : A sigma = B sigma * exp (x sigma))
    by (apply discounted_ratio; assumption).
  unfold BlackScholes.vega.
  rewrite (Rleb_false _ _ HT), d1_term_ok by lra. cbn [bind].
  rewrite (d1_forward S K T r sigma q HT Hs).
  eexists. split; [reflexivity |]. split.
  - apply (derivable_pt_lim_local _
             (fun u => A u * norm_cdf (x u / v u + v u / 2)
                       - B u * norm_cdf (x u / v u - v u / 2)) _ _ sigma Hs).
    + intros y Hy. rewrite call_price_value;
        [reflexivity | assumption .. | exact (near_positive sigma y Hs Hy)].
    + eapply derivable_pt_lim_value;
        [| exact (call_curve_deriv A B x v sigma _ _ _ _ HA HB Hx Hv Hvp Hf)].
      unfold A, B, x, v. field.
  - apply (derivable_pt_lim_local _
             (fun u => B u * norm_cdf (- (x u / v u - v u / 2))
                       - A u * norm_cdf (- (x u / v u + v u / 2))) _ _ sigma Hs).
    + intros y Hy. rewrite put_price_value;
        [reflexivity | assumption .. | exact (near_positive sigma y Hs Hy)].
    + eapply derivable_pt_lim_value;
        [| exact (put_curve_deriv A B x v sigma _ _ _ _ HA HB Hx Hv Hvp Hf)].
      unfold A, B, x, v. field.
Qed.

Lemma vega_is_volatility_slope_witness :
  exists vg,
    BlackScholes.vega 100 100 1 0.05 0.25 0 = Ok vg /\
    derivable_pt_lim
      (fun s => returned (BlackScholes.call_price 100 100 1 0.05 s 0)) 0.25 (vg * 100) /\
    derivable_pt_lim
      (fun s => returned (BlackScholes.put_price 100 100 1 0.05 s 0)) 0.25 (vg * 100).
Proof.
  apply (vega_is_volatility_slope 100 100 1 0.05 0.25 0); lra.
Defined.

Lemma discount_rate_deriv (K T r : R) :
  derivable_pt_lim (fun u => K * exp (- u * T)) r (- T * (K * exp (- r * T))).
Proof.
  apply (derivable_pt_lim_same _ (fun u => K * exp (- T * u)));
    [intro y; f_equal; f_equal; ring |].
  replace (- r * T) with (- T * r) by ring. apply discount_deriv.
Qed.

Lemma rate_moneyness_deriv (c q T r : R) :
  derivable_pt_lim (fun u => c + (u - q) * T) r T.
Proof.
  apply (derivable_pt_lim_same _ (fun u => (c - q * T) + T * u));
    [intro y; ring |].
  apply affine_in_deriv.
Qed.

(** X29. For a live option the rho returned, times 100, is the derivative
    of the price returned with respect to the interest rate, for the call
    and for the put: rho is quoted per percentage point. *)
Theorem rho_is_rate_slope (S K T r sigma q : R) :
  0 < S -> 0 < K -> 0 < T -> 0 < sigma ->
  exists rc rp,
    BlackScholes.rho S K T r sigma "call" q = Ok rc /\
    BlackScholes.rho S K T r sigma "put" q = Ok rp /\
    derivable_pt_lim
      (fun u => returned (BlackScholes.call_price S K T u sigma q)) r (rc * 100) /\
    derivable_pt_lim
      (fun u => returned (BlackScholes.put_price S K T u sigma q)) r (rp * 100).
Proof.
  intros HS HK HT Hs.
  pose (A := fun _ : R => S * exp (- q * T)).
  pose (B := fun u : R => K * exp (- u * T)).
  pose (x := fun u : R => ln (S / K) + (u - q) * T).
  pose (v := fun _ : R => sigma * sqrt T).
  assert (HA : derivable_pt_lim A r 0) by apply derivable_pt_lim_const.
  assert (HB : derivable_pt_lim B r (- T * (K * exp (- r * T))))
    by apply discount_rate_deriv.
  assert (Hx : derivable_pt_lim x r T) by apply rate_moneyness_deriv.
  assert (Hv : derivable_pt_lim v r 0) by apply derivable_pt_lim_const.
  assert (Hvp : 0 < v r) by (apply total_vol_pos; assumption).
  assert (Hf : A r = B r * exp (x r)) by (apply discounted_ratio; assumption).
  unfold BlackScholes.rho.
  rewrite (Rleb_false _ _ HT), d1_term_ok by lra. cbn [bind]. eval_tags.
  rewrite (d2_forward S K T r sigma q HT Hs).
  do 2 eexists. split; [reflexivity |]. split; [reflexivity |]. split.
  - apply (derivable_pt_lim_local _
             (fun u => A u * norm_cdf (x u / v u + v u / 2)
                       - B u * norm_cdf (x u / v u - v u / 2)) _ _ 1 Rlt_0_1).
    + intros y _. rewrite call_price_value by assumption. reflexivity.
    + eapply derivable_pt_lim_value;
        [| exact (call_curve_deriv A B x v r _ _ _ _ HA HB Hx Hv Hvp Hf)].
      unfold A, B, x, v. field.
  - apply (derivable_pt_lim_local _
             (fun u => B u * norm_cdf (- (x u / v u - v u / 2))
                       - A u * norm_cdf (- (x u / v u + v u / 2))) _ _ 1 Rlt_0_1).
    + intros y _. rewrite put_price_value by assumption. reflexivity.
    + eapply derivable_pt_lim_value;
        [| exact (put_curve_deriv A B x v r _ _ _ _ HA HB Hx Hv Hvp Hf)].
      unfold A, B, x, v. field.
Qed.

Lemma rho_is_rate_slope_witness :
  exists rc rp,
    BlackScholes.rho 100 100 1 0.05 0.25 "call" 0 = Ok rc /\
    BlackScholes.rho 100 100 1 0.05 0.25 "put" 0 = Ok rp /\
    derivable_pt_lim
      (fun u => returned (BlackScholes.call_price 100 100 1 u 0.25 0)) 0.05 (rc * 100) /\
    derivable_pt_lim
      (fun u => returned (BlackScholes.put_price 100 100 1 u 0.25 0)) 0.05 (rp * 100).
Proof.
  apply (rho_is_rate_slope 100 100 1 0.05 0.25 0); lra.
Defined.

(** X30. For a live option the put theta returned, times 365, is minus the
    derivative of the put price with respect to the time to expiration
    (theta is quoted per day).  For the call the same holds up to the
    dividend term: the derivative of the call price is minus 365 times the
    call theta, less [2 * q * S] times the call delta, so the two agree
    exactly when that term vanishes, as it does for [q = 0]. *)
Theorem theta_is_time_decay (S K T r sigma q : R) :
  0 < S -> 0 < K -> 0 < T -> 0 < sigma ->
  exists tc tp dc,
    BlackScholes.theta S K T r sigma "call" q = Ok tc /\
    BlackScholes.theta S K T r sigma "put" q = Ok tp /\
    BlackScholes.delta S K T r sigma "call" q = Ok dc /\
    derivable_pt_lim
      (fun t => returned (BlackScholes.put_price S K t r sigma q)) T (- (tp * 365)) /\
    derivable_pt_lim
      (fun t => returned (BlackScholes.call_price S K t r sigma q)) T
      (- (tc * 365) - 2 * q * S * dc).
Proof.
  intros HS HK HT Hs.
  destruct (delta_value S K T r sigma q HK HT Hs) as [Hdc _].
  pose (A := fun u : R => S * exp (- q * u)).
  pose (B := fun u : R => K * exp (- r * u)).
  pose (x := fun u : R => ln (S / K) + (r - q) * u).
  pose (v := fun u : R => sigma * sqrt u).
  assert (HA : derivable_pt_lim A T (- q * (S * exp (- q * T))))
    by apply discount_deriv.
  assert (HB : derivable_pt_lim B T (- r * (K * exp (- r * T))))
    by apply discount_deriv.
  assert (Hx : derivable_pt_lim x T (r - q)) by apply affine_in_deriv.
  assert (Hv : derivable_pt_lim v T (sigma / (2 * sqrt T)))
    by (apply total_vol_deriv; exact HT).
  assert (Hvp : 0 < v T) by (apply total_vol_pos; assumption).
  assert (Hf : A T = B T * exp (x T)) by (apply discounted_ratio; assumption).
  pose proof (sqrt_lt_R0 T HT) as Hq.
  unfold BlackScholes.theta.
  rewrite (Rleb_false _ _ HT), d1_term_ok by lra. cbn [bind]. eval_tags.
  rewrite (d2_forward S K T r sigma q HT Hs), (d1_forward S K T r sigma q HT Hs).
  do 3 eexists. split; [reflexivity |]. split; [reflexivity |].
  split; [exact Hdc |]. split.
  - apply (derivable_pt_lim_local _
             (fun u => B u * norm_cdf (- (x u / v u - v u / 2))
                       - A u * norm_cdf (- (x u / v u + v u / 2))) _ _ T HT).
    + intros y Hy. rewrite put_price_value;
        [reflexivity | assumption | assumption | exact (near_positive T y HT Hy)
        | assumption].
    + eapply derivable_pt_lim_value;
        [| exact (put_curve_deriv A B x v T _ _ _ _ HA HB Hx Hv Hvp Hf)].
      unfold A, B, x, v. cbv zeta. field. lra.
  - apply (derivable_pt_lim_local _
             (fun u => A u * norm_cdf (x u / v u + v u / 2)
                       - B u * norm_cdf (x u / v u - v u / 2)) _ _ T HT).
    + intros y Hy. rewrite call_price_value;
        [reflexivity | assumption | assumption | exact (near_positive T y HT Hy)
        | assumption].
    + eapply derivable_pt_lim_value;
        [| exact (call_curve_deriv A B x v T _ _ _ _ HA HB Hx Hv Hvp Hf)].
      unfold A, B, x, v. cbv zeta. field. lra.
Qed.

Lemma theta_is_time_decay_witness :
  exists tc tp dc,
    BlackScholes.theta 100 100 1 0.05 0.25 "call" 0.02 = Ok tc /\
    BlackScholes.theta 100 100 1 0.05 0.25 "put" 0.02 = Ok tp /\
    BlackScholes.delta 100 100 1 0.05 0.25 "call" 0.02 = Ok dc /\
    derivable_pt_lim
      (fun t => returned (BlackScholes.put_price 100 100 t 0.05 0.25 0.02)) 1
      (- (tp * 365)) /\
    derivable_pt_lim
      (fun t => returned (BlackScholes.call_price 100 100 t 0.05 0.25 0.02)) 1
      (- (tc * 365) - 2 * 0.02 * 100 * dc).
Proof.
  apply (theta_is_time_decay 100 100 1 0.05 0.25 0.02); lra.
Defined.
